(** * A shallow embedding of the [sanitizer] library (src/index.js)

    The development follows the layout of the source file:
    - the fragment of JavaScript values and built-ins the code relies on;
    - the predicates ([isString] ... [isKeyExist]) and the key-path helpers
      ([getValueFromKey], [setValueFromKey]);
    - the rule classes ([IntegerRule] ... [TypedArrayRule]);
    - the [Sanitizer] class ([toFlatObject], [sanitizeBySpec]) and the
      [StandardSanitizer] instance;
    - the properties.

    Modelling conventions.
    - Strings are [string]s of 8-bit characters.
    - A number is [NaN] or a finite decimal fraction [Dec m k], standing for
      the double nearest to [m / 10^k].  A numeral of at most 15
      significant digits and its double determine each other, so on these
      the model is exact; where a property depends on the exact value or on
      finiteness, its statement bounds the length of the numerals
      ([short_strings], or a bound on the number of digits).  [-0] and the
      infinities are not values of the model.
    - An object is the list of its own enumerable properties in the order
      [Object.keys] lists them; a well-formed object has no repeated key.
      A property added to an object is listed last (JavaScript lists the
      keys that look like array indexes first; no property below depends on
      the order).
    - The operator [in], the property reads and the property stores look at
      own properties.  This is what JavaScript does for every name but the
      ones that objects and arrays inherit from [Object.prototype] and
      [Array.prototype] ([inherited_name]); the store to [__proto__] is one
      of them.  The properties that walk or build objects by their keys are
      stated for keys that are [plain_name]s and objects that are
      [plain_keyed].  The registry lookup [ruleName in this.rules] is
      modelled with the inherited names ([object_prototype_name]).
    - Values are those of JSON, and [undefined].
    - Exceptions are explicit: every operation that can throw returns an
      [outcome].
    - The error report [this.errors] is a finite map; the callbacks a rule
      receives are modelled by the list of the calls it makes. *)

From Stdlib Require Import ZArith Ascii String Lia Sorted.
From Stdlib Require Import Numbers.DecimalString.
From stdpp Require Import gmap strings list fin_maps.

Set Warnings "-register-all".
Local Open Scope string_scope.
Local Open Scope list_scope.

(** ** Outcomes of a JavaScript evaluation *)

(** [TypeError] is the only exception the modelled code can raise.
    [Unmodelled] is not a JavaScript exception: it marks an execution that
    leaves the modelled fragment (storing a named property into an array). *)
Inductive abrupt := TypeError | Unmodelled.

Inductive outcome (A : Type) :=
| Ret (a : A)
| Throw (e : abrupt).
Arguments Ret {A} a.
Arguments Throw {A} e.

Definition obind {A B} (m : outcome A) (f : A -> outcome B) : outcome B :=
  match m with
  | Ret a => f a
  | Throw e => Throw e
  end.

Notation "'do' x <- m ; k" := (obind m (fun x => k))
  (at level 10, x name, m at level 100, k at level 200,
   format "'[v' 'do'  x  <-  m ; '/' k ']'").
Notation "'do' ' pat <- m ; k" :=
  (obind m (fun x => match x with pat => k end))
  (at level 10, pat pattern, m at level 100, k at level 200).

(** ** Numbers *)

Inductive number :=
| NaN
| Dec (m : Z) (k : nat).

(** [norm m k] drops the trailing zeroes of the fractional part. *)
Fixpoint norm (m : Z) (k : nat) : number :=
  match k with
  | O => Dec m 0
  | S k' => if (m mod 10 =? 0)%Z then norm (m / 10) k' else Dec m k
  end.

Definition normalize (n : number) : number :=
  match n with
  | NaN => NaN
  | Dec m k => norm m k
  end.

(** [n % 1 === 0] *)
Definition integral (n : number) : bool :=
  match normalize n with
  | Dec _ O => true
  | _ => false
  end.

(** truncation towards zero *)
Definition trunc (n : number) : number :=
  match n with
  | NaN => NaN
  | Dec m k => Dec (Z.quot m (10 ^ Z.of_nat k)) 0
  end.

(** [Number::toString] prints a magnitude from 1e21 on, and one below 1e-6
    that is not zero, in exponent notation *)
Definition exponent_notation (n : number) : bool :=
  match n with
  | NaN => false
  | Dec m k =>
      let a := Z.abs m in
      (10 ^ (21 + Z.of_nat k) <=? a)%Z
      || ((0 <? a)%Z && (a * 10 ^ 6 <? 10 ^ Z.of_nat k)%Z)
  end.

(** ** Characters and strings *)

Definition is_digit (c : ascii) : bool :=
  let n := nat_of_ascii c in (48 <=? n)%nat && (n <=? 57)%nat.

Definition digit_val (c : ascii) : Z := Z.of_nat (nat_of_ascii c) - 48.

Definition chars (s : string) : list ascii := list_ascii_of_string s.
Definition str (l : list ascii) : string := string_of_list_ascii l.

(** [s.split(sep)] for a one-character separator *)
Fixpoint split (sep : ascii) (s : string) : list string :=
  match s with
  | EmptyString => [EmptyString]
  | String c s' =>
      if Ascii.eqb c sep then EmptyString :: split sep s'
      else match split sep s' with
           | [] => [String c EmptyString]
           | w :: ws => String c w :: ws
           end
  end.

(** [l.join(sep)] on an array of strings *)
Fixpoint join (sep : string) (l : list string) : string :=
  match l with
  | [] => EmptyString
  | [w] => w
  | w :: ws => w +:+ sep +:+ join sep ws
  end.

Definition nonempty (s : string) : bool :=
  match s with EmptyString => false | _ => true end.

(** the decimal numeral of an integer, as [Number::toString] prints it *)
Definition string_of_Z (z : Z) : string := NilZero.string_of_int (Z.to_int z).

(** the value of a string of decimal digits *)
Definition Z_of_digits (l : list ascii) : Z :=
  fold_left (fun acc c => (10 * acc + digit_val c)%Z) l 0%Z.

(** [n] zeroes *)
Definition zeroes (n : nat) : string := str (repeat "0"%char n).

Fixpoint skip_zeroes (l : list ascii) : list ascii :=
  match l with
  | "0"%char :: l' => skip_zeroes l'
  | _ => l
  end.

(** the digits of a numeral without its trailing zeroes *)
Definition significant (l : list ascii) : list ascii :=
  rev (skip_zeroes (rev l)).

(** the first significant digit of an integer *)
Definition leading_digit (z : Z) : Z :=
  match chars (string_of_Z (Z.abs z)) with
  | c :: _ => digit_val c
  | [] => 0%Z
  end.

(** [d.ddde+x]: the significant digits [ds] and the decimal exponent [e] *)
Definition exponent_string (neg : bool) (ds : list ascii) (e : Z) : string :=
  match significant ds with
  | [] => "0"
  | d :: rest =>
      (if neg then "-" else "")
      +:+ String d (match rest with
                    | [] => ""
                    | _ => String "."%char (str rest)
                    end)
      +:+ "e" +:+ (if (e <? 0)%Z then "-" else "+") +:+ string_of_Z (Z.abs e)
  end.

(** [Number::toString]: plain notation, and exponent notation from 1e21 on
    and below 1e-6 *)
Definition string_of_number (n : number) : string :=
  match normalize n with
  | NaN => "NaN"
  | Dec m k =>
      if exponent_notation (Dec m k)
      then let ds := chars (string_of_Z (Z.abs m)) in
           exponent_string (m <? 0)%Z ds
             (Z.of_nat (length ds) - Z.of_nat k - 1)
      else match k with
           | O => string_of_Z m
           | _ =>
               let p := (10 ^ Z.of_nat k)%Z in
               let ip := Z.quot (Z.abs m) p in
               let fp := string_of_Z (Z.rem (Z.abs m) p) in
               (if (m <? 0)%Z then "-" else "") +:+ string_of_Z ip +:+ "."
               +:+ zeroes (k - String.length fp) +:+ fp
           end
  end.

(** ** Values *)

Inductive value :=
| VUndefined
| VNull
| VBool (b : bool)
| VNum (n : number)
| VStr (s : string)
| VArr (l : list value)
| VObj (o : list (string * value)).

Abbreviation obj := (list (string * value)).

Definition VInt (z : Z) : value := VNum (Dec z 0).

(** [ToString] *)
Fixpoint ToString (v : value) : string :=
  match v with
  | VUndefined => "undefined"
  | VNull => "null"
  | VBool true => "true"
  | VBool false => "false"
  | VNum n => string_of_number n
  | VStr s => s
  | VArr l =>
      join "," (map (fun x => match x with
                              | VUndefined | VNull => ""
                              | _ => ToString x
                              end) l)
  | VObj _ => "[object Object]"
  end.

(** [ToBoolean], as used by [||] *)
Definition truthy (v : value) : bool :=
  match v with
  | VUndefined | VNull => false
  | VBool b => b
  | VNum NaN => false
  | VNum (Dec m _) => negb (m =? 0)%Z
  | VStr s => nonempty s
  | VArr _ | VObj _ => true
  end.

(** *** Own properties *)

Fixpoint assoc {A} (k : string) (o : list (string * A)) : option A :=
  match o with
  | [] => None
  | (k', v) :: o' => if String.eqb k k' then Some v else assoc k o'
  end.

(** [o[k] = v] on a plain object: an existing property keeps its place, a
    new one is listed last *)
Fixpoint assign {A} (o : list (string * A)) (k : string) (v : A)
  : list (string * A) :=
  match o with
  | [] => [(k, v)]
  | (k', v') :: o' =>
      if String.eqb k k' then (k', v) :: o' else (k', v') :: assign o' k v
  end.

Definition keys {A} (o : list (string * A)) : list string := map fst o.

(** an array index in canonical form: ["0"], or digits with no leading zero *)
Definition array_index (c : string) : option nat :=
  match chars c with
  | [] => None
  | d :: ds =>
      if forallb is_digit (d :: ds)
         && (negb (Ascii.eqb d "0"%char) || match ds with [] => true | _ => false end)
      then Some (Z.to_nat (Z_of_digits (d :: ds)))
      else None
  end.

(** *** Inherited names *)

(** the names every object inherits from [Object.prototype] *)
Definition object_prototype_names : list string :=
  ["constructor"; "hasOwnProperty"; "isPrototypeOf"; "propertyIsEnumerable";
   "toLocaleString"; "toString"; "valueOf"; "__proto__";
   "__defineGetter__"; "__defineSetter__";
   "__lookupGetter__"; "__lookupSetter__"].

(** the names an array inherits from [Array.prototype] *)
Definition array_prototype_names : list string :=
  ["at"; "concat"; "copyWithin"; "entries"; "every"; "fill"; "filter";
   "find"; "findIndex"; "findLast"; "findLastIndex"; "flat"; "flatMap";
   "forEach"; "group"; "groupBy"; "groupToMap"; "includes"; "indexOf";
   "join"; "keys"; "lastIndexOf"; "map"; "pop"; "push"; "reduce";
   "reduceRight"; "reverse"; "shift"; "slice"; "some"; "sort"; "splice";
   "toReversed"; "toSorted"; "toSpliced"; "unshift"; "values"; "with"].

Definition object_prototype_name (c : string) : bool :=
  existsb (String.eqb c) object_prototype_names.

Definition inherited_name (c : string) : bool :=
  existsb (String.eqb c) (object_prototype_names ++ array_prototype_names).

(** a name on which [in], a read and a store see own properties only *)
Definition plain_name (c : string) : bool := negb (inherited_name c).

(** no key of the object, at any depth outside of arrays, is an inherited
    name *)
Fixpoint plain_keyed (v : value) : bool :=
  match v with
  | VObj o => forallb (fun p => plain_name p.1 && plain_keyed p.2) o
  | _ => true
  end.

(** every string in the value has at most 308 characters: a numeral in it
    is a finite double *)
Fixpoint short_strings (v : value) : bool :=
  match v with
  | VStr s => (String.length s <=? 308)%nat
  | VArr l => forallb short_strings l
  | VObj o => forallb (fun p => short_strings p.2) o
  | _ => true
  end.

(** [c in a]: a [TypeError] unless [a] is an object or an array; own
    properties (see [plain_name]) *)
Definition has_property (c : string) (a : value) : outcome bool :=
  match a with
  | VObj o => Ret (match assoc c o with Some _ => true | None => false end)
  | VArr l =>
      Ret (match array_index c with
           | Some i => (i <? length l)%nat
           | None => String.eqb c "length"
           end)
  | _ => Throw TypeError
  end.

(** [a[c]] on an object or an array: the own property (see [plain_name]) *)
Definition get_property (a : value) (c : string) : value :=
  match a with
  | VObj o => match assoc c o with Some v => v | None => VUndefined end
  | VArr l =>
      match array_index c with
      | Some i => match l !! i with Some v => v | None => VUndefined end
      | None => if String.eqb c "length"
                then VInt (Z.of_nat (length l)) else VUndefined
      end
  | _ => VUndefined
  end.

(** [a[c] = v] in strict mode: a [TypeError] on a primitive; on an array
    only the replacement of an existing element is modelled.  The store
    creates or replaces an own property, which is what JavaScript does for
    a [plain_name]; for [__proto__] it runs a setter instead. *)
Definition set_property (a : value) (c : string) (v : value) : outcome value :=
  match a with
  | VObj o => Ret (VObj (assign o c v))
  | VArr l =>
      match array_index c with
      | Some i => if (i <? length l)%nat then Ret (VArr (<[i:=v]> l))
                  else Throw Unmodelled
      | None => Throw Unmodelled
      end
  | _ => Throw TypeError
  end.

(** ** Regular expressions

    The three patterns of the source that are used with [test] are anchored
    at both ends, so [test] is language membership.  [rmatch] is a
    backtracking matcher in continuation-passing style; [Rep r lo extra] is
    [r{lo,lo+extra}]; [Plus r] is [r+], which on an input of [n] characters
    is [r{1,1+n}]. *)

Inductive regex :=
| Eps
| Cls (p : ascii -> bool)
| Seq (r1 r2 : regex)
| Alt (r1 r2 : regex)
| Opt (r : regex)
| Rep (r : regex) (lo extra : nat)
| Plus (r : regex).

Section Repeat.
Variable m : list ascii -> (list ascii -> bool) -> bool.

Fixpoint rep_exact (n : nat) (s : list ascii) (k : list ascii -> bool)
  : bool :=
  match n with
  | O => k s
  | S n' => m s (fun s' => rep_exact n' s' k)
  end.

Fixpoint rep_upto (n : nat) (s : list ascii) (k : list ascii -> bool)
  : bool :=
  match n with
  | O => k s
  | S n' => m s (fun s' => rep_upto n' s' k) || k s
  end.
End Repeat.

Fixpoint rmatch (r : regex) (s : list ascii) (k : list ascii -> bool) : bool :=
  match r with
  | Eps => k s
  | Cls p => match s with
             | c :: s' => p c && k s'
             | [] => false
             end
  | Seq r1 r2 => rmatch r1 s (fun s' => rmatch r2 s' k)
  | Alt r1 r2 => rmatch r1 s k || rmatch r2 s k
  | Opt r1 => rmatch r1 s k || k s
  | Rep r1 lo extra =>
      rep_exact (rmatch r1) lo s (fun s' => rep_upto (rmatch r1) extra s' k)
  | Plus r1 =>
      rmatch r1 s (fun s' => rep_upto (rmatch r1) (length s') s' k)
  end.

Definition at_end (s : list ascii) : bool :=
  match s with [] => true | _ => false end.

(** [/^r$/.test(s)] *)
Definition test (r : regex) (s : string) : bool := rmatch r (chars s) at_end.

Definition chr (c : ascii) : regex := Cls (Ascii.eqb c).
Definition digit : regex := Cls is_digit.

(** [[\- ]] *)
Definition sep_cls (c : ascii) : bool :=
  Ascii.eqb c "-"%char || Ascii.eqb c " "%char.
(** [[\d\- ]] *)
Definition tail_cls (c : ascii) : bool := is_digit c || sep_cls c.

(** [/^((8|7|\+7)[\- ]?)(\(?\d{3}\)?[\- ]?)[\d\- ]{7,10}$/] *)
Definition phone_reg : regex :=
  Seq (Seq (Alt (chr "8") (Alt (chr "7") (Seq (chr "+") (chr "7"))))
           (Opt (Cls sep_cls)))
      (Seq (Seq (Opt (chr "("))
                (Seq (Rep digit 3 0) (Seq (Opt (chr ")")) (Opt (Cls sep_cls)))))
           (Rep (Cls tail_cls) 7 3)).

(** [/^\d+$/] *)
Definition digits_reg : regex := Plus digit.
(** [/^\d+\.\d+$/] *)
Definition decimal_reg : regex :=
  Seq (Plus digit) (Seq (chr ".") (Plus digit)).

(** [s.replace(/^8/, '7')] *)
Definition replace_leading_8 (s : string) : string :=
  match s with
  | String "8" s' => String "7" s'
  | _ => s
  end.

(** [s.replace(/\D+/g, '')]: every run of non-digits is removed *)
Definition strip_non_digits (s : string) : string :=
  str (List.filter is_digit (chars s)).

(** ** Number parsing *)

(** the longest prefix of decimal digits, and the rest *)
Fixpoint span_digits (l : list ascii) : list ascii * list ascii :=
  match l with
  | c :: l' => if is_digit c
               then let '(d, r) := span_digits l' in (c :: d, r)
               else ([], l)
  | [] => ([], [])
  end.

Definition is_space (c : ascii) : bool :=
  let n := nat_of_ascii c in (n =? 32)%nat || ((9 <=? n)%nat && (n <=? 13)%nat).

Fixpoint skip_spaces (l : list ascii) : list ascii :=
  match l with
  | c :: l' => if is_space c then skip_spaces l' else l
  | [] => []
  end.

Definition read_sign (l : list ascii) : bool * list ascii :=
  match l with
  | "-"%char :: l' => (true, l')
  | "+"%char :: l' => (false, l')
  | _ => (false, l)
  end.

Definition signed (neg : bool) (z : Z) : Z := if neg then (- z)%Z else z.

(** [parseInt(s, 10)] on a string *)
Definition parseInt_string (s : string) : number :=
  let '(neg, l) := read_sign (skip_spaces (chars s)) in
  match span_digits l with
  | ([], _) => NaN
  | (d, _) => Dec (signed neg (Z_of_digits d)) 0
  end.

(** [parseFloat(s)] on a string, for numerals in plain notation (exponent
    parts and [Infinity] are not modelled) *)
Definition parseFloat_string (s : string) : number :=
  let '(neg, l) := read_sign (skip_spaces (chars s)) in
  let '(ip, r) := span_digits l in
  let fp := match r with
            | "."%char :: r' => fst (span_digits r')
            | _ => []
            end in
  match ip, fp with
  | [], [] => NaN
  | _, _ => norm (signed neg (Z_of_digits (ip ++ fp))) (length fp)
  end.

(** [parseInt(v, 10)].  The argument is converted with [ToString] and
    parsed.  A number in plain notation reads back to its integral part;
    of one in exponent notation ([1.5e+21], [5e-7]) the parse stops at the
    point or at the [e], and reads the first digit. *)
Definition parseInt (v : value) : number :=
  match v with
  | VNum NaN => NaN
  | VNum (Dec m k) =>
      if exponent_notation (Dec m k)
      then Dec (Z.sgn m * leading_digit m) 0
      else trunc (Dec m k)
  | _ => parseInt_string (ToString v)
  end.

(** [parseFloat(v)].  A number reads back from its own numeral. *)
Definition parseFloat (v : value) : number :=
  match v with
  | VNum n => n
  | _ => parseFloat_string (ToString v)
  end.

(** ** Predicates (src/index.js, lines 3-37) *)

Definition isString (v : value) : bool :=
  match v with VStr _ => true | _ => false end.

(** [Number(value) === value && value % 1 === 0] *)
Definition isInteger (v : value) : bool :=
  match v with
  | VNum n => integral n
  | _ => false
  end.

(** [Number(value) === value && value % 1 !== 0] *)
Definition isFloat (v : value) : bool :=
  match v with
  | VNum NaN => false
  | VNum n => negb (integral n)
  | _ => false
  end.

(** [reg.test(value)]: [test] converts its argument with [ToString] *)
Definition isPhone (v : value) : bool := test phone_reg (ToString v).

Definition isArray (v : value) : bool :=
  match v with VArr _ => true | _ => false end.

Definition isTypedArray (v : value) (predicate : value -> bool) : bool :=
  match v with
  | VArr l => forallb predicate l
  | _ => false
  end.

(** [segs.reduce(f, init)] with a callback that may throw *)
Fixpoint reduce {A B} (f : B -> A -> outcome B) (l : list A) (init : B)
  : outcome B :=
  match l with
  | [] => Ret init
  | x :: l' => do b <- f init x; reduce f l' b
  end.

(** [(a, c) => c in a ? a[c] || 1 : false] *)
Definition exist_step (a : value) (c : string) : outcome value :=
  do b <- has_property c a;
  Ret (if b : bool
       then let v := get_property a c in if truthy v then v else VInt 1
       else VBool false).

(** [x !== false] *)
Definition is_not_false (v : value) : bool :=
  match v with VBool false => false | _ => true end.

Definition isKeyExist (object : obj) (key : string) : outcome bool :=
  do r <- reduce exist_step (split "." key) (VObj object);
  Ret (is_not_false r).

(** [keys.every(key => isKeyExist(object, key))]: stops at the first
    [false] *)
Fixpoint isKeysExist (object : obj) (ks : list string) : outcome bool :=
  match ks with
  | [] => Ret true
  | k :: ks' =>
      do b <- isKeyExist object k;
      if b : bool then isKeysExist object ks' else Ret false
  end.

(** ** Key-path helpers (lines 39-45) *)

(** [(a, c) => c in a ? a[c] : def] *)
Definition get_step (def : value) (a : value) (c : string) : outcome value :=
  do b <- has_property c a;
  Ret (if b : bool then get_property a c else def).

Definition getValueFromKey (object : obj) (key : string) : outcome value :=
  reduce (get_step VNull) (split "." key) (VObj object).

(** [setValueFromKey] mutates [object] in place along the path.  [set_path]
    returns the container after the mutation: on every segment but the last
    it descends into [a[c]], which it first creates as [{}] when [c] is not
    in [a]; on the last one it stores the value. *)
Fixpoint set_path (a : value) (segs : list string) (v : value)
  : outcome value :=
  match segs with
  | [] => Ret a
  | [c] => set_property a c v
  | c :: rest =>
      do b <- has_property c a;
      if b : bool
      then do child <- set_path (get_property a c) rest v;
           set_property a c child
      else do a' <- set_property a c (VObj []);
           do child <- set_path (VObj []) rest v;
           set_property a' c child
  end.

Definition as_obj (v : value) : obj :=
  match v with VObj o => o | _ => [] end.

Definition setValueFromKey (object : obj) (key : string) (v : value)
  : outcome obj :=
  do r <- set_path (VObj object) (split "." key) v;
  Ret (as_obj r).

(** ** Errors and rules (lines 58-154) *)

Inductive SanitizerError :=
| InvalidPayload
| InvalidSpecRule
| InvalidStructureValue
| InvalidValue
| KeyDoesNotExist
| ExtraField.

Global Instance SanitizerError_eq_dec : EqDecision SanitizerError.
Proof. solve_decision. Defined.

(** One call of the [logger] callback: the error, and the index list that
    a structural rule passes as second argument. *)
Definition report : Type := SanitizerError * list nat.

Inductive rule :=
| IntegerRule
| FloatRule
| StringRule
| PhoneRule
| TypedArrayRule (inner : rule).

(** [array.map((item, index) => f(item, error => { if (error)
    invalidIndexes.push(index); }))]: the mapped array and the final
    [invalidIndexes].  Each call of the callback pushes [index] once (every
    [SanitizerError] is a non-empty string, hence truthy). *)
Fixpoint map_items (f : value -> outcome (value * list report))
    (items : list value) (index : nat) : outcome (list value * list nat) :=
  match items with
  | [] => Ret ([], [])
  | item :: rest =>
      do '(v, calls) <- f item;
      do '(vs, invalidIndexes) <- map_items f rest (S index);
      Ret (v :: vs, map (fun _ => index) calls ++ invalidIndexes)
  end.

(** [sanitize(value, logger)]: the returned value and the calls made to
    [logger], in order. *)
Fixpoint sanitize (r : rule) (v : value) : outcome (value * list report) :=
  match r with
  | IntegerRule =>
      let '(v, calls) :=
        if negb (isInteger v)
           && (negb (isString v) || negb (test digits_reg (ToString v)))
        then (VInt 0, [(InvalidValue, [])])
        else (v, []) in
      Ret (VNum (parseInt v), calls)
  | FloatRule =>
      let '(v, calls) :=
        if negb (isFloat v)
           && (negb (isString v) || negb (test decimal_reg (ToString v)))
        then (VInt 0, [(InvalidValue, [])])
        else (v, []) in
      Ret (VNum (parseFloat v), calls)
  | StringRule =>
      let '(v, calls) :=
        if negb (isString v)
        then (VStr "", [(InvalidValue, [])])
        else (v, []) in
      Ret (v, calls)
  | PhoneRule =>
      let '(v, calls) :=
        if negb (isPhone v)
        then (VStr "", [(InvalidValue, [])])
        else (v, []) in
      (* [v.replace] is defined on strings only *)
      match v with
      | VStr s => Ret (VStr (strip_non_digits (replace_leading_8 s)), calls)
      | _ => Throw TypeError
      end
  | TypedArrayRule inner =>
      match v with
      | VArr array =>
          do '(array, invalidIndexes) <- map_items (sanitize inner) array 0;
          match invalidIndexes with
          | [] => Ret (VArr array, [])
          | _ => Ret (VArr [], [(InvalidStructureValue, invalidIndexes)])
          end
      | _ => Ret (VArr [], [(InvalidValue, [])])
      end
  end.

(** ** The Sanitizer class (lines 157-213) *)

Record Sanitizer := {
  rules : gmap string rule;
  errors : gmap string SanitizerError;
}.

(** [constructor(rules)] *)
Definition new_Sanitizer (rules : gmap string rule) : Sanitizer :=
  {| rules := rules; errors := ∅ |}.

(** [[pre, key].filter(v => v).join('.')] *)
Definition make_prefix (pre key : string) : string :=
  join "." (List.filter nonempty [pre; key]).

(** [flat(res, key, val, pre)].  [typeof val === 'object' && !isArray(val)]
    holds of objects and of [null]; [Object.keys(null)] throws.  The
    properties of [val] are visited in order; [res] is a plain object and
    [Object.assign(res, {[prefix]: val})] stores [val] under [prefix] (for
    every [prefix] but [__proto__], see [plain_keyed]). *)
Fixpoint flat (res : obj) (key : string) (val : value) (pre : string)
  : outcome obj :=
  let prefix := make_prefix pre key in
  match val with
  | VObj o =>
      (fix props (ps : obj) (prev : obj) : outcome obj :=
         match ps with
         | [] => Ret prev
         | (curr, v) :: ps' => do r <- flat prev curr v prefix; props ps' r
         end) o res
  | VNull => Throw TypeError
  | _ => Ret (assign res prefix val)
  end.

Fixpoint flat_props (ps : obj) (prev : obj) (prefix : string) : outcome obj :=
  match ps with
  | [] => Ret prev
  | (curr, v) :: ps' => do r <- flat prev curr v prefix; flat_props ps' r prefix
  end.

Definition toFlatObject (object : obj) : outcome obj :=
  flat_props object [] "".

(** [specKeys.includes(payloadKey)] *)
Definition includes (l : list string) (k : string) : bool :=
  existsb (String.eqb k) l.

(** lines 178-183: the extra-field pass *)
Definition extra_fields (specKeys payloadKeys : list string)
    (errs : gmap string SanitizerError) : gmap string SanitizerError :=
  if negb (length specKeys =? length payloadKeys)%nat
  then fold_left
         (fun e payloadKey =>
            if negb (includes specKeys payloadKey)
            then <[payloadKey := ExtraField]> e else e)
         payloadKeys errs
  else errs.

(** [error => this.errors[specKey] = error], once per call of the logger *)
Definition log_errors (specKey : string) (calls : list report)
    (errs : gmap string SanitizerError) : gmap string SanitizerError :=
  fold_left (fun e c => <[specKey := fst c]> e) calls errs.

(** lines 185-196: the body of the loop over the keys of [flatSpec].  The
    error report is instance state: it keeps what was stored before a throw. *)
Definition sanitize_key (rs : gmap string rule) (spec payload flatPayload : obj)
    (specKey : string) (errs : gmap string SanitizerError) (out : obj)
  : gmap string SanitizerError * outcome obj :=
  match isKeyExist payload specKey with
  | Throw e => (errs, Throw e)
  | Ret false => (<[specKey := KeyDoesNotExist]> errs, Ret out)
  | Ret true =>
      match getValueFromKey spec specKey with
      | Throw e => (errs, Throw e)
      | Ret ruleName =>
          match rs !! ToString ruleName with
          | None =>
              (* [ruleName in this.rules] also holds of an inherited name,
                 and what is inherited has no [sanitize] method *)
              if object_prototype_name (ToString ruleName)
              then (errs, Throw TypeError)
              else (<[specKey := InvalidSpecRule]> errs, Ret out)
          | Some sanitizer =>
              let rawValue := get_property (VObj flatPayload) specKey in
              match sanitize sanitizer rawValue with
              | Throw e => (errs, Throw e)
              | Ret (v, calls) =>
                  (log_errors specKey calls errs,
                   setValueFromKey out specKey v)
              end
          end
      end
  end.

Fixpoint sanitize_keys (rs : gmap string rule) (spec payload flatPayload : obj)
    (specKeys : list string) (errs : gmap string SanitizerError) (out : obj)
  : gmap string SanitizerError * outcome obj :=
  match specKeys with
  | [] => (errs, Ret out)
  | specKey :: rest =>
      match sanitize_key rs spec payload flatPayload specKey errs out with
      | (errs', Ret out') =>
          sanitize_keys rs spec payload flatPayload rest errs' out'
      | (errs', Throw e) => (errs', Throw e)
      end
  end.

(** [sanitizeBySpec(spec, payload)]: the instance after the call, and the
    returned payload or the exception *)
Definition sanitizeBySpec (this : Sanitizer) (spec payload : obj)
  : Sanitizer * outcome obj :=
  match toFlatObject spec with
  | Throw e => (this, Throw e)
  | Ret flatSpec =>
      match toFlatObject payload with
      | Throw e => (this, Throw e)
      | Ret flatPayload =>
          let specKeys := keys flatSpec in
          let payloadKeys := keys flatPayload in
          let errs := extra_fields specKeys payloadKeys (errors this) in
          let '(errs', res) :=
            sanitize_keys (rules this) spec payload flatPayload specKeys
              errs [] in
          ({| rules := rules this; errors := errs' |}, res)
      end
  end.

(** lines 215-224 *)
Definition StandardSanitizer : Sanitizer :=
  new_Sanitizer
    (<["int" := IntegerRule]>
     (<["float" := FloatRule]>
     (<["phone" := PhoneRule]>
     (<["string" := StringRule]>
     (<["int[]" := TypedArrayRule IntegerRule]>
     (<["float[]" := TypedArrayRule FloatRule]>
     (<["phone[]" := TypedArrayRule PhoneRule]>
     (<["string[]" := TypedArrayRule StringRule]> ∅)))))))).

(** ** The words of a regular expression *)

Fixpoint pow (L : list ascii -> Prop) (n : nat) (s : list ascii) : Prop :=
  match n with
  | O => s = []
  | S n' => exists s1 s2, s = s1 ++ s2 /\ L s1 /\ pow L n' s2
  end.

Fixpoint lang (r : regex) (s : list ascii) : Prop :=
  match r with
  | Eps => s = []
  | Cls p => exists c, s = [c] /\ p c = true
  | Seq r1 r2 => exists s1 s2, s = s1 ++ s2 /\ lang r1 s1 /\ lang r2 s2
  | Alt r1 r2 => lang r1 s \/ lang r2 s
  | Opt r1 => lang r1 s \/ s = []
  | Rep r1 lo extra => exists n, lo <= n <= lo + extra /\ pow (lang r1) n s
  | Plus r1 => exists n, 1 <= n /\ pow (lang r1) n s
  end.

(** a matcher finds only splits whose first part is a word of [L] ... *)
Definition sound_matcher (L : list ascii -> Prop)
    (m : list ascii -> (list ascii -> bool) -> bool) : Prop :=
  forall s k, m s k = true ->
    exists s1 s2, s = s1 ++ s2 /\ L s1 /\ k s2 = true.

(** ... and finds every such split *)
Definition complete_matcher (L : list ascii -> Prop)
    (m : list ascii -> (list ascii -> bool) -> bool) : Prop :=
  forall s1 s2 k, L s1 -> k s2 = true -> m (s1 ++ s2) k = true.

(** the digits of a string, in order *)
Definition digits_of (l : list ascii) : list ascii := List.filter is_digit l.

(** the inner rule called its error callback on [item] *)
Definition invokes_logger (inner : rule) (item : value) : Prop :=
  exists w calls, sanitize inner item = Ret (w, calls) /\ calls <> [].

(** [vs] is [array] mapped through the inner rule *)
Definition mapped_by (inner : rule) (array vs : list value) : Prop :=
  length vs = length array
  /\ forall j item, array !! j = Some item ->
       exists w calls, sanitize inner item = Ret (w, calls) /\ vs !! j = Some w.

(** ** Readings of the key-path walk *)

(** every segment names a property that is [in] the value reached so far *)
Fixpoint all_present (a : value) (segs : list string) : bool :=
  match segs with
  | [] => true
  | c :: rest =>
      match has_property c a with
      | Ret true => all_present (get_property a c) rest
      | _ => false
      end
  end.

(** Following the words of the specification: "walking the object
    segment-by-segment resolves to a defined value at every step", where
    "only undefined or an absent property counts as missing". *)
Fixpoint resolves_defined (a : value) (segs : list string) : bool :=
  match segs with
  | [] => true
  | c :: rest =>
      match get_property a c with
      | VUndefined => false
      | v => resolves_defined v rest
      end
  end.

(** ** The inputs of the test suite (src/index.test.js) *)

(** [{foo: {bar: {baz: 'int'}}}] *)
Definition spec_nested : obj :=
  [("foo", VObj [("bar", VObj [("baz", VStr "int")])])].

(** [{foo: {bar: {baz: '123qux'}}}] *)
Definition payload_invalid : obj :=
  [("foo", VObj [("bar", VObj [("baz", VStr "123qux")])])].

(** [{foo: {bar: {baz: '123', qux: 123}}}] *)
Definition payload_extra : obj :=
  [("foo", VObj [("bar", VObj [("baz", VStr "123"); ("qux", VInt 123)])])].

(** ** Paths through nested mappings *)

Fixpoint dot_free (s : string) : bool :=
  match s with
  | EmptyString => true
  | String c s' => negb (Ascii.eqb c ".") && dot_free s'
  end.

(** a key that is one segment of a dotted path: not empty, and no dot *)
Definition wf_segment (c : string) : bool := nonempty c && dot_free c.

(** a value [flat] stores as it is: anything but a plain object or [null] *)
Definition flat_leaf (v : value) : bool :=
  match v with
  | VObj _ | VNull => false
  | _ => true
  end.

(** the value reached from [a] along [segs], through plain objects *)
Fixpoint lookup_path (a : value) (segs : list string) : option value :=
  match segs with
  | [] => Some a
  | c :: rest =>
      match a with
      | VObj o => match assoc c o with
                  | Some v => lookup_path v rest
                  | None => None
                  end
      | _ => None
      end
  end.

Definition leaf_at (a : value) (segs : list string) : option value :=
  match lookup_path a segs with
  | Some v => if flat_leaf v then Some v else None
  | None => None
  end.

(** a nested mapping as JSON gives it: within every plain object the keys
    are pairwise distinct, and each is a segment *)
Fixpoint well_keyed (v : value) : bool :=
  match v with
  | VObj o =>
      bool_decide (NoDup (keys o))
      && forallb wf_segment (keys o)
      && forallb (fun p => well_keyed p.2) o
  | _ => true
  end.

(** [drop_prefix p l] is what follows [p] in [l] *)
Fixpoint drop_prefix (p l : list string) : option (list string) :=
  match p, l with
  | [], _ => Some l
  | c :: p', c' :: l' => if String.eqb c c' then drop_prefix p' l' else None
  | _ :: _, [] => None
  end.

(** storing [v] at the end of [p] in a tree of plain objects *)
Fixpoint insert_path (o : obj) (p : list string) (v : value) : obj :=
  match p with
  | [] => o
  | [c] => assign o c v
  | c :: rest =>
      assign o c
        (VObj (insert_path
                 (match assoc c o with Some (VObj o') => o' | _ => [] end)
                 rest v))
  end.

(** what [flat] adds to [res]: the leaves below [val], each under the
    joined path that leads to it *)
Definition flat_adds (val : value) : Prop :=
  forall res key path res' q,
    well_keyed val = true -> wf_segment key = true ->
    forallb wf_segment path = true ->
    flat res key val (join "." path) = Ret res' ->
    assoc q res'
    = match drop_prefix (path ++ [key]) (split "." q) with
      | Some rest =>
          match leaf_at val rest with
          | Some w => Some w
          | None => assoc q res
          end
      | None => assoc q res
      end.

(** every existing proper prefix of the path [p] leads to a plain object *)
Definition passes_objects (o : obj) (p : list string) : Prop :=
  forall p1 p2 w,
    p = p1 ++ p2 -> p1 <> [] -> p2 <> [] ->
    lookup_path (VObj o) p1 = Some w -> exists o', w = VObj o'.

(** ** The loop of [sanitizeBySpec], key by key *)

(** What the body of the loop does for one key of [flatSpec]; it depends
    on the key, not on what the earlier keys did. *)
Inductive key_outcome :=
| KeyThrows (e : abrupt)
| KeyError (e : SanitizerError)
| KeyValue (v : value) (calls : list report).

Definition key_outcome_of (rs : gmap string rule)
    (spec payload flatPayload : obj) (specKey : string) : key_outcome :=
  match isKeyExist payload specKey with
  | Throw e => KeyThrows e
  | Ret false => KeyError KeyDoesNotExist
  | Ret true =>
      match getValueFromKey spec specKey with
      | Throw e => KeyThrows e
      | Ret ruleName =>
          match rs !! ToString ruleName with
          | None =>
              if object_prototype_name (ToString ruleName)
              then KeyThrows TypeError
              else KeyError InvalidSpecRule
          | Some sanitizer =>
              match sanitize sanitizer
                      (get_property (VObj flatPayload) specKey) with
              | Throw e => KeyThrows e
              | Ret (v, calls) => KeyValue v calls
              end
          end
      end
  end.

(** the keys of a flattened view are distinct, their segments are not
    empty, and the segments of one key are not the beginning of those of
    another *)
Definition path_free (ks : list string) : Prop :=
  NoDup ks
  /\ (forall k, k ∈ ks -> forallb wf_segment (split "." k) = true)
  /\ (forall k1 k2, k1 ∈ ks -> k2 ∈ ks ->
        split "." k1 `prefix_of` split "." k2 -> k1 = k2).

(** the output built from the keys [done]: it holds each sanitized value at
    the end of its path, and nothing off these paths *)
Definition tree_of (oc : string -> key_outcome) (done : list string)
    (out : obj) : Prop :=
  well_keyed (VObj out) = true
  /\ (forall k v calls, k ∈ done -> oc k = KeyValue v calls ->
        lookup_path (VObj out) (split "." k) = Some v)
  /\ (forall p w, p <> [] -> lookup_path (VObj out) p = Some w ->
        exists k v calls, k ∈ done /\ oc k = KeyValue v calls
                          /\ p `prefix_of` split "." k).

(** ** Defaults of the rules *)

(** the default a scalar rule substitutes for an invalid value *)
Definition typed_default (r : rule) : value :=
  match r with
  | IntegerRule | FloatRule => VInt 0
  | StringRule | PhoneRule => VStr ""
  | TypedArrayRule _ => VArr []
  end.

(** ** Readings of the rules *)

(** the target type of a rule: an integral number, a number, a string, a
    string of digits, an array of values of the inner target type *)
Fixpoint well_typed (r : rule) (w : value) : bool :=
  match r with
  | IntegerRule => isInteger w
  | FloatRule => isInteger w || isFloat w
  | StringRule => isString w
  | PhoneRule =>
      match w with
      | VStr s => forallb is_digit (chars s)
      | _ => false
      end
  | TypedArrayRule inner => isTypedArray w (well_typed inner)
  end.

(** a string that [/^\d+$/] accepts: digits, at least one *)
Definition all_digits (s : string) : bool :=
  nonempty s && forallb is_digit (chars s).

(** a string that [/^\d+\.\d+$/] accepts, cut at its dot *)
Definition decimal_parts (s : string) : option (list ascii * list ascii) :=
  let '(a, r) := span_digits (chars s) in
  match a, r with
  | _ :: _, "."%char :: b =>
      if (0 <? length b)%nat && forallb is_digit b then Some (a, b) else None
  | _, _ => None
  end.

(** a value that is neither a plain object nor an array *)
Definition primitive (v : value) : bool :=
  match v with
  | VObj _ | VArr _ => false
  | _ => true
  end.


(** a [null] is reached from [v] through plain objects (arrays are not
    entered) *)
Fixpoint has_null (v : value) : bool :=
  match v with
  | VNull => true
  | VObj o => existsb (fun p => has_null p.2) o
  | _ => false
  end.

(** a number, a string or an array *)
Definition number_string_or_array (w : value) : bool :=
  match w with
  | VNum _ | VStr _ | VArr _ => true
  | _ => false
  end.

(** the values a rule returns unchanged and without a report: an integer
    below 1e21 in magnitude, a number that is not integral, a string, a
    phone number, an array of such values *)
Fixpoint stable (r : rule) (w : value) : bool :=
  match r with
  | IntegerRule =>
      isInteger w
      && match w with
         | VNum n => negb (exponent_notation n)
         | _ => false
         end
  | FloatRule => isFloat w
  | StringRule => isString w
  | PhoneRule => isString w && isPhone w
  | TypedArrayRule inner => isTypedArray w (stable inner)
  end.

(** * Properties *)

(** ** The test suite, evaluated on the model (src/index.test.js) *)

Example test_must_be_float :
  isFloat (VNum (Dec 12323 2)) = true
  /\ isFloat (VStr "1223") = false
  /\ isFloat (VInt 123) = false.
Proof. repeat split; reflexivity. Qed.

Example test_must_be_int :
  isInteger (VInt 123) = true
  /\ isInteger (VNum (Dec 12323 2)) = false
  /\ isInteger (VStr "1223") = false.
Proof. repeat split; reflexivity. Qed.

Example test_must_be_string :
  isString (VStr "12312sad") = true
  /\ isString (VNum (Dec 12323 2)) = false
  /\ isString (VInt 123) = false.
Proof. repeat split; reflexivity. Qed.

Example test_must_be_phone_number :
  isPhone (VStr "8 (800) 555-35-35") = true
  /\ isPhone (VStr "7 (800) 555-35-35") = true
  /\ isPhone (VStr "+7 (800) 555-35-35") = true.
Proof. repeat split; vm_compute; reflexivity. Qed.

Example test_must_be_array :
  isArray (VArr [VInt 1; VInt 2; VInt 3]) = true
  /\ isArray (VStr "123") = false
  /\ isArray VNull = false.
Proof. repeat split; reflexivity. Qed.

Example test_must_be_typed_array :
  isTypedArray (VArr [VInt 1; VInt 2; VInt 3]) isInteger = true
  /\ isTypedArray (VArr [VStr "123"; VInt 1; VNull]) isInteger = false.
Proof. repeat split; reflexivity. Qed.

(** [qux: () => {}] is a function; an array stands for it here: like a
    function it is a truthy object that [in] accepts *)
Example test_keys_are_exist_in_object :
  let testDeepObject :=
    [("foo", VBool true);
     ("bar", VObj [("baz", VObj [("qux", VArr [])])])] in
  isKeysExist testDeepObject ["foo"; "bar"; "bar.baz.qux"] = Ret true
  /\ isKeysExist testDeepObject ["foo"; "bar.qux"; "baz.bar"] = Ret false.
Proof. repeat split; vm_compute; reflexivity. Qed.

Example test_integer_sanitizer :
  sanitize IntegerRule (VInt 123) = Ret (VInt 123, [])
  /\ sanitize IntegerRule (VStr "123") = Ret (VInt 123, [])
  /\ sanitize IntegerRule VNull = Ret (VInt 0, [(InvalidValue, [])]).
Proof. repeat split; vm_compute; reflexivity. Qed.

Example test_float_sanitizer :
  sanitize FloatRule (VNum (Dec 12345 2)) = Ret (VNum (Dec 12345 2), [])
  /\ sanitize FloatRule (VStr "123.45") = Ret (VNum (Dec 12345 2), [])
  /\ sanitize FloatRule VNull = Ret (VInt 0, [(InvalidValue, [])]).
Proof. repeat split; vm_compute; reflexivity. Qed.

Example test_string_sanitizer :
  sanitize StringRule (VStr "123string") = Ret (VStr "123string", [])
  /\ sanitize StringRule VNull = Ret (VStr "", [(InvalidValue, [])]).
Proof. repeat split; reflexivity. Qed.

Example test_typed_array_sanitizer :
  sanitize (TypedArrayRule StringRule) (VArr [VStr "foo"; VStr "bar"])
  = Ret (VArr [VStr "foo"; VStr "bar"], [])
  /\ sanitize (TypedArrayRule StringRule) (VArr [VStr "foo"; VStr "bar"; VNull])
     = Ret (VArr [], [(InvalidStructureValue, [2])]).
Proof. repeat split; reflexivity. Qed.

(** the first call of the test 'Standard sanitizer' *)
Example test_standard_sanitizer :
  let atoms (foo bar baz qux : value) : obj :=
    [("foo", foo); ("bar", bar); ("baz", baz); ("qux", qux)] in
  let spec :=
    atoms (VStr "int") (VStr "float") (VStr "phone") (VStr "string")
    ++ [("_nested",
         VObj (atoms (VStr "int[]") (VStr "float[]") (VStr "phone[]")
                 (VStr "string[]")
               ++ [("_nestedAtoms",
                    VObj (atoms (VStr "int") (VStr "float") (VStr "phone")
                            (VStr "string")))]))] in
  let raw :=
    atoms (VStr "123") (VStr "123.45") (VStr "8 (800) 5553535")
      (VStr "string") in
  let payload :=
    raw
    ++ [("_nested",
         VObj (atoms (VArr [VInt 123; VInt 345; VStr "678"])
                 (VArr [VNum (Dec 12345 2); VStr "56.78"])
                 (VArr [VStr "+7 (914) 700-24-24"; VStr "8 (800) 555-35-35"])
                 (VArr [VStr "foo"; VStr "bar"; VStr "baz"])
               ++ [("_nestedAtoms", VObj raw)]))] in
  let clean :=
    atoms (VInt 123) (VNum (Dec 12345 2)) (VStr "78005553535")
      (VStr "string") in
  let expected :=
    clean
    ++ [("_nested",
         VObj (atoms (VArr [VInt 123; VInt 345; VInt 678])
                 (VArr [VNum (Dec 12345 2); VNum (Dec 5678 2)])
                 (VArr [VStr "79147002424"; VStr "78005553535"])
                 (VArr [VStr "foo"; VStr "bar"; VStr "baz"])
               ++ [("_nestedAtoms", VObj clean)]))] in
  sanitizeBySpec StandardSanitizer spec payload
  = (StandardSanitizer, Ret expected).
Proof. vm_compute. reflexivity. Qed.

Section RegexSound.

Lemma rep_exact_sound L m n :
  sound_matcher L m -> sound_matcher (pow L n) (rep_exact m n).
Proof.
  intros Hm. induction n as [|n IH]; intros s k H; simpl in *.
  - exists [], s. auto.
  - apply Hm in H as (s1 & s2 & -> & H1 & H2).
    apply IH in H2 as (s3 & s4 & -> & H3 & H4).
    exists (s1 ++ s3), s4. rewrite <- app_assoc. repeat split; eauto.
Qed.

Lemma rep_upto_sound L m n :
  sound_matcher L m ->
  sound_matcher (fun s => exists j, j <= n /\ pow L j s) (rep_upto m n).
Proof.
  intros Hm. induction n as [|n IH]; intros s k H; simpl in *.
  - exists [], s. repeat split; auto. exists 0. simpl. auto.
  - apply orb_true_iff in H as [H|H].
    + apply Hm in H as (s1 & s2 & -> & H1 & H2).
      apply IH in H2 as (s3 & s4 & -> & (j & Hj & H3) & H4).
      exists (s1 ++ s3), s4. rewrite <- app_assoc. repeat split; auto.
      exists (S j). split; [lia|]. simpl. eauto.
    + exists [], s. repeat split; auto. exists 0. simpl. split; [lia|auto].
Qed.

Lemma pow_app L i j s1 s2 :
  pow L i s1 -> pow L j s2 -> pow L (i + j) (s1 ++ s2).
Proof.
  revert s1. induction i as [|i IH]; intros s1 H1 H2; simpl in *.
  - subst. auto.
  - destruct H1 as (a & b & -> & Ha & Hb).
    exists a, (b ++ s2). rewrite <- app_assoc. eauto.
Qed.

Lemma rmatch_sound r : sound_matcher (lang r) (rmatch r).
Proof.
  induction r as [|p|r1 IH1 r2 IH2|r1 IH1 r2 IH2|r1 IH1|r1 IH1 lo extra|r1 IH1];
    intros s k H; simpl in *.
  - exists [], s. auto.
  - destruct s as [|c s]; [discriminate|].
    apply andb_true_iff in H as [Hp Hk].
    exists [c], s. repeat split; eauto.
  - apply IH1 in H as (s1 & s2 & -> & H1 & H2).
    apply IH2 in H2 as (s3 & s4 & -> & H3 & H4).
    exists (s1 ++ s3), s4. rewrite <- app_assoc. repeat split; eauto.
  - apply orb_true_iff in H as [H|H].
    + apply IH1 in H as (s1 & s2 & -> & H1 & H2). eauto 10.
    + apply IH2 in H as (s1 & s2 & -> & H1 & H2). eauto 10.
  - apply orb_true_iff in H as [H|H].
    + apply IH1 in H as (s1 & s2 & -> & H1 & H2). eauto 10.
    + exists [], s. auto.
  - apply (rep_exact_sound _ _ lo IH1) in H as (s1 & s2 & -> & H1 & H2).
    apply (rep_upto_sound _ _ extra IH1) in H2
      as (s3 & s4 & -> & (j & Hj & H3) & H4).
    exists (s1 ++ s3), s4. rewrite <- app_assoc. repeat split; auto.
    exists (lo + j). split; [lia|]. by apply pow_app.
  - apply IH1 in H as (s1 & s2 & -> & H1 & H2).
    apply (rep_upto_sound _ _ _ IH1) in H2
      as (s3 & s4 & -> & (j & Hj & H3) & H4).
    exists (s1 ++ s3), s4. rewrite <- app_assoc. repeat split; auto.
    exists (S j). split; [lia|]. simpl. eauto.
Qed.

Lemma test_lang r s : test r s = true -> lang r (chars s).
Proof.
  unfold test. intros H.
  apply rmatch_sound in H as (s1 & s2 & Hs & H1 & H2).
  destruct s2; [|discriminate]. rewrite app_nil_r in Hs. by rewrite Hs.
Qed.
End RegexSound.

Section RegexComplete.

Lemma rep_exact_complete L m n :
  complete_matcher L m -> complete_matcher (pow L n) (rep_exact m n).
Proof.
  intros Hm. induction n as [|n IH]; intros s1 s2 k H Hk; simpl in *.
  - by subst.
  - destruct H as (a & b & -> & Ha & Hb). rewrite <- app_assoc.
    apply Hm; auto.
Qed.

Lemma rep_upto_complete L m n j :
  complete_matcher L m -> j <= n ->
  complete_matcher (pow L j) (rep_upto m n).
Proof.
  intros Hm. revert j. induction n as [|n IH]; intros j Hj s1 s2 k H Hk.
  - assert (j = 0) as -> by lia. simpl in *. by subst.
  - destruct j as [|j]; simpl in *.
    + subst. simpl. rewrite Hk. apply orb_true_r.
    + destruct H as (a & b & -> & Ha & Hb). rewrite <- app_assoc.
      apply orb_true_iff. left. apply Hm; auto.
      apply (IH j); auto. lia.
Qed.

(** empty iterations can be dropped *)
Lemma pow_compress L n s : pow L n s -> exists j, j <= length s /\ pow L j s.
Proof.
  revert s. induction n as [|n IH]; intros s H; simpl in *.
  - subst. exists 0. simpl. auto.
  - destruct H as (a & b & -> & Ha & Hb).
    destruct (IH _ Hb) as (j & Hj & Hp).
    destruct a as [|c a].
    + exists j. simpl. split; assumption.
    + exists (S j). rewrite length_app. simpl. split; [lia|].
      exists (c :: a), b. repeat split; assumption.
Qed.

Lemma rmatch_complete r : complete_matcher (lang r) (rmatch r).
Proof.
  induction r as [|p|r1 IH1 r2 IH2|r1 IH1 r2 IH2|r1 IH1|r1 IH1 lo extra|r1 IH1];
    intros s1 s2 k H Hk; simpl in *.
  - by subst.
  - destruct H as (c & -> & Hp). simpl. by rewrite Hp, Hk.
  - destruct H as (a & b & -> & Ha & Hb). rewrite <- app_assoc.
    apply IH1; auto.
  - apply orb_true_iff. destruct H; [left|right]; auto.
  - apply orb_true_iff. destruct H as [H| ->]; [left|right]; auto.
  - destruct H as (n & Hn & H).
    replace n with (lo + (n - lo)) in H by lia.
    assert (exists a b, s1 = a ++ b /\ pow (lang r1) lo a
                        /\ pow (lang r1) (n - lo) b) as (a & b & -> & Ha & Hb).
    { clear -H. revert s1 H. generalize (n - lo) as j.
      induction lo as [|lo IH]; intros j s1 H; simpl in *.
      - exists [], s1. auto.
      - destruct H as (x & y & -> & Hx & Hy).
        destruct (IH _ _ Hy) as (a & b & -> & Ha & Hb).
        exists (x ++ a), b. rewrite <- app_assoc. eauto 10. }
    rewrite <- app_assoc.
    apply (rep_exact_complete _ _ lo IH1); auto.
    apply (rep_upto_complete _ _ extra (n - lo) IH1); auto. lia.
  - destruct H as (n & Hn & H). destruct n as [|n]; [lia|]. simpl in H.
    destruct H as (a & b & -> & Ha & Hb). rewrite <- app_assoc.
    apply IH1; auto.
    destruct (pow_compress _ _ _ Hb) as (j & Hj & Hp).
    apply (rep_upto_complete _ _ _ j IH1); auto.
    rewrite length_app. lia.
Qed.

Lemma test_iff r s : test r s = true <-> lang r (chars s).
Proof.
  split; [apply test_lang|]. intros H. unfold test.
  rewrite <- (app_nil_r (chars s)). by apply rmatch_complete.
Qed.
End RegexComplete.

Section Phone.
Lemma chars_str l : chars (str l) = l.
Proof. apply list_ascii_of_string_of_list_ascii. Qed.

Lemma str_chars s : str (chars s) = s.
Proof. apply string_of_list_ascii_of_string. Qed.

Lemma length_str l : String.length (str l) = length l.
Proof. induction l; simpl; auto. Qed.


Lemma pow_cls p n w :
  pow (lang (Cls p)) n w -> length w = n /\ forallb p w = true.
Proof.
  revert w. induction n as [|n IH]; intros w H; simpl in *.
  - by subst.
  - destruct H as (a & b & -> & (c & -> & Hc) & Hb).
    destruct (IH _ Hb) as [<- Hall]. simpl. by rewrite Hc, Hall.
Qed.

Lemma digits_of_all l : forallb is_digit l = true -> digits_of l = l.
Proof.
  induction l as [|c l IH]; simpl; auto.
  intros [Hc Hl]%andb_true_iff. rewrite Hc. f_equal. auto.
Qed.

Lemma length_digits_of l : length (digits_of l) <= length l.
Proof. induction l as [|c l IH]; simpl; [lia|]. destruct (is_digit c); simpl; lia. Qed.

Lemma digits_of_are_digits l : forallb is_digit (digits_of l) = true.
Proof.
  induction l as [|c l IH]; simpl; auto.
  destruct (is_digit c) eqn:E; simpl; auto. by rewrite E.
Qed.

Lemma digits_of_opt c p :
  is_digit c = false -> (lang (chr c) p \/ p = []) -> digits_of p = [].
Proof.
  intros Hc [(x & -> & Hx)| ->]; auto.
  apply Ascii.eqb_eq in Hx as <-. simpl. by rewrite Hc.
Qed.

Lemma digits_of_sep p :
  (lang (Cls sep_cls) p \/ p = []) -> digits_of p = [].
Proof.
  intros [(x & -> & Hx)| ->]; auto.
  unfold sep_cls in Hx. apply orb_true_iff in Hx as [Hx|Hx];
    apply Ascii.eqb_eq in Hx as ->; reflexivity.
Qed.

(** A word of the phone grammar is a country code [8], [7] or [+7]
    followed by a rest that holds between 3 and 13 digits. *)
Lemma phone_shape l :
  lang phone_reg l ->
  exists code rest,
    l = code ++ rest
    /\ (code = ["8"%char] \/ code = ["7"%char] \/ code = ["+"%char; "7"%char])
    /\ 3 <= length (digits_of rest) <= 13.
Proof.
  intros (s1 & s2 & -> & (code & b & -> & Hcode & Hb)
          & (u & w & -> & (p & q & -> & Hp & (d & e & -> & (n & Hn & Hd)
               & (f & g & -> & Hf & Hg))) & (t & Ht & Hw))).
  exists code, (b ++ ((p ++ d ++ f ++ g) ++ w)).
  split; [by rewrite <- app_assoc|]. split.
  - destruct Hcode as [(c & -> & Hc)|[(c & -> & Hc)|(x & y & -> & (c1 & -> & H1) & (c2 & -> & H2))]].
    + apply Ascii.eqb_eq in Hc as <-. auto.
    + apply Ascii.eqb_eq in Hc as <-. auto.
    + apply Ascii.eqb_eq in H1 as <-. apply Ascii.eqb_eq in H2 as <-. auto.
  - unfold digits_of in *. rewrite !List.filter_app.
    fold (digits_of b) (digits_of p) (digits_of d) (digits_of f)
         (digits_of g) (digits_of w).
    rewrite (digits_of_sep b Hb), (digits_of_opt "(" p eq_refl Hp),
      (digits_of_opt ")" f eq_refl Hf), (digits_of_sep g Hg).
    apply pow_cls in Hd as [Hlen Hall]. rewrite (digits_of_all d Hall).
    apply pow_cls in Hw as [Hlw _].
    pose proof (length_digits_of w). simpl. rewrite !length_app. simpl. lia.
Qed.

Lemma isPhone_shape s :
  isPhone (VStr s) = true ->
  exists code rest,
    chars s = code ++ rest
    /\ (code = ["8"%char] \/ code = ["7"%char] \/ code = ["+"%char; "7"%char])
    /\ 3 <= length (digits_of rest) <= 13.
Proof. intros H. apply phone_shape, test_lang, H. Qed.

Lemma chars_inj s1 s2 : chars s1 = chars s2 -> s1 = s2.
Proof. intros H. by rewrite <- (str_chars s1), <- (str_chars s2), H. Qed.

(** the normal form of a phone number: [7], then the digits of the rest *)
Lemma normalize_phone s :
  isPhone (VStr s) = true ->
  exists rest,
    strip_non_digits (replace_leading_8 s) = String "7" (str rest)
    /\ forallb is_digit rest = true
    /\ 3 <= length rest <= 13
    /\ length (digits_of (chars s)) = S (length rest).
Proof.
  intros (code & rest & Hs & Hcode & Hlen)%isPhone_shape.
  exists (digits_of rest). split; [|split; [apply digits_of_are_digits|split; [done|]]].
  - unfold strip_non_digits.
    destruct Hcode as [-> | [-> | ->]]; destruct s as [|c0 s]; try discriminate;
      simpl in Hs; injection Hs as -> Hs; simpl.
    + by rewrite Hs.
    + by rewrite Hs.
    + destruct s as [|c1 s]; [discriminate|]. simpl in Hs.
      injection Hs as -> Hs. simpl. by rewrite Hs.
  - rewrite Hs. unfold digits_of. rewrite List.filter_app.
    rewrite length_app. destruct Hcode as [-> | [-> | ->]]; reflexivity.
Qed.
End Phone.

Section Rules.

(** every rule calls its logger at most once per [sanitize] *)
Lemma sanitize_logs_once r v w calls :
  sanitize r v = Ret (w, calls) -> length calls <= 1.
Proof.
  destruct r; simpl.
  - destruct (_ && _); intros [= <- <-]; simpl; lia.
  - destruct (_ && _); intros [= <- <-]; simpl; lia.
  - destruct (negb _); intros [= <- <-]; simpl; lia.
  - destruct (negb _); [intros [= <- <-]; simpl; lia|].
    destruct v; try discriminate. intros [= <- <-]. simpl. lia.
  - destruct v; try (intros [= <- <-]; simpl; lia).
    destruct (map_items _ _ _) as [[array idxs]|]; simpl; [|discriminate].
    destruct idxs; intros [= <- <-]; simpl; lia.
Qed.

(** the scalar rules other than [PhoneRule] return on every value *)
Lemma sanitize_scalar_returns r v :
  r = IntegerRule \/ r = FloatRule \/ r = StringRule ->
  exists w calls, sanitize r v = Ret (w, calls).
Proof.
  intros [-> | [-> | ->]]; simpl.
  - destruct (_ && _); eauto.
  - destruct (_ && _); eauto.
  - destruct (negb _); eauto.
Qed.

(** an invalid value makes a scalar rule report [InvalidValue] and return
    its typed default *)
Lemma sanitize_invalid_default r v w c calls :
  r = IntegerRule \/ r = FloatRule \/ r = StringRule \/ r = PhoneRule ->
  sanitize r v = Ret (w, c :: calls) ->
  c = (InvalidValue, []) /\ calls = []
  /\ w = match r with
         | IntegerRule | FloatRule => VInt 0
         | _ => VStr ""
         end.
Proof.
  intros [-> | [-> | [-> | ->]]]; simpl.
  - destruct (_ && _); intros [= <- <- <-]; auto.
  - destruct (_ && _); intros [= <- <- <-]; auto.
  - destruct (negb _); intros [= <- <- <-]; auto.
  - destruct (negb _); [intros [= <- <- <-]; auto|].
    destruct v; discriminate.
Qed.

(** the index list built by [map_items]: for each position in turn, as many
    copies of its index as calls of the callback *)
Lemma map_items_indexes f items index vs idxs :
  (forall item w calls, f item = Ret (w, calls) -> length calls <= 1) ->
  map_items f items index = Ret (vs, idxs) ->
  StronglySorted lt idxs
  /\ (forall i, i ∈ idxs ->
        index <= i
        /\ exists item w c, items !! (i - index) = Some item
                            /\ f item = Ret (w, [c]))
  /\ (forall j item w c, items !! j = Some item -> f item = Ret (w, [c]) ->
        (index + j) ∈ idxs)
  /\ length vs = length items
  /\ (forall j item, items !! j = Some item ->
        exists w calls, f item = Ret (w, calls) /\ vs !! j = Some w).
Proof.
  intros Hone. revert index vs idxs.
  induction items as [|item rest IH]; intros index vs idxs; simpl.
  - intros [= <- <-]. split_and!; [constructor | | | done | ].
    + intros i Hi. by apply elem_of_nil in Hi.
    + intros j ? ? ? Hj. by rewrite lookup_nil in Hj.
    + intros j ? Hj. by rewrite lookup_nil in Hj.
  - destruct (f item) as [[w calls]|] eqn:Hf; simpl; [|discriminate].
    destruct (map_items f rest (S index)) as [[vs' idxs']|] eqn:Hm;
      simpl; [|discriminate].
    intros [= <- <-].
    destruct (IH _ _ _ Hm) as (Hs & Hin & Hall & Hlen & Hvs).
    pose proof (Hone _ _ _ Hf) as Hlen1.
    assert (Hcalls : calls = [] \/ exists c, calls = [c]).
    { destruct calls as [|c [|]]; simpl in *; eauto; lia. }
    split_and!.
    + destruct Hcalls as [-> | [c ->]]; simpl; auto.
      constructor; auto. apply List.Forall_forall. intros i Hi.
      apply list_elem_of_In, Hin in Hi. lia.
    + intros i Hi.
      assert (Hcase : (i = index /\ exists c, calls = [c]) \/ i ∈ idxs').
      { destruct Hcalls as [-> | [c ->]]; simpl in Hi; auto.
        apply elem_of_cons in Hi as [-> | Hi]; eauto. }
      destruct Hcase as [[-> [c ->]] | Hi'].
      * split; [lia|]. exists item, w, c. by rewrite Nat.sub_diag.
      * apply Hin in Hi' as (Hle & item' & w' & c' & Hl & Hf').
        split; [lia|]. exists item', w', c'. split; auto.
        replace (i - index) with (S (i - S index)) by lia. done.
    + intros j item' w' c' Hj Hf'. destruct j as [|j]; simpl in Hj.
      * injection Hj as <-. rewrite Hf in Hf'. injection Hf' as <- ->.
        rewrite Nat.add_0_r. simpl. apply elem_of_cons. auto.
      * apply elem_of_app. right.
        replace (index + S j) with (S index + j) by lia. eauto.
    + simpl. by rewrite Hlen.
    + intros j item' Hj. destruct j as [|j]; simpl in Hj.
      * injection Hj as <-. exists w, calls. auto.
      * simpl. eauto.
Qed.

(** [map_items] returns as soon as the callback returns on every item *)
Lemma map_items_returns f items index :
  Forall (fun item => exists r, f item = Ret r) items ->
  exists r, map_items f items index = Ret r.
Proof.
  revert index. induction items as [|item rest IH]; intros index H; simpl.
  - eauto.
  - inversion H as [|? ? [[w calls] Hf] Hrest]; subst. rewrite Hf. simpl.
    destruct (IH (S index) Hrest) as [[vs idxs] ->]. simpl. eauto.
Qed.

End Rules.

Section TypedArray.

Lemma map_items_throws f items index e :
  map_items f items index = Throw e ->
  exists item, item ∈ items /\ f item = Throw e.
Proof.
  revert index. induction items as [|item rest IH]; intros index; simpl.
  - discriminate.
  - destruct (f item) as [[w calls]|e'] eqn:Hf; simpl.
    + destruct (map_items f rest (S index)) as [[vs idxs]|e'] eqn:Hm; simpl.
      * discriminate.
      * intros [= ->]. destruct (IH _ Hm) as (x & Hx & Hfx).
        exists x. split; [apply elem_of_cons; by right|done].
    + intros [= ->]. exists item. split; [apply elem_of_cons; by left|done].
Qed.

Lemma StronglySorted_lt_NoDup (l : list nat) : StronglySorted lt l -> NoDup l.
Proof.
  induction 1 as [|x l Hs IH Hall]; constructor; auto.
  intros Hx. rewrite List.Forall_forall in Hall.
  apply list_elem_of_In, Hall in Hx. lia.
Qed.

(** what [TypedArrayRule.sanitize] does on an array, in terms of
    [map_items] *)
Lemma TypedArrayRule_cases inner array :
  match sanitize (TypedArrayRule inner) (VArr array) with
  | Ret (v, calls) =>
      exists vs idxs,
        map_items (sanitize inner) array 0 = Ret (vs, idxs)
        /\ ((idxs = [] /\ v = VArr vs /\ calls = [])
            \/ (idxs <> [] /\ v = VArr []
                /\ calls = [(InvalidStructureValue, idxs)]))
  | Throw e => exists item, item ∈ array /\ sanitize inner item = Throw e
  end.
Proof.
  simpl. destruct (map_items (sanitize inner) array 0) as [[vs idxs]|e] eqn:Hm;
    simpl.
  - destruct idxs as [|i idxs]; exists vs; eexists; (split; [reflexivity|]);
      [left; done | right; done].
  - by apply map_items_throws in Hm.
Qed.

Lemma map_items_invokes inner array vs idxs :
  map_items (sanitize inner) array 0 = Ret (vs, idxs) ->
  StronglySorted lt idxs /\ NoDup idxs
  /\ (forall i, i ∈ idxs <->
        exists item, array !! i = Some item /\ invokes_logger inner item)
  /\ mapped_by inner array vs.
Proof.
  intros Hm.
  destruct (map_items_indexes _ _ _ _ _ (sanitize_logs_once inner) Hm)
    as (Hs & Hin & Hall & Hlen & Hvs).
  split_and!; auto using StronglySorted_lt_NoDup.
  - intros i. split.
    + intros (_ & item & w & c & Hi & Hf)%Hin. rewrite Nat.sub_0_r in Hi.
      exists item. split; auto. exists w, [c]. split; [done|discriminate].
    + intros (item & Hi & w & calls & Hf & Hne).
      pose proof (sanitize_logs_once _ _ _ _ Hf) as Hl.
      destruct calls as [|c [|]]; simpl in Hl; try lia; try done.
      apply (Hall i item w c Hi Hf).
  - split; auto.
Qed.

End TypedArray.

Section KeyExist.

Lemma split_not_nil sep s : split sep s <> [].
Proof.
  destruct s as [|c s]; simpl; [discriminate|].
  destruct (Ascii.eqb c sep); [discriminate|].
  destruct (split sep s); discriminate.
Qed.

Lemma truthy_not_false v : truthy v = true -> is_not_false v = true.
Proof. by destruct v as [| |[]| | | |]. Qed.

(** the walk of [isKeyExist], when it does not throw *)
Lemma reduce_exist_step segs a r :
  segs <> [] ->
  reduce exist_step segs a = Ret r ->
  is_not_false r = all_present a segs.
Proof.
  revert a. induction segs as [|c segs IH]; intros a Hne; [done|].
  simpl. unfold exist_step at 1.
  destruct (has_property c a) as [b|] eqn:Hb; simpl; [|discriminate].
  destruct segs as [|c' segs].
  - simpl. intros [= <-]. destruct b; [|done].
    destruct (truthy (get_property a c)) eqn:Ht; [|done].
    by apply truthy_not_false.
  - destruct b.
    + destruct (truthy (get_property a c)) eqn:Ht.
      * apply IH. discriminate.
      * simpl. discriminate.
    + simpl. discriminate.
Qed.

End KeyExist.

Section Errors.

Implicit Types errs : gmap string SanitizerError.

Lemma includes_true l k : includes l k = true <-> k ∈ l.
Proof.
  unfold includes. rewrite existsb_exists. split.
  - intros (x & Hx%list_elem_of_In & ->%String.eqb_eq). done.
  - intros H. exists k. split; [by apply list_elem_of_In|apply String.eqb_refl].
Qed.

Lemma extra_path_cons (specKeys ps : list string) p k :
  (k ∈ p :: ps /\ k ∉ specKeys)
  <-> (k = p /\ p ∉ specKeys) \/ (k ∈ ps /\ k ∉ specKeys).
Proof. rewrite elem_of_cons. split; [intros [[-> | ?] ?]|intros [[-> ?] | [? ?]]]; auto. Qed.

Lemma extra_pass_lookup specKeys payloadKeys errs k :
  fold_left
    (fun e payloadKey =>
       if negb (includes specKeys payloadKey)
       then <[payloadKey := ExtraField]> e else e) payloadKeys errs !! k
  = if bool_decide (k ∈ payloadKeys /\ k ∉ specKeys)
    then Some ExtraField else errs !! k.
Proof.
  revert errs. induction payloadKeys as [|p ps IH]; intros errs;
    cbn [fold_left].
  - case_bool_decide as H; [|done]. destruct H as [H _].
    by apply elem_of_nil in H.
  - rewrite IH. clear IH.
    destruct (includes specKeys p) eqn:Hinc; cbn [negb].
    + apply includes_true in Hinc.
      rewrite (bool_decide_ext _ _ (extra_path_cons specKeys ps p k)).
      apply (f_equal (fun b : bool => if b then _ else _)).
      apply bool_decide_ext. split; [auto|intros [[-> ?] | ?]; done].
    + assert (p ∉ specKeys) as Hnin.
      { intros H%includes_true. congruence. }
      rewrite (bool_decide_ext _ _ (extra_path_cons specKeys ps p k)).
      destruct (decide (k = p)) as [-> | Hne].
      * rewrite lookup_insert_eq.
        rewrite (bool_decide_eq_true_2 (_ \/ _)) by (left; done).
        by destruct (bool_decide _).
      * rewrite lookup_insert_ne by done.
        apply (f_equal (fun b : bool => if b then _ else _)).
        apply bool_decide_ext. split; [auto|intros [[-> ?] | ?]; done].
Qed.

Lemma log_errors_other specKey calls errs k :
  k <> specKey -> log_errors specKey calls errs !! k = errs !! k.
Proof.
  intros Hne. unfold log_errors. revert errs.
  induction calls as [|c calls IH]; intros errs; simpl; [done|].
  rewrite IH. by rewrite lookup_insert_ne.
Qed.

(** the loop body stores errors under its own key only *)
Lemma sanitize_key_other rs spec payload fp specKey errs out k :
  k <> specKey ->
  (sanitize_key rs spec payload fp specKey errs out).1 !! k = errs !! k.
Proof.
  intros Hne. unfold sanitize_key.
  destruct (isKeyExist payload specKey) as [[]|]; simpl; try done.
  - destruct (getValueFromKey spec specKey) as [ruleName|]; simpl; try done.
    destruct (rs !! ToString ruleName) as [r|]; simpl.
    + destruct (sanitize r _) as [[v calls]|]; simpl; try done.
      by apply log_errors_other.
    + destruct (object_prototype_name _); simpl; [done|].
      by rewrite lookup_insert_ne.
  - by rewrite lookup_insert_ne.
Qed.

Lemma sanitize_keys_other rs spec payload fp specKeys errs out k :
  k ∉ specKeys ->
  (sanitize_keys rs spec payload fp specKeys errs out).1 !! k = errs !! k.
Proof.
  revert errs out. induction specKeys as [|specKey rest IH];
    intros errs out Hk; simpl; [done|].
  apply not_elem_of_cons in Hk as [Hne Hk].
  pose proof (sanitize_key_other rs spec payload fp specKey errs out k Hne) as H1.
  destruct (sanitize_key rs spec payload fp specKey errs out) as [errs' [out'|e]];
    simpl in *; [|done].
  by rewrite IH.
Qed.

End Errors.

Section DottedKeys.

Lemma join_cons_char sep c w ws :
  join sep (String c w :: ws) = String c (join sep (w :: ws)).
Proof. by destruct ws. Qed.

Lemma join_split s : join "." (split "." s) = s.
Proof.
  induction s as [|c s IH]; [done|]. simpl.
  destruct (Ascii.eqb c ".") eqn:Hc.
  - apply Ascii.eqb_eq in Hc as ->.
    pose proof (split_not_nil "." s) as Hne.
    destruct (split "." s) as [|w ws] eqn:Hs; [done|].
    change (join "." ("" :: w :: ws)) with ("" +:+ "." +:+ join "." (w :: ws)).
    by rewrite IH.
  - pose proof (split_not_nil "." s) as Hne.
    destruct (split "." s) as [|w ws] eqn:Hs; [done|].
    by rewrite join_cons_char, IH.
Qed.

Lemma split_dot_free w : dot_free w = true -> split "." w = [w].
Proof.
  induction w as [|c w IH]; [done|]. simpl.
  intros [Hc Hw]%andb_true_iff. apply negb_true_iff in Hc. rewrite Hc.
  by rewrite IH.
Qed.

Lemma split_app_dot w t :
  dot_free w = true -> split "." (w +:+ String "." t) = w :: split "." t.
Proof.
  induction w as [|c w IH]; [done|]. simpl.
  intros [Hc Hw]%andb_true_iff. apply negb_true_iff in Hc. rewrite Hc.
  by rewrite IH.
Qed.

Lemma split_join segs :
  segs <> [] -> forallb dot_free segs = true ->
  split "." (join "." segs) = segs.
Proof.
  induction segs as [|w ws IH]; [done|]. intros _.
  simpl. intros [Hw Hws]%andb_true_iff.
  destruct ws as [|w' ws]; [by apply split_dot_free|].
  change (join "." (w :: w' :: ws)) with (w +:+ "." +:+ join "." (w' :: ws)).
  change ("." +:+ join "." (w' :: ws)) with (String "." (join "." (w' :: ws))).
  rewrite split_app_dot by done. f_equal. by apply IH.
Qed.

Lemma split_segments_dot_free s : forallb dot_free (split "." s) = true.
Proof.
  induction s as [|c s IH]; [done|]. simpl.
  destruct (Ascii.eqb c ".") eqn:Hc; [done|].
  destruct (split "." s) as [|w ws]; simpl in *; rewrite ?Hc; [done|].
  apply andb_true_iff in IH as [-> ->]. done.
Qed.

(** two keys with the same segments are the same key *)
Lemma split_inj k1 k2 : split "." k1 = split "." k2 -> k1 = k2.
Proof. intros H. by rewrite <- (join_split k1), <- (join_split k2), H. Qed.

Lemma wf_segment_dot_free segs :
  forallb wf_segment segs = true -> forallb dot_free segs = true.
Proof.
  induction segs as [|c segs IH]; [done|]. simpl.
  intros [[_ Hc]%andb_true_iff Hs]%andb_true_iff. by rewrite Hc, IH.
Qed.

Lemma nonempty_append s t : nonempty s = true -> nonempty (s +:+ t) = true.
Proof. by destruct s. Qed.

Lemma join_nonempty segs :
  segs <> [] -> forallb wf_segment segs = true ->
  nonempty (join "." segs) = true.
Proof.
  destruct segs as [|w ws]; [done|]. intros _. simpl.
  intros [[Hw _]%andb_true_iff _]%andb_true_iff.
  destruct ws; [done|]. by apply nonempty_append.
Qed.

Lemma append_assoc (a b c : string) : (a +:+ b) +:+ c = a +:+ (b +:+ c).
Proof.
  induction a as [|x a IH]; [done|].
  change (String x ((a +:+ b) +:+ c) = String x (a +:+ (b +:+ c))).
  by f_equal.
Qed.

Lemma join_snoc path key :
  path <> [] ->
  join "." (path ++ [key]) = join "." path +:+ "." +:+ key.
Proof.
  induction path as [|w ws IH]; [done|]. intros _.
  destruct ws as [|w' ws]; [done|].
  change (join "." ((w :: w' :: ws) ++ [key]))
    with (w +:+ "." +:+ join "." ((w' :: ws) ++ [key])).
  rewrite IH by done.
  change (join "." (w :: w' :: ws)) with (w +:+ "." +:+ join "." (w' :: ws)).
  by rewrite !append_assoc.
Qed.

(** the prefix computed by [flat] is the joined path *)
Lemma make_prefix_join path key :
  forallb wf_segment path = true -> wf_segment key = true ->
  make_prefix (join "." path) key = join "." (path ++ [key]).
Proof.
  intros Hpath [Hkey _]%andb_true_iff. unfold make_prefix.
  destruct path as [|w ws].
  - simpl. by rewrite Hkey.
  - rewrite join_snoc by done.
    cbn [List.filter]. rewrite (join_nonempty (w :: ws)) by done.
    rewrite Hkey. done.
Qed.

End DottedKeys.

Section Objects.

Context {A : Type}.
Implicit Types (o : list (string * A)) (k : string) (v : A).

Lemma assoc_assign o k v q :
  assoc q (assign o k v) = if String.eqb q k then Some v else assoc q o.
Proof.
  induction o as [|[k' v'] o IH]; simpl.
  - by destruct (String.eqb q k).
  - destruct (String.eqb k k') eqn:Hk; simpl.
    + apply String.eqb_eq in Hk as ->. by destruct (String.eqb q k').
    + rewrite IH. destruct (String.eqb q k') eqn:Hq; [|done].
      apply String.eqb_eq in Hq as ->. by rewrite String.eqb_sym, Hk.
Qed.

Lemma assoc_assign_eq o k v : assoc k (assign o k v) = Some v.
Proof. by rewrite assoc_assign, String.eqb_refl. Qed.

Lemma assoc_assign_ne o k v q : q <> k -> assoc q (assign o k v) = assoc q o.
Proof. intros H%String.eqb_neq. by rewrite assoc_assign, H. Qed.

Lemma assoc_None o k : assoc k o = None <-> k ∉ keys o.
Proof.
  induction o as [|[k' v'] o IH]; simpl.
  - split; [intros _; apply not_elem_of_nil|done].
  - rewrite not_elem_of_cons. destruct (String.eqb k k') eqn:Hk.
    + apply String.eqb_eq in Hk. split; [done|]. intros [? _]. done.
    + apply String.eqb_neq in Hk. rewrite IH. tauto.
Qed.

Lemma assoc_Some_keys o k v : assoc k o = Some v -> k ∈ keys o.
Proof.
  intros H. destruct (decide (k ∈ keys o)) as [|Hn]; [done|].
  apply assoc_None in Hn. congruence.
Qed.

Lemma keys_assoc o k : k ∈ keys o -> exists v, assoc k o = Some v.
Proof.
  intros H. destruct (assoc k o) as [v|] eqn:E; [eauto|].
  by apply assoc_None in E.
Qed.

Lemma keys_assign o k v :
  keys (assign o k v)
  = match assoc k o with Some _ => keys o | None => keys o ++ [k] end.
Proof.
  induction o as [|[k' v'] o IH]; simpl; [done|].
  destruct (String.eqb k k') eqn:Hk; simpl; [done|].
  rewrite IH. by destruct (assoc k o).
Qed.

Lemma keys_assign_NoDup o k v : NoDup (keys o) -> NoDup (keys (assign o k v)).
Proof.
  intros H. rewrite keys_assign. destruct (assoc k o) eqn:E; [done|].
  apply assoc_None in E. apply NoDup_app. split_and!; [done| |apply NoDup_singleton].
  intros x Hx ->%list_elem_of_singleton. done.
Qed.

Lemma keys_assign_elem o k v q :
  q ∈ keys (assign o k v) <-> q = k \/ q ∈ keys o.
Proof.
  rewrite keys_assign. destruct (assoc k o) eqn:E.
  - apply assoc_Some_keys in E. split; [auto|]. by intros [-> | ?].
  - rewrite elem_of_app, list_elem_of_singleton. tauto.
Qed.

Lemma assign_assign o k v v' : assign (assign o k v) k v' = assign o k v'.
Proof.
  induction o as [|[k' w] o IH]; simpl.
  - by rewrite String.eqb_refl.
  - destruct (String.eqb k k') eqn:Hk; simpl; rewrite Hk; [done|].
    by rewrite IH.
Qed.

(** in an object with distinct keys, a listed property is the one found *)
Lemma assoc_here o k v o' :
  NoDup (keys (o ++ (k, v) :: o')) -> assoc k (o ++ (k, v) :: o') = Some v.
Proof.
  induction o as [|[k' w] o IH]; simpl.
  - by rewrite String.eqb_refl.
  - intros [Hk' Hnd]%NoDup_cons. destruct (String.eqb k k') eqn:Hk.
    + apply String.eqb_eq in Hk as ->. exfalso. apply Hk'.
      unfold keys. rewrite map_app. apply elem_of_app. right. simpl.
      apply elem_of_cons. by left.
    + by apply IH.
Qed.

End Objects.

Section ValueInduction.

(** induction on values, with the hypotheses on the elements of an array
    and on the properties of an object *)
Lemma value_nested_ind (P : value -> Prop) :
  P VUndefined -> P VNull -> (forall b, P (VBool b)) ->
  (forall n, P (VNum n)) -> (forall s, P (VStr s)) ->
  (forall l, Forall P l -> P (VArr l)) ->
  (forall o, Forall (fun p => P p.2) o -> P (VObj o)) ->
  forall v, P v.
Proof.
  intros Hu Hn Hb Hnum Hs Ha Ho.
  fix IH 1. intros [| |b|n|s|l|o].
  - exact Hu.
  - exact Hn.
  - apply Hb.
  - apply Hnum.
  - apply Hs.
  - apply Ha. induction l as [|x l IHl]; constructor; [apply IH|exact IHl].
  - apply Ho. induction o as [|[k x] o IHo]; constructor;
      [simpl; apply IH|exact IHo].
Qed.

End ValueInduction.

Section DropPrefix.

Lemma drop_prefix_Some p l r : drop_prefix p l = Some r <-> l = p ++ r.
Proof.
  revert l. induction p as [|c p IH]; intros l; simpl.
  - split; [by intros [= ->]|by intros ->].
  - destruct l as [|c' l]; [done|].
    destruct (String.eqb c c') eqn:Hc.
    + apply String.eqb_eq in Hc as ->. rewrite IH.
      split; [by intros ->|by intros [= ->]].
    + apply String.eqb_neq in Hc. split; [done|]. intros [= Hcc _]. congruence.
Qed.

Lemma drop_prefix_snoc p c l :
  drop_prefix (p ++ [c]) l
  = match drop_prefix p l with
    | Some (c' :: rest) => if String.eqb c' c then Some rest else None
    | _ => None
    end.
Proof.
  revert l. induction p as [|x p IH]; intros l; simpl.
  - destruct l as [|c' l]; [done|]. by rewrite String.eqb_sym.
  - destruct l as [|c' l]; [done|]. by destruct (String.eqb x c').
Qed.

End DropPrefix.

Section Flatten.

Lemma well_keyed_obj o :
  well_keyed (VObj o) = true <->
  NoDup (keys o) /\ forallb wf_segment (keys o) = true
  /\ forallb (fun p => well_keyed p.2) o = true.
Proof.
  cbn [well_keyed]. rewrite !andb_true_iff, bool_decide_eq_true. tauto.
Qed.

(** the loop of [flat] over the properties of an object is [flat_props] *)
Lemma flat_obj res key o pre :
  flat res key (VObj o) pre = flat_props o res (make_prefix pre key).
Proof.
  cbn [flat]. generalize (make_prefix pre key) as prefix. intros prefix.
  revert res. induction o as [|[curr v] o IH]; intros res; [done|].
  cbn [flat_props]. destruct (flat res curr v prefix); simpl; [apply IH|done].
Qed.

Lemma flat_leaf_assign res key val pre :
  flat_leaf val = true ->
  flat res key val pre = Ret (assign res (make_prefix pre key) val).
Proof. by destruct val. Qed.

Lemma lookup_path_leaf val c rest :
  flat_leaf val = true -> lookup_path val (c :: rest) = None.
Proof. by destruct val. Qed.

Lemma key_is_path q path :
  path <> [] -> forallb wf_segment path = true ->
  String.eqb q (join "." path)
  = match drop_prefix path (split "." q) with
    | Some [] => true
    | _ => false
    end.
Proof.
  intros Hne Hwf.
  destruct (drop_prefix path (split "." q)) as [rest|] eqn:Hd.
  - apply drop_prefix_Some in Hd. destruct rest as [|c rest].
    + rewrite app_nil_r in Hd. apply String.eqb_eq.
      by rewrite <- (join_split q), Hd.
    + apply String.eqb_neq. intros ->.
      rewrite split_join in Hd by auto using wf_segment_dot_free.
      apply (f_equal length) in Hd. rewrite length_app in Hd. simpl in Hd. lia.
  - apply String.eqb_neq. intros ->.
    rewrite split_join in Hd by auto using wf_segment_dot_free.
    assert (drop_prefix path path = Some []) as Hp
      by (apply drop_prefix_Some; by rewrite app_nil_r).
    congruence.
Qed.

Lemma flat_adds_leaf val : flat_leaf val = true -> flat_adds val.
Proof.
  intros Hleaf res key path res' q _ Hkey Hpath.
  rewrite flat_leaf_assign by done. intros [= <-].
  rewrite make_prefix_join by done. rewrite assoc_assign.
  rewrite key_is_path; [|by destruct path|].
  - destruct (drop_prefix _ _) as [[|c rest]|]; try done.
    + unfold leaf_at. simpl. by rewrite Hleaf.
    + unfold leaf_at. by rewrite lookup_path_leaf.
  - rewrite forallb_app. simpl. by rewrite Hpath, Hkey.
Qed.

Lemma flat_props_adds ps :
  Forall (fun p => flat_adds p.2) ps ->
  forall res path res' q,
    NoDup (keys ps) -> forallb wf_segment (keys ps) = true ->
    forallb (fun p => well_keyed p.2) ps = true ->
    forallb wf_segment path = true ->
    flat_props ps res (join "." path) = Ret res' ->
    assoc q res'
    = match drop_prefix path (split "." q) with
      | Some (c :: rest) =>
          match assoc c ps with
          | Some child =>
              match leaf_at child rest with
              | Some w => Some w
              | None => assoc q res
              end
          | None => assoc q res
          end
      | _ => assoc q res
      end.
Proof.
  induction 1 as [|[curr v] ps Hv Hps IH]; intros res path res' q Hnd Hk Hwk Hpath.
  - simpl. intros [= <-]. by destruct (drop_prefix _ _) as [[|]|].
  - cbn [flat_props].
    destruct (flat res curr v (join "." path)) as [r1|] eqn:Hf; simpl; [|done].
    intros Hrest. simpl in Hnd, Hk, Hwk.
    apply NoDup_cons in Hnd as [Hcurr Hnd].
    apply andb_true_iff in Hk as [Hcw Hk].
    apply andb_true_iff in Hwk as [Hvw Hwk].
    rewrite (IH r1 path res' q Hnd Hk Hwk Hpath Hrest).
    simpl in Hv. rewrite (Hv res curr path r1 q Hvw Hcw Hpath Hf).
    rewrite drop_prefix_snoc.
    destruct (drop_prefix path (split "." q)) as [[|c rest]|]; try done.
    cbn [assoc]. destruct (String.eqb c curr) eqn:Hc.
    + apply String.eqb_eq in Hc as ->.
      apply assoc_None in Hcurr. rewrite Hcurr. done.
    + done.
Qed.

Lemma flat_adds_all val : flat_adds val.
Proof.
  induction val as [| | | | | |o IH] using value_nested_ind;
    try (by apply flat_adds_leaf).
  - intros res key path res' q _ _ _. discriminate.
  - intros res key path res' q Hwk Hkey Hpath.
    rewrite flat_obj, make_prefix_join by done.
    apply well_keyed_obj in Hwk as (Hnd & Hk & Hwk). intros Hf.
    rewrite (flat_props_adds o IH res (path ++ [key]) res' q Hnd Hk Hwk);
      [|by rewrite forallb_app; simpl; rewrite Hpath, Hkey|done].
    destruct (drop_prefix _ _) as [[|c rest]|]; try done.
    unfold leaf_at. cbn [lookup_path]. destruct (assoc c o) as [child|]; done.
Qed.

(** the flattened view of a well-keyed mapping: under each key, the leaf
    reached along its segments *)
Lemma toFlatObject_assoc object flatObject q :
  well_keyed (VObj object) = true ->
  toFlatObject object = Ret flatObject ->
  assoc q flatObject = leaf_at (VObj object) (split "." q).
Proof.
  intros (Hnd & Hk & Hwk)%well_keyed_obj Hf. unfold toFlatObject in Hf.
  assert (Hall : Forall (fun p => flat_adds p.2) object).
  { apply List.Forall_forall. intros p _. apply flat_adds_all. }
  rewrite (flat_props_adds object Hall [] [] flatObject q Hnd Hk Hwk eq_refl Hf).
  cbn [drop_prefix]. pose proof (split_not_nil "." q) as Hne.
  destruct (split "." q) as [|c rest]; [done|].
  unfold leaf_at. cbn [lookup_path assoc].
  destruct (assoc c object) as [child|]; [|done].
  by destruct (lookup_path child rest) as [w|]; [destruct (flat_leaf w)|].
Qed.

(** paths are unique within one flattened view *)
Lemma flat_keys_NoDup val :
  forall res key pre res',
    NoDup (keys res) -> flat res key val pre = Ret res' -> NoDup (keys res').
Proof.
  induction val as [| | | | | |o IH] using value_nested_ind;
    intros res key pre res' Hnd;
    try (rewrite flat_leaf_assign by done; intros [= <-];
         by apply keys_assign_NoDup).
  - discriminate.
  - rewrite flat_obj. generalize (make_prefix pre key) as prefix.
    intros prefix. revert res Hnd.
    induction IH as [|[curr v] ps Hv Hps IHps]; intros res Hnd; simpl.
    + by intros [= <-].
    + destruct (flat res curr v prefix) as [r1|] eqn:Hf; simpl; [|done].
      apply IHps. eapply Hv; eauto.
Qed.

Lemma toFlatObject_NoDup object flatObject :
  toFlatObject object = Ret flatObject -> NoDup (keys flatObject).
Proof.
  unfold toFlatObject. generalize "" as prefix. intros prefix.
  assert (NoDup (keys ([] : obj))) as Hnd by constructor.
  revert Hnd. generalize ([] : obj) as res.
  induction object as [|[curr v] ps IH]; intros res Hnd; simpl.
  - by intros [= <-].
  - destruct (flat res curr v prefix) as [r1|] eqn:Hf; simpl; [|done].
    apply IH. eapply flat_keys_NoDup; eauto.
Qed.

End Flatten.

Section Insert.

Lemma lookup_path_app a p r :
  lookup_path a (p ++ r)
  = match lookup_path a p with
    | Some x => lookup_path x r
    | None => None
    end.
Proof.
  revert a. induction p as [|c p IH]; intros a; [done|].
  simpl. destruct a; try done. destruct (assoc c o); [apply IH|done].
Qed.

Lemma lookup_path_nil_obj p : p <> [] -> lookup_path (VObj []) p = None.
Proof. by destruct p. Qed.

Lemma insert_path_cons o c c' rest v :
  insert_path o (c :: c' :: rest) v
  = assign o c
      (VObj (insert_path
               (match assoc c o with Some (VObj o') => o' | _ => [] end)
               (c' :: rest) v)).
Proof. done. Qed.

(** below the end of the path lies what was stored *)
Lemma lookup_insert_ext p : forall o v r,
  p <> [] ->
  lookup_path (VObj (insert_path o p v)) (p ++ r) = lookup_path v r.
Proof.
  induction p as [|c p IH]; intros o v r Hne; [done|].
  destruct p as [|c' p].
  - simpl. by rewrite assoc_assign_eq.
  - rewrite insert_path_cons. cbn [app lookup_path].
    rewrite assoc_assign_eq. by apply IH.
Qed.

Lemma lookup_insert_same p o v :
  p <> [] -> lookup_path (VObj (insert_path o p v)) p = Some v.
Proof.
  intros Hne. rewrite <- (app_nil_r p) at 2. by rewrite lookup_insert_ext.
Qed.

(** a path that neither extends nor is extended by [p] is not affected *)
Lemma lookup_insert_other p : forall o v q,
  ~ p `prefix_of` q -> ~ q `prefix_of` p ->
  lookup_path (VObj (insert_path o p v)) q = lookup_path (VObj o) q.
Proof.
  induction p as [|c p IH]; intros o v q Hpq Hqp.
  - exfalso. apply Hpq. apply prefix_nil.
  - destruct q as [|c0 q]; [exfalso; apply Hqp, prefix_nil|].
    destruct (decide (c0 = c)) as [-> | Hc].
    + assert (Hpq' : ~ p `prefix_of` q).
      { intros H. apply Hpq. by apply prefix_cons. }
      assert (Hqp' : ~ q `prefix_of` p).
      { intros H. apply Hqp. by apply prefix_cons. }
      destruct p as [|c' p]; [exfalso; apply Hpq', prefix_nil|].
      rewrite insert_path_cons. cbn [lookup_path]. rewrite assoc_assign_eq.
      rewrite IH by done.
      destruct q as [|c1 q]; [exfalso; apply Hqp', prefix_nil|].
      destruct (assoc c o) as [[| | | | | |o']|]; done.
    + destruct p as [|c' p]; simpl; by rewrite assoc_assign_ne.
Qed.

Lemma prefix_of_dec_cases (p q : list string) :
  q `prefix_of` p \/ (exists r, r <> [] /\ q = p ++ r)
  \/ (~ p `prefix_of` q /\ ~ q `prefix_of` p).
Proof.
  destruct (decide (q `prefix_of` p)) as [|Hqp]; [by left|].
  destruct (decide (p `prefix_of` q)) as [[r ->]|Hpq]; [|by right; right].
  right; left. exists r. split; [|done]. intros ->. apply Hqp.
  rewrite app_nil_r. done.
Qed.

(** every node of the tree after the insertion lies on the path, below its
    end, or was there before *)
Lemma lookup_insert_inv p o v q w :
  p <> [] ->
  lookup_path (VObj (insert_path o p v)) q = Some w ->
  q `prefix_of` p
  \/ (exists r, r <> [] /\ q = p ++ r /\ lookup_path v r = Some w)
  \/ lookup_path (VObj o) q = Some w.
Proof.
  intros Hne Hl.
  destruct (prefix_of_dec_cases p q) as [H | [(r & Hr & ->) | [H1 H2]]].
  - by left.
  - right; left. exists r. rewrite lookup_insert_ext in Hl by done. auto.
  - right; right. by rewrite lookup_insert_other in Hl.
Qed.

Lemma well_keyed_assoc o c x :
  well_keyed (VObj o) = true -> assoc c o = Some x -> well_keyed x = true.
Proof.
  intros (_ & _ & Hwk)%well_keyed_obj. revert Hwk.
  induction o as [|[k y] o IH]; simpl; [done|].
  intros [Hy Ho]%andb_true_iff. destruct (String.eqb c k); [|by apply IH].
  by intros [= <-].
Qed.

Lemma well_keyed_assign o c x :
  well_keyed (VObj o) = true -> wf_segment c = true -> well_keyed x = true ->
  well_keyed (VObj (assign o c x)) = true.
Proof.
  intros (Hnd & Hk & Hwk)%well_keyed_obj Hc Hx. apply well_keyed_obj.
  split_and!.
  - by apply keys_assign_NoDup.
  - apply forallb_forall. intros k Hin%list_elem_of_In%keys_assign_elem.
    destruct Hin as [-> | Hin]; [done|].
    rewrite forallb_forall in Hk. by apply Hk, list_elem_of_In.
  - clear Hnd Hk. induction o as [|[k y] o IH]; simpl in *.
    + by rewrite Hx.
    + apply andb_true_iff in Hwk as [Hy Ho].
      destruct (String.eqb c k); simpl; rewrite ?Hx, ?Hy; auto.
Qed.

Lemma well_keyed_insert p : forall o v,
  well_keyed (VObj o) = true -> forallb wf_segment p = true ->
  well_keyed v = true ->
  well_keyed (VObj (insert_path o p v)) = true.
Proof.
  induction p as [|c p IH]; intros o v Ho Hp Hv; [done|].
  simpl in Hp. apply andb_true_iff in Hp as [Hc Hp].
  destruct p as [|c' p].
  - by apply well_keyed_assign.
  - rewrite insert_path_cons. apply well_keyed_assign; try done.
    apply IH; try done.
    destruct (assoc c o) as [[| | | | | |o']|] eqn:E; try done.
    by apply (well_keyed_assoc o c).
Qed.

Lemma passes_objects_nil p : passes_objects [] p.
Proof.
  intros p1 p2 w _ Hne _ Hl. by rewrite lookup_path_nil_obj in Hl.
Qed.

Lemma passes_objects_cons o c c' rest child :
  passes_objects o (c :: c' :: rest) -> assoc c o = Some child ->
  exists o', child = VObj o' /\ passes_objects o' (c' :: rest).
Proof.
  intros Hpass Hc.
  destruct (Hpass [c] (c' :: rest) child) as [o' ->]; try done.
  { simpl. by rewrite Hc. }
  exists o'. split; [done|]. intros p1 p2 w Hp Hp1 Hp2 Hl.
  apply (Hpass (c :: p1) p2 w); try done.
  - simpl. by rewrite Hp.
  - simpl. by rewrite Hc.
Qed.

(** on such a path [setValueFromKey] neither throws nor leaves the
    fragment, and stores by [insert_path] *)
Lemma set_path_insert p : forall o v,
  p <> [] -> passes_objects o p ->
  set_path (VObj o) p v = Ret (VObj (insert_path o p v)).
Proof.
  induction p as [|c p IH]; intros o v Hne Hpass; [done|].
  destruct p as [|c' p]; [done|].
  rewrite insert_path_cons.
  change (set_path (VObj o) (c :: c' :: p) v)
    with (do b <- has_property c (VObj o);
          if b : bool
          then do child <- set_path (get_property (VObj o) c) (c' :: p) v;
               set_property (VObj o) c child
          else do a' <- set_property (VObj o) c (VObj []);
               do child <- set_path (VObj []) (c' :: p) v;
               set_property a' c child).
  cbn [has_property get_property obind].
  destruct (assoc c o) as [child|] eqn:Hc.
  - destruct (passes_objects_cons _ _ _ _ _ Hpass Hc) as (o' & -> & Hpass').
    rewrite IH by done. done.
  - cbn [set_property obind]. rewrite IH by (done || apply passes_objects_nil).
    cbn [set_property obind]. by rewrite assign_assign.
Qed.

End Insert.

Section Walks.

Lemma lookup_path_through a c rest v :
  lookup_path a (c :: rest) = Some v -> exists o, a = VObj o.
Proof. destruct a; try done. eauto. Qed.

(** a value found by [lookup_path] is the one [getValueFromKey] returns *)
Lemma lookup_path_get p : forall o v,
  p <> [] -> lookup_path (VObj o) p = Some v ->
  reduce (get_step VNull) p (VObj o) = Ret v.
Proof.
  induction p as [|c p IH]; intros o v Hne Hl; [done|].
  cbn [lookup_path] in Hl. destruct (assoc c o) as [child|] eqn:Hc; [|done].
  cbn [reduce]. unfold get_step at 1. cbn [has_property get_property obind].
  rewrite Hc. destruct p as [|c' p].
  - simpl in *. congruence.
  - destruct (lookup_path_through _ _ _ _ Hl) as [o' ->]. by apply IH.
Qed.

(** ... and [isKeyExist] finds it *)
Lemma lookup_path_exist p : forall o v,
  p <> [] -> lookup_path (VObj o) p = Some v ->
  exists r, reduce exist_step p (VObj o) = Ret r /\ is_not_false r = true.
Proof.
  induction p as [|c p IH]; intros o v Hne Hl; [done|].
  cbn [lookup_path] in Hl. destruct (assoc c o) as [child|] eqn:Hc; [|done].
  cbn [reduce]. unfold exist_step at 1. cbn [has_property get_property obind].
  rewrite Hc. destruct p as [|c' p].
  - simpl. eexists. split; [done|].
    destruct (truthy child) eqn:Ht; [by apply truthy_not_false|done].
  - destruct (lookup_path_through _ _ _ _ Hl) as [o' ->]. simpl truthy.
    cbn iota. by apply (IH o' v).
Qed.

Lemma getValueFromKey_lookup o k v :
  lookup_path (VObj o) (split "." k) = Some v -> getValueFromKey o k = Ret v.
Proof. apply lookup_path_get, split_not_nil. Qed.

Lemma isKeyExist_lookup o k v :
  lookup_path (VObj o) (split "." k) = Some v -> isKeyExist o k = Ret true.
Proof.
  intros Hl. unfold isKeyExist.
  destruct (lookup_path_exist _ o v (split_not_nil "." k) Hl) as (r & -> & Hr).
  simpl. by rewrite Hr.
Qed.

End Walks.

Section FlatReturns.

Lemma assoc_elem (o : obj) c x :
  NoDup (keys o) -> (c, x) ∈ o -> assoc c o = Some x.
Proof.
  intros Hnd Hin. apply list_elem_of_split in Hin as (o1 & o2 & ->).
  by apply assoc_here.
Qed.

Lemma well_keyed_elem (o : obj) c x :
  well_keyed (VObj o) = true -> (c, x) ∈ o -> well_keyed x = true.
Proof.
  intros Hwk Hin. apply (well_keyed_assoc o c); [done|].
  apply assoc_elem; [|done]. by apply well_keyed_obj in Hwk as (? & _).
Qed.

(** [flat] returns on a mapping that holds no [null] *)
Lemma flat_returns val : forall res key pre,
  well_keyed val = true ->
  (forall p, lookup_path val p <> Some VNull) ->
  exists res', flat res key val pre = Ret res'.
Proof.
  induction val as [| | | | | |o IH] using value_nested_ind;
    intros res key pre Hwk Hnull; try (by eexists).
  - exfalso. by apply (Hnull []).
  - rewrite flat_obj. generalize (make_prefix pre key) as prefix.
    intros prefix.
    assert (Hall : forall c x, (c, x) ∈ o ->
              forall r, exists r', flat r c x prefix = Ret r').
    { intros c x Hin r. rewrite List.Forall_forall in IH.
      apply (IH (c, x)); [by apply list_elem_of_In| |].
      - by apply (well_keyed_elem o c).
      - intros p Hp. apply (Hnull (c :: p)). cbn [lookup_path].
        rewrite (assoc_elem o c x); [done| |done].
        by apply well_keyed_obj in Hwk as (? & _). }
    clear IH Hwk Hnull. revert res.
    induction o as [|[c x] ps IHps]; intros res; simpl; [by eexists|].
    destruct (Hall c x (list_elem_of_here _ _) res) as [r1 ->]. simpl.
    apply IHps. intros c' x' Hin. apply Hall. by apply list_elem_of_further.
Qed.

Lemma toFlatObject_returns object :
  well_keyed (VObj object) = true ->
  (forall p, lookup_path (VObj object) p <> Some VNull) ->
  exists flatObject, toFlatObject object = Ret flatObject.
Proof.
  intros Hwk Hnull.
  destruct (flat_returns (VObj object) [] "" "" Hwk Hnull) as [r Hr].
  rewrite flat_obj in Hr. by exists r.
Qed.

End FlatReturns.

Section Loop.

Variables (rs : gmap string rule) (spec payload flatPayload : obj).

Abbreviation oc := (key_outcome_of rs spec payload flatPayload).
Abbreviation body := (sanitize_key rs spec payload flatPayload).
Abbreviation loop := (sanitize_keys rs spec payload flatPayload).

(** the body of the loop, by the outcome of its key *)
Lemma sanitize_key_outcome specKey errs out :
  body specKey errs out
  = match oc specKey with
    | KeyThrows e => (errs, Throw e)
    | KeyError e => (<[specKey := e]> errs, Ret out)
    | KeyValue v calls =>
        (log_errors specKey calls errs, setValueFromKey out specKey v)
    end.
Proof.
  unfold sanitize_key, key_outcome_of.
  destruct (isKeyExist payload specKey) as [[]|]; try done.
  destruct (getValueFromKey spec specKey) as [ruleName|]; try done.
  destruct (rs !! ToString ruleName) as [r|].
  - by destruct (sanitize r _) as [[v calls]|].
  - by destruct (object_prototype_name _).
Qed.

(** a rule returns a number, a string or an array *)
Lemma sanitize_flat_leaf r v w calls :
  sanitize r v = Ret (w, calls) -> flat_leaf w = true /\ well_keyed w = true.
Proof.
  destruct r; simpl.
  - destruct (_ && _); by intros [= <- <-].
  - destruct (_ && _); by intros [= <- <-].
  - destruct (negb (isString v)) eqn:E; intros [= <- <-]; [done|].
    by destruct v.
  - destruct (negb _); [by intros [= <- <-]|].
    destruct v; try done. by intros [= <- <-].
  - destruct v; try by intros [= <- <-].
    destruct (map_items _ _ _) as [[array idxs]|]; simpl; [|done].
    destruct idxs; by intros [= <- <-].
Qed.

Lemma oc_flat_leaf k v calls :
  oc k = KeyValue v calls -> flat_leaf v = true /\ well_keyed v = true.
Proof.
  unfold key_outcome_of.
  destruct (isKeyExist payload k) as [[]|]; try done.
  destruct (getValueFromKey spec k) as [ruleName|]; try done.
  destruct (rs !! ToString ruleName) as [r|];
    [|by destruct (object_prototype_name _)].
  destruct (sanitize r _) as [[w cs]|] eqn:Hs; try done.
  intros [= <- <-]. by apply sanitize_flat_leaf in Hs.
Qed.

Lemma tree_of_nil : tree_of oc [] [].
Proof.
  split_and!; [done| |].
  - intros k v calls Hk. by apply elem_of_nil in Hk.
  - intros p w Hne Hl. by rewrite lookup_path_nil_obj in Hl.
Qed.

Lemma tree_of_skip done k out :
  (forall v calls, oc k <> KeyValue v calls) ->
  tree_of oc done out -> tree_of oc (done ++ [k]) out.
Proof.
  intros Hk (Hwk & Hval & Hnode). split_and!; [done| |].
  - intros k' v calls [Hin | ->%list_elem_of_singleton]%elem_of_app Hoc.
    + by apply (Hval k' v calls).
    + by apply Hk in Hoc.
  - intros p w Hne Hl. destruct (Hnode p w Hne Hl) as (k' & v & calls & ? & ? & ?).
    exists k', v, calls. split_and!; try done. apply elem_of_app. by left.
Qed.

(** the paths written so far leave the way free for the next key *)
Lemma tree_of_passes done k out :
  path_free (done ++ [k]) -> tree_of oc done out ->
  passes_objects out (split "." k).
Proof.
  intros (Hnd & Hwf & Hfree) (Hwk & Hval & Hnode) p1 p2 w Hsplit Hp1 Hp2 Hl.
  destruct (Hnode p1 w Hp1 Hl) as (k' & v & calls & Hin & Hoc & [r Hr]).
  destruct r as [|c r].
  - exfalso. rewrite app_nil_r in Hr.
    assert (k' = k) as ->.
    { apply Hfree.
      - apply elem_of_app. by left.
      - apply elem_of_app. right. by apply list_elem_of_singleton.
      - exists p2. by rewrite Hr. }
    apply NoDup_app in Hnd as (_ & Hdisj & _).
    apply (Hdisj k Hin). by apply list_elem_of_singleton.
  - pose proof (Hval k' v calls Hin Hoc) as Hv.
    rewrite Hr, lookup_path_app, Hl in Hv.
    by apply lookup_path_through in Hv.
Qed.

Lemma tree_of_insert done k v calls out :
  path_free (done ++ [k]) -> oc k = KeyValue v calls ->
  tree_of oc done out ->
  tree_of oc (done ++ [k]) (insert_path out (split "." k) v).
Proof.
  intros Hpf Hoc Htree. pose proof Hpf as (Hnd & Hwf & Hfree).
  pose proof Htree as (Hwk & Hval & Hnode).
  pose proof (oc_flat_leaf _ _ _ Hoc) as [Hleaf Hvwk].
  pose proof (split_not_nil "." k) as Hne.
  assert (Hk : k ∈ done ++ [k]).
  { apply elem_of_app. right. by apply list_elem_of_singleton. }
  split_and!.
  - apply well_keyed_insert; auto.
  - intros k' v' calls' [Hin | ->%list_elem_of_singleton]%elem_of_app Hoc'.
    + assert (Hk' : k' ∈ done ++ [k]) by (apply elem_of_app; by left).
      assert (k' <> k) as Hdiff.
      { intros ->. apply NoDup_app in Hnd as (_ & Hdisj & _).
        apply (Hdisj k Hin). by apply list_elem_of_singleton. }
      rewrite lookup_insert_other; [by apply (Hval k' v' calls')| |].
      * intros Hp. apply Hdiff. symmetry. by apply Hfree.
      * intros Hp. apply Hdiff. by apply Hfree.
    + rewrite Hoc in Hoc'. injection Hoc' as <- <-.
      by apply lookup_insert_same.
  - intros p w Hp Hl.
    apply lookup_insert_inv in Hl as [Hpre | [(r & Hr & -> & Hl) | Hl]];
      [| |  |done].
    + exists k, v, calls. done.
    + destruct r as [|c r]; [done|]. by rewrite lookup_path_leaf in Hl.
    + destruct (Hnode p w Hp Hl) as (k' & v' & calls' & ? & ? & ?).
      exists k', v', calls'. split_and!; try done. apply elem_of_app. by left.
Qed.

Lemma path_free_app_cons done k ks :
  path_free (done ++ k :: ks) -> path_free (done ++ [k]).
Proof.
  intros (Hnd & Hwf & Hfree).
  assert (Hsub : forall x, x ∈ done ++ [k] -> x ∈ done ++ k :: ks).
  { intros x [H | ->%list_elem_of_singleton]%elem_of_app; apply elem_of_app;
      [by left|right; apply elem_of_cons; by left]. }
  split_and!.
  - apply NoDup_app in Hnd as (Hd & Hdisj & Hk).
    apply NoDup_app. split_and!; [done| |apply NoDup_singleton].
    intros x Hx ->%list_elem_of_singleton. apply (Hdisj k Hx).
    apply elem_of_cons. by left.
  - intros x Hx. by apply Hwf, Hsub.
  - intros k1 k2 H1 H2. apply Hfree; by apply Hsub.
Qed.

(** the invariant of the loop: when it returns, the output is the tree of
    the sanitized values *)
Lemma loop_tree_of ks : forall done errs out errs' out',
  path_free (done ++ ks) -> tree_of oc done out ->
  loop ks errs out = (errs', Ret out') ->
  tree_of oc (done ++ ks) out'.
Proof.
  induction ks as [|k ks IH]; intros done errs out errs' out' Hpf Htree.
  - simpl. intros [= <- <-]. by rewrite app_nil_r.
  - cbn [sanitize_keys]. rewrite sanitize_key_outcome.
    pose proof (path_free_app_cons _ _ _ Hpf) as Hpf1.
    replace (done ++ k :: ks) with ((done ++ [k]) ++ ks) in *
      by (by rewrite <- app_assoc).
    destruct (oc k) as [e|e|v calls] eqn:Hoc.
    + done.
    + apply IH; [done|]. apply tree_of_skip; [|done]. congruence.
    + unfold setValueFromKey.
      rewrite set_path_insert;
        [|apply split_not_nil|by apply (tree_of_passes done)].
      cbn [obind as_obj]. apply IH; [done|].
      by apply (tree_of_insert _ _ _ calls).
Qed.

(** a leaf of the output is the sanitized value of its key *)
Lemma tree_of_leaf ks out q w :
  tree_of oc ks out ->
  leaf_at (VObj out) (split "." q) = Some w ->
  q ∈ ks /\ exists calls, oc q = KeyValue w calls.
Proof.
  intros (Hwk & Hval & Hnode). unfold leaf_at.
  destruct (lookup_path _ _) as [x|] eqn:Hl; [|done].
  destruct (flat_leaf x) eqn:Hleaf; [|done]. intros [= ->].
  destruct (Hnode _ w (split_not_nil "." q) Hl)
    as (k & v & calls & Hin & Hoc & [r Hr]).
  pose proof (Hval k v calls Hin Hoc) as Hv.
  rewrite Hr, lookup_path_app, Hl in Hv.
  destruct r as [|c r]; [|by rewrite lookup_path_leaf in Hv].
  rewrite app_nil_r in Hr. apply split_inj in Hr as ->.
  simpl in Hv. injection Hv as ->. eauto.
Qed.

Lemma tree_of_no_null ks out p :
  tree_of oc ks out -> lookup_path (VObj out) p <> Some VNull.
Proof.
  intros (Hwk & Hval & Hnode) Hl.
  destruct p as [|c p]; [simpl in Hl; discriminate|].
  assert (Hne : c :: p <> []) by done.
  destruct (Hnode _ _ Hne Hl) as (k & v & calls & Hin & Hoc & [r Hr]).
  pose proof (Hval k v calls Hin Hoc) as Hv.
  rewrite Hr, lookup_path_app, Hl in Hv.
  destruct r as [|c' r]; [|done]. simpl in Hv. injection Hv as <-.
  by apply oc_flat_leaf in Hoc as [? _].
Qed.

End Loop.

Section RuleFixpoints.

Lemma trunc_integral n : trunc n = NaN \/ exists z, trunc n = Dec z 0.
Proof. destruct n; simpl; eauto. Qed.

Lemma parseInt_string_integral s :
  parseInt_string s = NaN \/ exists z, parseInt_string s = Dec z 0.
Proof.
  unfold parseInt_string. destruct (read_sign _) as [neg l].
  destruct (span_digits l) as [[|c d] r]; eauto.
Qed.

Lemma parseInt_integral v : parseInt v = NaN \/ exists z, parseInt v = Dec z 0.
Proof.
  destruct v as [| | |[|m k]| | |]; simpl;
    auto using parseInt_string_integral.
  destruct (_ || _); eauto.
Qed.

Lemma digit_not_sign c l :
  is_digit c = true ->
  skip_spaces (c :: l) = c :: l /\ read_sign (c :: l) = (false, c :: l).
Proof.
  destruct c as [[] [] [] [] [] [] [] []]; try discriminate; done.
Qed.

Lemma pow_digit_head n l :
  1 <= n -> pow (lang digit) n l -> exists c l', l = c :: l' /\ is_digit c = true.
Proof.
  destruct n as [|n]; [lia|]. intros _ (a & b & -> & (c & -> & Hc) & _).
  eauto.
Qed.

(** a string of [/^\d+$/] reads as a number *)
Lemma parseInt_digits s :
  test digits_reg s = true -> exists z, parseInt_string s = Dec z 0.
Proof.
  intros (n & Hn & Hp)%test_lang.
  destruct (pow_digit_head _ _ Hn Hp) as (c & l & Hs & Hc).
  unfold parseInt_string. rewrite Hs.
  destruct (digit_not_sign c l Hc) as [-> ->].
  simpl. rewrite Hc. destruct (span_digits l). eauto.
Qed.

Lemma integral_not_NaN n : integral n = true -> exists m k, n = Dec m k.
Proof. destruct n; [done|eauto]. Qed.

(** [map_items] when no element is reported *)
Lemma map_items_clean f items index vs :
  map_items f items index = Ret (vs, []) <->
  Forall2 (fun item w => f item = Ret (w, [])) items vs.
Proof.
  revert index vs. induction items as [|item rest IH]; intros index vs; simpl.
  - split; [intros [= <-]; constructor|by inversion 1].
  - split.
    + destruct (f item) as [[w calls]|] eqn:Hf; simpl; [|done].
      destruct (map_items f rest (S index)) as [[vs' idxs]|] eqn:Hm;
        simpl; [|done].
      intros [= <- Hnil]. apply app_eq_nil in Hnil as [Hc ->].
      destruct calls; [|done]. constructor; [done|]. by apply (IH (S index)).
    + inversion 1 as [|? w ? vs' Hf Hrest]; subst. rewrite Hf. simpl.
      apply (IH (S index)) in Hrest. rewrite Hrest. done.
Qed.

Lemma TypedArrayRule_accepts inner v w :
  sanitize (TypedArrayRule inner) v = Ret (w, []) <->
  exists items vs,
    v = VArr items /\ w = VArr vs
    /\ Forall2 (fun item x => sanitize inner item = Ret (x, [])) items vs.
Proof.
  split.
  - destruct v as [| | | | |items|]; try done. simpl.
    destruct (map_items _ _ _) as [[vs idxs]|] eqn:Hm; simpl; [|done].
    destruct idxs; [|done]. intros [= <-].
    exists items, vs. split_and!; try done. by apply (map_items_clean _ _ 0).
  - intros (items & vs & -> & -> & H). simpl.
    apply (map_items_clean _ _ 0) in H. by rewrite H.
Qed.

Lemma map_items_Forall (P : value -> Prop) f items index vs idxs :
  (forall item w calls, f item = Ret (w, calls) -> P w) ->
  map_items f items index = Ret (vs, idxs) -> Forall P vs.
Proof.
  intros Hf. revert index vs idxs.
  induction items as [|item rest IH]; intros index vs idxs; simpl.
  - intros [= <- <-]. constructor.
  - destruct (f item) as [[w calls]|e] eqn:Hitem; [|done]. simpl.
    destruct (map_items f rest (S index)) as [[ws is']|e] eqn:Hrest; [|done].
    simpl. intros [= <- <-]. constructor; eauto.
Qed.

Lemma Forall2_same {A} (R : A -> A -> Prop) (l : list A) :
  Forall2 R l l <-> Forall (fun x => R x x) l.
Proof.
  induction l as [|x l IH]; [split; constructor|].
  split; inversion 1; subst; constructor; tauto.
Qed.

Lemma leading_digit_small z : (-48 <= leading_digit z < 208)%Z.
Proof.
  unfold leading_digit. destruct (chars _) as [|c l]; [lia|].
  unfold digit_val. pose proof (nat_ascii_bounded c). lia.
Qed.

(** an integer in plain notation reads back as itself *)
Lemma parseInt_plain z :
  exponent_notation (Dec z 0) = false -> parseInt (VNum (Dec z 0)) = Dec z 0.
Proof.
  intros H. cbn [parseInt]. rewrite H. cbn [trunc].
  change (10 ^ Z.of_nat 0)%Z with 1%Z. by rewrite Z.quot_1_r.
Qed.

(** and one in exponent notation does not *)
Lemma parseInt_exponent z :
  exponent_notation (Dec z 0) = true -> parseInt (VNum (Dec z 0)) <> Dec z 0.
Proof.
  intros H. cbn [parseInt]. rewrite H. intros [= Hz].
  cbn [exponent_notation] in H. change (Z.of_nat 0) with 0%Z in H.
  rewrite Z.add_0_r in H.
  apply orb_true_iff in H as [H|H].
  - apply Z.leb_le in H. pose proof (leading_digit_small z).
    assert (10 ^ 21 = 1000000000000000000000)%Z as E by reflexivity.
    rewrite E in H. destruct z; simpl in Hz; lia.
  - apply andb_true_iff in H as [H0 H1].
    apply Z.ltb_lt in H0, H1. change (10 ^ 0)%Z with 1%Z in H1. lia.
Qed.

Lemma IntegerRule_output v0 w calls :
  sanitize IntegerRule v0 = Ret (w, calls) ->
  exists n, w = VNum n /\ (n = NaN \/ exists z, n = Dec z 0).
Proof.
  cbn [sanitize].
  destruct (if _ : bool then _ else _) as [v c]. intros [= <- _].
  eexists. split; [reflexivity|apply parseInt_integral].
Qed.

Lemma normal_form_fixed rest :
  forallb is_digit rest = true ->
  strip_non_digits (replace_leading_8 (String "7" (str rest)))
  = String "7" (str rest).
Proof.
  intros Hd. unfold strip_non_digits. cbn [replace_leading_8].
  change (chars (String "7" (str rest))) with ("7"%char :: chars (str rest)).
  rewrite chars_str. cbn [List.filter is_digit].
  change (List.filter is_digit rest) with (digits_of rest).
  by rewrite (digits_of_all _ Hd).
Qed.

(** what a rule returned is returned again, unchanged and without a
    report, when it is [stable] ... *)
Lemma stable_fixpoint r : forall v0 w calls,
  sanitize r v0 = Ret (w, calls) -> stable r w = true ->
  sanitize r w = Ret (w, []).
Proof.
  induction r as [| | | |inner IH]; intros v0 w calls Hout Hst.
  - destruct (IntegerRule_output _ _ _ Hout) as (n & -> & Hn).
    cbn [stable] in Hst. apply andb_true_iff in Hst as [Hi Hp].
    apply negb_true_iff in Hp.
    destruct Hn as [-> | [z ->]]; [done|].
    cbn [sanitize]. rewrite Hi. cbn [negb andb].
    by rewrite (parseInt_plain z Hp).
  - cbn [stable] in Hst. cbn [sanitize]. rewrite Hst. cbn [negb andb].
    by destruct w as [| | |[|m k]| | |].
  - cbn [stable] in Hst. cbn [sanitize]. by rewrite Hst.
  - cbn [stable] in Hst. apply andb_true_iff in Hst as [Hs Hp].
    destruct w as [| | | |t| |]; try done.
    cbn [sanitize] in Hout |- *. rewrite Hp. cbn [negb]. do 2 f_equal.
    f_equal. destruct (isPhone v0) eqn:Hp0; cbn [negb] in Hout.
    + destruct v0 as [| | | |s| |]; try done. injection Hout as <- _.
      destruct (normalize_phone s Hp0) as (rest & -> & Hd & _).
      by apply normal_form_fixed.
    + injection Hout as <- _. done.
  - cbn [stable] in Hst. destruct w as [| | | | |ws|]; try done.
    cbn [isTypedArray] in Hst.
    assert (Hall : Forall (fun x => sanitize inner x = Ret (x, [])) ws).
    { destruct v0 as [| | | | |items|];
        try (injection Hout as <- _; constructor).
      cbn [sanitize] in Hout.
      destruct (map_items _ _ _) as [[vs idxs]|] eqn:Hm; [|done].
      cbn [obind] in Hout. destruct idxs; injection Hout as <- _;
        [|constructor].
      assert (Hsrc : Forall (fun x => exists v c,
                                sanitize inner v = Ret (x, c)) vs).
      { eapply map_items_Forall; [|exact Hm]. intros; eauto. }
      rewrite List.Forall_forall in Hsrc. apply List.Forall_forall.
      intros x Hx. destruct (Hsrc x Hx) as (v & c & Hv).
      apply (IH v x c Hv).
      rewrite forallb_forall in Hst. by apply Hst. }
    apply TypedArrayRule_accepts. exists ws, ws. split_and!; try done.
    by apply Forall2_same.
Qed.

(** ... and only then *)
Lemma fixpoint_stable r : forall w,
  sanitize r w = Ret (w, []) -> stable r w = true.
Proof.
  induction r as [| | | |inner IH]; intros w Hw.
  - destruct (IntegerRule_output _ _ _ Hw) as (n & -> & Hn).
    cbn [sanitize] in Hw.
    destruct (negb (isInteger (VNum n)) && _) eqn:Hc; [done|].
    cbn [isString negb orb] in Hc. rewrite andb_true_r in Hc.
    apply negb_false_iff in Hc. cbn [stable]. rewrite Hc. cbn [andb].
    destruct Hn as [-> | [z ->]]; [done|].
    injection Hw as Hw. destruct (exponent_notation (Dec z 0)) eqn:He; [|done].
    by destruct (parseInt_exponent z He).
  - cbn [sanitize] in Hw. cbn [stable].
    destruct (negb (isFloat w) && _) eqn:Hc.
    + injection Hw as <-. done.
    + apply andb_false_iff in Hc as [Hc|Hc];
        [by apply negb_false_iff in Hc|].
      apply orb_false_iff in Hc as [Hs _]. apply negb_false_iff in Hs.
      destruct w; try done.
  - cbn [sanitize] in Hw. cbn [stable].
    destruct (isString w); [done|]. by injection Hw as <-.
  - cbn [sanitize] in Hw. cbn [stable].
    destruct (isPhone w) eqn:Hp; cbn [negb] in Hw; [|done].
    by destruct w.
  - apply TypedArrayRule_accepts in Hw as (items & vs & -> & [= <-] & H).
    cbn [stable isTypedArray]. apply forallb_forall, List.Forall_forall.
    apply Forall2_same in H. rewrite List.Forall_forall in H |- *.
    intros x Hx. apply IH, H, Hx.
Qed.

End RuleFixpoints.

Section FlatKeys.

Lemma wf_segment_key (o : obj) c x :
  forallb wf_segment (keys o) = true -> assoc c o = Some x ->
  wf_segment c = true.
Proof.
  intros Hk Hc%assoc_Some_keys. rewrite forallb_forall in Hk.
  by apply Hk, list_elem_of_In.
Qed.

(** the segments of a path that exists in a well-keyed mapping *)
Lemma lookup_path_wf p : forall a v,
  well_keyed a = true -> lookup_path a p = Some v ->
  forallb wf_segment p = true.
Proof.
  induction p as [|c p IH]; intros a v Hwk Hl; [done|].
  destruct (lookup_path_through _ _ _ _ Hl) as [o ->].
  cbn [lookup_path] in Hl. destruct (assoc c o) as [x|] eqn:Hc; [|done].
  cbn [forallb]. apply andb_true_iff. split.
  - apply well_keyed_obj in Hwk as (_ & Hk & _). by apply (wf_segment_key o c x).
  - apply (IH x v); [|done]. by apply (well_keyed_assoc o c).
Qed.

Lemma leaf_at_Some a p w :
  leaf_at a p = Some w <-> lookup_path a p = Some w /\ flat_leaf w = true.
Proof.
  unfold leaf_at. destruct (lookup_path a p) as [x|]; [|by split; [|intros []]].
  destruct (flat_leaf x) eqn:Hx.
  - split; [by intros [= <-]|by intros [[= <-] _]].
  - split; [done|]. intros [[= <-] ?]. congruence.
Qed.

(** the keys of the flattened view of a well-keyed mapping *)
Lemma flat_keys_path_free object flatObject :
  well_keyed (VObj object) = true ->
  toFlatObject object = Ret flatObject ->
  path_free (keys flatObject).
Proof.
  intros Hwk Hf.
  assert (Hleaf : forall k, k ∈ keys flatObject ->
            exists w, lookup_path (VObj object) (split "." k) = Some w
                      /\ flat_leaf w = true).
  { intros k [w Hw]%keys_assoc.
    rewrite (toFlatObject_assoc _ _ _ Hwk Hf) in Hw.
    apply leaf_at_Some in Hw. eauto. }
  split_and!.
  - by apply (toFlatObject_NoDup object).
  - intros k (w & Hl & _)%Hleaf. by apply (lookup_path_wf _ _ _ Hwk Hl).
  - intros k1 k2 (w1 & Hl1 & Hw1)%Hleaf (w2 & Hl2 & _)%Hleaf [r Hr].
    rewrite Hr, lookup_path_app, Hl1 in Hl2.
    destruct r as [|c r]; [|by rewrite lookup_path_leaf in Hl2].
    rewrite app_nil_r in Hr. symmetry. by apply split_inj.
Qed.

End FlatKeys.

Section Report.

Variables (rs : gmap string rule) (spec payload flatPayload : obj).

Abbreviation oc' := (key_outcome_of rs spec payload flatPayload).
Abbreviation body' := (sanitize_key rs spec payload flatPayload).
Abbreviation loop' := (sanitize_keys rs spec payload flatPayload).

(** when the loop returns, the report holds at each key what the body
    stored there *)
Lemma loop_errors_at ks : forall k e errs out errs' out',
  (forall errs0 out0, (body' k errs0 out0).1 !! k = Some e) ->
  k ∈ ks ->
  loop' ks errs out = (errs', Ret out') ->
  errs' !! k = Some e.
Proof.
  induction ks as [|k0 ks IH]; intros k e errs out errs' out' Hbody Hin.
  - by apply elem_of_nil in Hin.
  - cbn [sanitize_keys].
    destruct (body' k0 errs out) as [errs1 [out1|e1]] eqn:Hb; [|done].
    intros Hloop. destruct (decide (k ∈ ks)) as [Hks|Hks].
    + by apply (IH k e errs1 out1 errs' out').
    + apply elem_of_cons in Hin as [-> | Hin]; [|done].
      replace errs' with (loop' ks errs1 out1).1 by (by rewrite Hloop).
      rewrite sanitize_keys_other by done.
      replace errs1 with (body' k0 errs out).1 by (by rewrite Hb).
      apply Hbody.
Qed.

Lemma log_errors_empty specKey calls (errs : gmap string SanitizerError) :
  log_errors specKey calls errs = ∅ -> calls = [] /\ errs = ∅.
Proof.
  unfold log_errors. revert errs.
  induction calls as [|c calls IH]; intros errs; simpl; [done|].
  intros [_ H]%IH. by apply insert_non_empty in H.
Qed.

(** a loop that ends with an empty report started with one, and stored a
    value for every key without any call of the logger *)
Lemma loop_errors_empty ks : forall errs out out',
  loop' ks errs out = (∅, Ret out') ->
  errs = ∅ /\ forall k, k ∈ ks -> exists v, oc' k = KeyValue v [].
Proof.
  induction ks as [|k0 ks IH]; intros errs out out'.
  - simpl. intros [= -> _]. split; [done|]. intros k Hk.
    by apply elem_of_nil in Hk.
  - cbn [sanitize_keys]. rewrite sanitize_key_outcome.
    destruct (oc' k0) as [e|e|v calls] eqn:Hoc; [done| |].
    + intros [H _]%IH. by apply insert_non_empty in H.
    + destruct (setValueFromKey out k0 v) as [out1|]; [|done].
      intros [[-> ->]%log_errors_empty Hks]%IH. split; [done|].
      intros k [-> | Hk]%elem_of_cons; eauto.
Qed.

End Report.

Section Congruence.

(** two runs of the loop whose keys have the same outcomes *)
Lemma loop_congr rs spec payload1 fp1 payload2 fp2 ks :
  (forall k, k ∈ ks ->
     key_outcome_of rs spec payload1 fp1 k
     = key_outcome_of rs spec payload2 fp2 k) ->
  forall errs out,
    sanitize_keys rs spec payload1 fp1 ks errs out
    = sanitize_keys rs spec payload2 fp2 ks errs out.
Proof.
  induction ks as [|k ks IH]; intros Hoc errs out; [done|].
  cbn [sanitize_keys]. rewrite !sanitize_key_outcome.
  rewrite (Hoc k) by (apply elem_of_cons; by left).
  assert (Hrest : forall k', k' ∈ ks ->
            key_outcome_of rs spec payload1 fp1 k'
            = key_outcome_of rs spec payload2 fp2 k').
  { intros k' Hk'. apply Hoc. apply elem_of_cons. by right. }
  destruct (key_outcome_of rs spec payload2 fp2 k) as [e|e|v calls];
    [done|by apply IH|].
  destruct (setValueFromKey out k v); [by apply IH|done].
Qed.

Lemma extra_fields_subset specKeys payloadKeys
    (errs : gmap string SanitizerError) :
  (forall k, k ∈ payloadKeys -> k ∈ specKeys) ->
  extra_fields specKeys payloadKeys errs = errs.
Proof.
  intros Hsub. unfold extra_fields. destruct (negb _); [|done].
  apply map_eq. intros k. rewrite extra_pass_lookup.
  case_bool_decide as H; [|done]. destruct H as [H1 H2]. by apply Hsub in H1.
Qed.

Lemma key_outcome_value rs spec payload fp k v calls :
  key_outcome_of rs spec payload fp k = KeyValue v calls <->
  exists ruleName r,
    isKeyExist payload k = Ret true
    /\ getValueFromKey spec k = Ret ruleName
    /\ rs !! ToString ruleName = Some r
    /\ sanitize r (get_property (VObj fp) k) = Ret (v, calls).
Proof.
  unfold key_outcome_of. split.
  - destruct (isKeyExist payload k) as [[]|]; try done.
    destruct (getValueFromKey spec k) as [ruleName|]; try done.
    destruct (rs !! ToString ruleName) as [r|] eqn:Hr;
      [|by destruct (object_prototype_name _)].
    destruct (sanitize r _) as [[w cs]|] eqn:Hs; try done.
    intros [= <- <-]. exists ruleName, r. done.
  - intros (ruleName & r & -> & -> & -> & ->). done.
Qed.

End Congruence.

(** ** The rules *)

(** C6, at the failing input.  An array of phone numbers given as numbers:
    the element passes [isPhone] (which converts it to a string), then
    [PhoneRule.sanitize] calls [replace] on the number and throws; the
    exception leaves [TypedArrayRule.sanitize] before any report is made and
    before anything is returned. *)
Theorem TypedArrayRule_phone_number_throws :
  isArray (VArr [VInt 78005553535]) = true
  /\ sanitize (TypedArrayRule PhoneRule) (VArr [VInt 78005553535])
     = Throw TypeError.
Proof. split; vm_compute; reflexivity. Qed.

(** [TypedArrayRule.sanitize] is all-or-nothing whenever it returns: the
    fully mapped array and no report, or the empty array and one
    [InvalidStructureValue] report; it throws only when the inner rule throws
    on an element. *)
Theorem TypedArrayRule_all_or_nothing (inner : rule) (array : list value) :
  match sanitize (TypedArrayRule inner) (VArr array) with
  | Ret (v, calls) =>
      (exists vs, v = VArr vs /\ calls = [] /\ mapped_by inner array vs
                  /\ forall item, item ∈ array -> ~ invokes_logger inner item)
      \/ (exists idxs, v = VArr [] /\ idxs <> []
                       /\ calls = [(InvalidStructureValue, idxs)])
  | Throw e => exists item, item ∈ array /\ sanitize inner item = Throw e
  end.
Proof.
  pose proof (TypedArrayRule_cases inner array) as H.
  destruct (sanitize (TypedArrayRule inner) (VArr array)) as [[v calls]|e];
    [|done].
  destruct H as (vs & idxs & Hm & [(-> & -> & ->) | (Hne & -> & ->)]).
  - left. exists vs.
    destruct (map_items_invokes _ _ _ _ Hm) as (_ & _ & Hiff & Hmap).
    split_and!; auto. intros item [i Hi]%list_elem_of_lookup Hinv.
    assert (i ∈ []) as Hnil by (apply Hiff; eauto).
    by apply elem_of_nil in Hnil.
  - right. eauto.
Qed.



(** C8, at the failing input.  A phone number given as a number satisfies
    [isPhone], whose [test] converts it to a string; [PhoneRule.sanitize]
    then calls [replace] on the number itself and throws.  [IntegerRule]
    guards its own pattern with [isString]. *)
Theorem PhoneRule_throws_on_number :
  isPhone (VInt 78005553535) = true
  /\ isString (VInt 78005553535) = false
  /\ sanitize PhoneRule (VInt 78005553535) = Throw TypeError
  /\ sanitize IntegerRule (VInt 78005553535) = Ret (VInt 78005553535, []).
Proof. repeat split; vm_compute; reflexivity. Qed.

(** C10.  On every array, when [TypedArrayRule.sanitize] returns, the index
    list it built is strictly increasing, has no duplicate and holds exactly
    the indexes of the elements on which the inner rule called its error
    callback; it is passed to the logger, with [InvalidStructureValue], as
    soon as it is not empty.  The call returns unless the inner rule throws
    on an element. *)
Theorem TypedArrayRule_invalid_indexes (inner : rule) (array : list value) :
  match sanitize (TypedArrayRule inner) (VArr array) with
  | Ret (_, calls) =>
      exists invalidIndexes,
        StronglySorted lt invalidIndexes
        /\ NoDup invalidIndexes
        /\ (forall i, i ∈ invalidIndexes <->
              exists item, array !! i = Some item /\ invokes_logger inner item)
        /\ calls = match invalidIndexes with
                   | [] => []
                   | _ => [(InvalidStructureValue, invalidIndexes)]
                   end
  | Throw e => exists item, item ∈ array /\ sanitize inner item = Throw e
  end.
Proof.
  pose proof (TypedArrayRule_cases inner array) as H.
  destruct (sanitize (TypedArrayRule inner) (VArr array)) as [[v calls]|e];
    [|done].
  destruct H as (vs & idxs & Hm & Hcase).
  destruct (map_items_invokes _ _ _ _ Hm) as (Hs & Hnd & Hiff & _).
  exists idxs. split_and!; auto.
  destruct Hcase as [(-> & _ & ->) | (Hne & _ & ->)]; [done|].
  by destruct idxs.
Qed.

(** ** Key existence and the error report *)

(** C9, the claim at concrete inputs.  A property that is present and holds
    [undefined] counts as existing, although the walk does not resolve to a
    defined value; and a miss before the last segment ends in a [TypeError]
    ([c in false]) instead of [false]. *)
Theorem isKeyExist_undefined_counts_as_existing :
  isKeyExist [("a", VUndefined)] "a" = Ret true
  /\ resolves_defined (VObj [("a", VUndefined)]) (split "." "a") = false
  /\ isKeyExist [] "a.b" = Throw TypeError.
Proof. repeat split; vm_compute; reflexivity. Qed.

(** C9, as amended.  No key of the object and no segment of the key is a
    name that objects and arrays inherit (such as [toString], [__proto__]
    or [map]).  When [isKeyExist] returns, it returns [true] exactly when
    every segment of the key names a property that is present ([in]) in the
    value reached so far; what the property holds does not matter. *)
Theorem isKeyExist_iff_all_present (object : obj) (key : string) (b : bool) :
  plain_keyed (VObj object) = true ->
  forallb plain_name (split "." key) = true ->
  isKeyExist object key = Ret b ->
  b = all_present (VObj object) (split "." key).
Proof.
  intros _ _. unfold isKeyExist.
  destruct (reduce exist_step (split "." key) (VObj object)) as [r|] eqn:Hr;
    simpl; [|discriminate].
  intros [= <-]. apply reduce_exist_step; [apply split_not_nil|done].
Qed.

(** present values of [0], [false], [''], [null] and [undefined] all count
    as existing; an absent property counts as missing *)
Lemma isKeyExist_iff_all_present_witness :
  (isKeyExist [("a", VObj [("b", VInt 0)])] "a.b" = Ret true
   /\ true = all_present (VObj [("a", VObj [("b", VInt 0)])]) (split "." "a.b"))
  /\ isKeyExist [("a", VBool false)] "a" = Ret true
  /\ isKeyExist [("a", VStr "")] "a" = Ret true
  /\ isKeyExist [("a", VNull)] "a" = Ret true
  /\ isKeyExist [("a", VUndefined)] "a" = Ret true
  /\ isKeyExist [("a", VObj [])] "a.b" = Ret false.
Proof.
  split; [|repeat split; vm_compute; reflexivity].
  split; [vm_compute; reflexivity|].
  apply (isKeyExist_iff_all_present [("a", VObj [("b", VInt 0)])] "a.b" true);
    vm_compute; reflexivity.
Defined.

(** C3, at the failing input: the second and third calls of the test
    'Standard sanitizer', made one after the other on the same instance.
    The report after the later call still holds the error of the earlier
    one; the test expects [{'foo.bar.qux': ExtraField}], which is what a
    fresh instance gives. *)
Theorem errors_carry_over_between_calls :
  let first := (sanitizeBySpec StandardSanitizer spec_nested payload_invalid).1 in
  let second := (sanitizeBySpec first spec_nested payload_extra).1 in
  errors first = {[ "foo.bar.baz" := InvalidValue ]}
  /\ errors second
     = <[ "foo.bar.baz" := InvalidValue ]> {[ "foo.bar.qux" := ExtraField ]}
  /\ errors second !! "foo.bar.baz" = Some InvalidValue
  /\ errors (sanitizeBySpec StandardSanitizer spec_nested payload_extra).1
     = {[ "foo.bar.qux" := ExtraField ]}.
Proof. repeat split; vm_compute; reflexivity. Qed.

(** C4, at failing inputs.  A [null] leaf makes [toFlatObject] throw
    ([typeof null === 'object'], then [Object.keys(null)]); a payload that
    holds a string where the spec nests deeper makes [isKeyExist] throw
    (['b' in 'x']).  Nothing is recorded in the error report. *)
Theorem sanitizeBySpec_throws_on_null_leaf :
  sanitizeBySpec StandardSanitizer [("a", VStr "string")] [("a", VNull)]
  = (StandardSanitizer, Throw TypeError)
  /\ sanitizeBySpec StandardSanitizer
       [("a", VObj [("b", VStr "int")])] [("a", VStr "x")]
     = (StandardSanitizer, Throw TypeError)
  /\ errors StandardSanitizer = ∅.
Proof. repeat split; vm_compute; reflexivity. Qed.




(** ** The sanitized payload *)

(** the end-to-end example of the specification: flat spec, valid payload *)
Example standard_sanitizer_end_to_end :
  sanitizeBySpec StandardSanitizer
    [("foo", VStr "int"); ("bar", VStr "float"); ("baz", VStr "phone");
     ("qux", VStr "string")]
    [("foo", VStr "123"); ("bar", VStr "123.45");
     ("baz", VStr "8 (800) 5553535"); ("qux", VStr "string")]
  = (StandardSanitizer,
     Ret [("foo", VInt 123); ("bar", VNum (Dec 12345 2));
          ("baz", VStr "78005553535"); ("qux", VStr "string")]).
Proof. vm_compute. reflexivity. Qed.

(** C2, the claim at its own example.  The invalid value is reported, and
    the output holds the default [0] of the rule at [foo.bar.baz]: the path
    is written, not omitted. *)
Theorem invalid_leaf_is_written :
  let result := sanitizeBySpec StandardSanitizer spec_nested payload_invalid in
  errors result.1 = {[ "foo.bar.baz" := InvalidValue ]}
  /\ result.2 = Ret [("foo", VObj [("bar", VObj [("baz", VInt 0)])])]
  /\ isKeyExist [("foo", VObj [("bar", VObj [("baz", VInt 0)])])] "foo.bar.baz"
     = Ret true.
Proof. repeat split; vm_compute; reflexivity. Qed.

(** C2, as amended.  The keys of the spec and of the payload are segments
    (not empty, no dot), and none of them is a name that objects inherit
    (such as [__proto__] or [toString]).  When the value of a leaf
    fails the check of its scalar rule and [sanitizeBySpec] returns,
    [InvalidValue] is recorded at the path and the returned payload holds
    the typed default of the rule there. *)
Theorem invalid_leaf_reported_and_defaulted
    (this this' : Sanitizer) (spec payload flatSpec flatPayload out : obj)
    (specKey : string) (ruleName : value) (r : rule) :
  well_keyed (VObj spec) = true ->
  plain_keyed (VObj spec) = true ->
  well_keyed (VObj payload) = true ->
  plain_keyed (VObj payload) = true ->
  toFlatObject spec = Ret flatSpec ->
  toFlatObject payload = Ret flatPayload ->
  specKey ∈ keys flatSpec ->
  isKeyExist payload specKey = Ret true ->
  getValueFromKey spec specKey = Ret ruleName ->
  rules this !! ToString ruleName = Some r ->
  r = IntegerRule \/ r = FloatRule \/ r = StringRule \/ r = PhoneRule ->
  invokes_logger r (get_property (VObj flatPayload) specKey) ->
  sanitizeBySpec this spec payload = (this', Ret out) ->
  errors this' !! specKey = Some InvalidValue
  /\ getValueFromKey out specKey = Ret (typed_default r)
  /\ isKeyExist out specKey = Ret true.
Proof.
  intros Hwk _ _ _ Hfs Hfp Hin Hexist Hname Hrule Hscalar
         (w & calls & Hs & Hcalls).
  unfold sanitizeBySpec. rewrite Hfs, Hfp.
  destruct (sanitize_keys _ _ _ _ _ _ _) as [errs' res] eqn:Hloop.
  intros [= <- ->]. cbn [errors].
  destruct calls as [|c calls]; [done|].
  destruct (sanitize_invalid_default r _ w c calls Hscalar Hs) as (-> & -> & Hw).
  assert (Hoc : key_outcome_of (rules this) spec payload flatPayload specKey
                = KeyValue w [(InvalidValue, [])]).
  { apply key_outcome_value. exists ruleName, r. done. }
  assert (Hdef : w = typed_default r).
  { rewrite Hw. by destruct Hscalar as [-> | [-> | [-> | ->]]]. }
  split.
  - eapply (loop_errors_at _ _ _ _ _ specKey InvalidValue);
      [|exact Hin|exact Hloop].
    intros errs0 out0. rewrite sanitize_key_outcome, Hoc. cbn [fst log_errors].
    simpl. apply lookup_insert_eq.
  - pose proof (flat_keys_path_free _ _ Hwk Hfs) as Hpf.
    pose proof (loop_tree_of _ _ _ _ _ [] _ _ _ _ Hpf
                  (tree_of_nil _ _ _ _) Hloop) as (_ & Hval & _).
    pose proof (Hval _ _ _ Hin Hoc) as Hl. rewrite Hdef in Hl.
    split; [by apply getValueFromKey_lookup|by apply (isKeyExist_lookup _ _ _ Hl)].
Qed.

Lemma invalid_leaf_reported_and_defaulted_witness :
  errors (sanitizeBySpec StandardSanitizer spec_nested payload_invalid).1
    !! "foo.bar.baz" = Some InvalidValue
  /\ getValueFromKey [("foo", VObj [("bar", VObj [("baz", VInt 0)])])]
       "foo.bar.baz" = Ret (typed_default IntegerRule)
  /\ isKeyExist [("foo", VObj [("bar", VObj [("baz", VInt 0)])])]
       "foo.bar.baz" = Ret true.
Proof.
  apply (invalid_leaf_reported_and_defaulted StandardSanitizer
           (sanitizeBySpec StandardSanitizer spec_nested payload_invalid).1
           spec_nested payload_invalid
           [("foo.bar.baz", VStr "int")] [("foo.bar.baz", VStr "123qux")]
           [("foo", VObj [("bar", VObj [("baz", VInt 0)])])]
           "foo.bar.baz" (VStr "int") IntegerRule).
  - vm_compute. reflexivity.
  - vm_compute. reflexivity.
  - vm_compute. reflexivity.
  - vm_compute. reflexivity.
  - reflexivity.
  - reflexivity.
  - apply elem_of_cons. by left.
  - vm_compute. reflexivity.
  - vm_compute. reflexivity.
  - vm_compute. reflexivity.
  - by left.
  - exists (VInt 0), [(InvalidValue, [])]. split; [vm_compute; reflexivity|].
    discriminate.
  - vm_compute. reflexivity.
Defined.

(** C5, the claim at concrete inputs.  A phone number whose tail is made of
    separators is accepted and normalises to ["7800"], which is not a phone
    number; the decimal ["1.0"] is accepted by the float rule and reads as
    the number 1, which is not a float.  The first call reports nothing;
    the second call, on its output, reports [InvalidValue] and returns a
    different payload. *)
Theorem sanitize_twice_differs :
  (let first :=
     sanitizeBySpec StandardSanitizer
       [("a", VStr "phone")] [("a", VStr "8800-------")] in
   let second :=
     sanitizeBySpec first.1 [("a", VStr "phone")] [("a", VStr "7800")] in
   errors first.1 = ∅ /\ first.2 = Ret [("a", VStr "7800")]
   /\ errors second.1 = {[ "a" := InvalidValue ]}
   /\ second.2 = Ret [("a", VStr "")])
  /\ (let first :=
        sanitizeBySpec StandardSanitizer
          [("a", VStr "float")] [("a", VStr "1.0")] in
      let second :=
        sanitizeBySpec first.1 [("a", VStr "float")] [("a", VInt 1)] in
      errors first.1 = ∅ /\ first.2 = Ret [("a", VInt 1)]
      /\ errors second.1 = {[ "a" := InvalidValue ]}
      /\ second.2 = Ret [("a", VInt 0)]).
Proof. repeat split; vm_compute; reflexivity. Qed.

(** C5, as amended.  The keys of the spec and of the payload are segments
    (not empty, no dot), and none of them is a name that objects inherit.  If [sanitizeBySpec] returns [S] with an empty report, then
    sanitizing [S] against the same spec returns [S] with an empty report
    exactly when every value of [S] is one its rule returns unchanged: an
    integer below 1e21 in magnitude under [IntegerRule] (from 1e21 on a
    number prints in exponent notation, of which [parseInt] reads the
    first digit), a number that is not integral under [FloatRule], a
    string that is a phone number (eleven digits or more) under
    [PhoneRule], any string under [StringRule], and an array of such
    values under [TypedArrayRule]. *)
Theorem sanitize_twice
    (this this' : Sanitizer) (spec payload flatSpec S : obj) :
  well_keyed (VObj spec) = true ->
  plain_keyed (VObj spec) = true ->
  well_keyed (VObj payload) = true ->
  plain_keyed (VObj payload) = true ->
  toFlatObject spec = Ret flatSpec ->
  sanitizeBySpec this spec payload = (this', Ret S) ->
  errors this' = ∅ ->
  (forall specKey ruleName r v,
     specKey ∈ keys flatSpec ->
     getValueFromKey spec specKey = Ret ruleName ->
     rules this !! ToString ruleName = Some r ->
     getValueFromKey S specKey = Ret v ->
     stable r v = true)
  <-> sanitizeBySpec this' spec S = (this', Ret S).
Proof.
  intros Hwk _ _ _ Hfs Hfirst Hempty.
  unfold sanitizeBySpec in Hfirst. rewrite Hfs in Hfirst.
  destruct (toFlatObject payload) as [flatPayload|] eqn:Hfp; [|done].
  destruct (sanitize_keys _ _ _ _ _ _ _) as [errs' res] eqn:Hloop.
  injection Hfirst as <- ->. cbn [errors] in Hempty. subst errs'.
  destruct (loop_errors_empty _ _ _ _ _ _ _ _ Hloop) as [Hstart Hclean].
  rewrite Hstart in Hloop.
  pose proof (flat_keys_path_free _ _ Hwk Hfs) as Hpf.
  pose proof (loop_tree_of _ _ _ _ _ [] _ _ _ _ Hpf
                (tree_of_nil _ _ _ _) Hloop) as Htree.
  cbn [app] in Htree. pose proof Htree as (HwkS & Hval & _).
  destruct (toFlatObject_returns S HwkS) as [flatS HfS].
  { intros p. by apply (tree_of_no_null _ _ _ _ _ _ _ Htree). }
  assert (Hraw : forall k v calls,
            k ∈ keys flatSpec ->
            key_outcome_of (rules this) spec payload flatPayload k
            = KeyValue v calls ->
            lookup_path (VObj S) (split "." k) = Some v
            /\ get_property (VObj flatS) k = v).
  { intros k v calls Hk Hoc. pose proof (Hval k v calls Hk Hoc) as Hl.
    split; [done|]. cbn [get_property].
    rewrite (toFlatObject_assoc _ _ _ HwkS HfS). unfold leaf_at. rewrite Hl.
    by apply oc_flat_leaf in Hoc as [-> _]. }
  unfold sanitizeBySpec. cbn [rules errors]. rewrite Hfs, HfS.
  rewrite extra_fields_subset.
  2:{ intros q [w Hw]%keys_assoc.
      rewrite (toFlatObject_assoc _ _ _ HwkS HfS) in Hw.
      by apply (tree_of_leaf _ _ _ _ _ _ _ _ Htree) in Hw as [? _]. }
  split.
  - intros Hst.
    rewrite (loop_congr _ _ S flatS payload flatPayload), Hloop; [done|].
    intros k Hk. destruct (Hclean k Hk) as [v Hoc]. rewrite Hoc.
    destruct (Hraw k v [] Hk Hoc) as [Hl Hget].
    apply key_outcome_value in Hoc as (ruleName & r & _ & Hname & Hrule & Hs).
    apply key_outcome_value. exists ruleName, r. split_and!; try done.
    + by apply (isKeyExist_lookup _ _ v).
    + rewrite Hget. apply (stable_fixpoint r _ v [] Hs).
      apply (Hst k ruleName r v); try done. by apply getValueFromKey_lookup.
  - destruct (sanitize_keys (rules this) spec S flatS (keys flatSpec) ∅ [])
      as [errs2 res2] eqn:Hloop2.
    intros [= -> ->] k ruleName r v Hk Hname Hrule Hv.
    destruct (loop_errors_empty _ _ _ _ _ _ _ _ Hloop2) as [_ Hclean2].
    pose proof (loop_tree_of _ _ _ _ _ [] _ _ _ _ Hpf
                  (tree_of_nil _ _ _ _) Hloop2) as (_ & Hval2 & _).
    destruct (Hclean k Hk) as [v1 Hoc1].
    destruct (Hraw k v1 [] Hk Hoc1) as [Hl Hget].
    rewrite (getValueFromKey_lookup _ _ _ Hl) in Hv. injection Hv as <-.
    destruct (Hclean2 k Hk) as [v2 Hoc2].
    pose proof (Hval2 k v2 [] Hk Hoc2) as Hl2. cbn [app] in Hl2.
    rewrite Hl in Hl2. injection Hl2 as <-.
    apply key_outcome_value in Hoc2
      as (ruleName2 & r2 & _ & Hname2 & Hrule2 & Hs2).
    rewrite Hname in Hname2. injection Hname2 as <-.
    rewrite Hrule in Hrule2. injection Hrule2 as <-.
    rewrite Hget in Hs2. by apply fixpoint_stable.
Qed.

(** a float, a phone number, an integer and an array of strings *)
Lemma sanitize_twice_witness :
  sanitizeBySpec StandardSanitizer
    [("a", VStr "float"); ("b", VStr "phone");
     ("c", VObj [("d", VStr "int"); ("e", VStr "string[]")])]
    [("a", VNum (Dec 15 1)); ("b", VStr "78005553535");
     ("c", VObj [("d", VInt 123); ("e", VArr [VStr "x"; VStr ""])])]
  = (StandardSanitizer,
     Ret [("a", VNum (Dec 15 1)); ("b", VStr "78005553535");
          ("c", VObj [("d", VInt 123); ("e", VArr [VStr "x"; VStr ""])])]).
Proof.
  apply (proj1 (sanitize_twice StandardSanitizer StandardSanitizer
           [("a", VStr "float"); ("b", VStr "phone");
            ("c", VObj [("d", VStr "int"); ("e", VStr "string[]")])]
           [("a", VStr "1.5"); ("b", VStr "8 (800) 555-35-35");
            ("c", VObj [("d", VStr "123"); ("e", VArr [VStr "x"; VStr ""])])]
           [("a", VStr "float"); ("b", VStr "phone");
            ("c.d", VStr "int"); ("c.e", VStr "string[]")]
           [("a", VNum (Dec 15 1)); ("b", VStr "78005553535");
            ("c", VObj [("d", VInt 123); ("e", VArr [VStr "x"; VStr ""])])]
           ltac:(vm_compute; reflexivity) ltac:(vm_compute; reflexivity)
           ltac:(vm_compute; reflexivity) ltac:(vm_compute; reflexivity)
           ltac:(vm_compute; reflexivity) ltac:(vm_compute; reflexivity)
           ltac:(vm_compute; reflexivity))).
  intros specKey ruleName r v Hin Hname Hrule Hv.
  repeat (apply elem_of_cons in Hin as [-> | Hin]);
    [| | | |by apply elem_of_nil in Hin];
    vm_compute in Hname; injection Hname as <-;
    vm_compute in Hrule; injection Hrule as <-;
    vm_compute in Hv; injection Hv as <-;
    vm_compute; reflexivity.
Defined.

(** Why the keys of the spec are required to be segments.  An empty key
    and a key with a dot let two flattened paths, [a.0] and [a], run one
    through the other: the later write replaces the earlier one.  In the
    first run below nothing is reported, and sanitizing the output again
    reports [InvalidValue] at [a.0]; in the second both values are invalid,
    and the output holds no default at [a.0]. *)
Remark keys_that_are_not_segments :
  let spec := [("", VObj [("a.0", VStr "x")]); ("a", VArr [VStr "string[]"])] in
  let payload :=
    [("", VObj [("a.0", VArr [VStr "z"])]); ("a", VArr [VStr "2"])] in
  let first := sanitizeBySpec StandardSanitizer spec payload in
  let second := sanitizeBySpec first.1 spec [("a", VArr [VStr "2"])] in
  let spec' := [("", VObj [("a.0", VStr "x")]); ("a", VArr [VStr "int"])] in
  let payload' := [("", VObj [("a.0", VStr "x")]); ("a", VArr [VStr "7"])] in
  let third := sanitizeBySpec StandardSanitizer spec' payload' in
  well_keyed (VObj spec) = false
  /\ errors first.1 = ∅ /\ first.2 = Ret [("a", VArr [VStr "2"])]
  /\ errors second.1 = {[ "a.0" := InvalidValue ]}
  /\ errors third.1 !! "a.0" = Some InvalidValue
  /\ third.2 = Ret [("a", VInt 0)]
  /\ getValueFromKey [("a", VInt 0)] "a.0" = Throw TypeError.
Proof. repeat split; vm_compute; reflexivity. Qed.

(** ** Further properties of the rules and of the sanitizer *)

Lemma sanitize_throws_TypeError r : forall v e,
  sanitize r v = Throw e -> e = TypeError.
Proof.
  induction r as [| | | |inner IH]; intros v e; simpl.
  - by destruct (_ && _).
  - by destruct (_ && _).
  - by destruct (negb _).
  - destruct (negb _); [done|]. destruct v; try done; by intros [= <-].
  - destruct v as [| | | | |items|]; try done.
    destruct (map_items _ _ _) as [[vs idxs]|e'] eqn:Hm; simpl.
    + by destruct idxs.
    + intros [= <-]. apply map_items_throws in Hm as (item & _ & Hitem).
      by apply (IH item).
Qed.

(** Whatever the value, a rule calls its logger at most once and returns a
    number, a string or an array (never [undefined], [null], a boolean or
    a plain object); the only exception it can raise is a [TypeError]. *)
Theorem rules_report_at_most_once (r : rule) (v : value) :
  match sanitize r v with
  | Ret (w, calls) => length calls <= 1 /\ number_string_or_array w = true
  | Throw e => e = TypeError
  end.
Proof.
  destruct (sanitize r v) as [[w calls]|e] eqn:Hs.
  - split; [by apply (sanitize_logs_once r v w)|].
    destruct r; simpl in Hs.
    + destruct (_ && _); by injection Hs as <- _.
    + destruct (_ && _); by injection Hs as <- _.
    + destruct (negb (isString v)) eqn:E; injection Hs as <- _; [done|].
      by destruct v.
    + destruct (negb _); [by injection Hs as <- _|].
      destruct v; try done. by injection Hs as <- _.
    + destruct v; try by injection Hs as <- _.
      destruct (map_items _ _ _) as [[array idxs]|]; simpl in Hs; [|done].
      destruct idxs; by injection Hs as <- _.
  - by apply (sanitize_throws_TypeError r v).
Qed.

Section DigitStrings.

Lemma pow_cls_intro p w :
  forallb p w = true -> pow (lang (Cls p)) (length w) w.
Proof.
  induction w as [|c w IH]; simpl; [done|].
  intros [Hc Hw]%andb_true_iff. exists [c], w. split_and!; eauto.
Qed.

Lemma span_digits_all l :
  forallb is_digit l = true -> span_digits l = (l, []).
Proof.
  induction l as [|c l IH]; simpl; [done|].
  intros [Hc Hl]%andb_true_iff. by rewrite Hc, IH.
Qed.

Lemma span_digits_stop a c r :
  forallb is_digit a = true -> is_digit c = false ->
  span_digits (a ++ c :: r) = (a, c :: r).
Proof.
  intros Ha Hc. induction a as [|x a IH]; simpl in *; [by rewrite Hc|].
  apply andb_true_iff in Ha as [Hx Ha]. by rewrite Hx, IH.
Qed.

Lemma span_digits_spec l a r :
  span_digits l = (a, r) ->
  l = a ++ r /\ forallb is_digit a = true
  /\ match r with c :: _ => is_digit c = false | [] => True end.
Proof.
  revert a r. induction l as [|c l IH]; intros a r; simpl.
  - by intros [= <- <-].
  - destruct (is_digit c) eqn:Hc.
    + destruct (span_digits l) as [d r'] eqn:Hs. intros [= <- <-].
      destruct (IH d r' eq_refl) as (-> & Hd & Hr). simpl. by rewrite Hc.
    + intros [= <- <-]. done.
Qed.

Lemma nonempty_chars s : nonempty s = true <-> chars s <> [].
Proof. by destruct s. Qed.

(** what [/^\d+$/] accepts *)
Lemma test_digits_reg s : test digits_reg s = all_digits s.
Proof.
  apply eq_true_iff_eq. rewrite test_iff. unfold all_digits.
  rewrite andb_true_iff, nonempty_chars. split.
  - intros (n & Hn & [Hlen Hall]%pow_cls). split; [|done].
    intros Hnil. rewrite Hnil in Hlen. simpl in Hlen. lia.
  - intros [Hne Hall]. exists (length (chars s)). split.
    + destruct (chars s); [done|simpl; lia].
    + by apply pow_cls_intro.
Qed.

(** what [/^\d+\.\d+$/] accepts *)
Lemma test_decimal_reg s :
  test decimal_reg s = true <->
  exists a b, a <> [] /\ b <> [] /\ forallb is_digit a = true
              /\ forallb is_digit b = true
              /\ chars s = a ++ "."%char :: b.
Proof.
  rewrite test_iff. split.
  - intros (a & r & -> & (n & Hn & [Hla Ha]%pow_cls)
            & (dot & b & -> & (c & -> & Hc) & (m & Hm & [Hlb Hb]%pow_cls))).
    apply Ascii.eqb_eq in Hc as <-. exists a, b. split_and!; try done.
    + intros ->. simpl in Hla. lia.
    + intros ->. simpl in Hlb. lia.
  - intros (a & b & Ha & Hb & Hda & Hdb & ->).
    exists a, ("."%char :: b). split_and!; [done| |].
    + exists (length a). split; [destruct a; [done|simpl; lia]|].
      by apply pow_cls_intro.
    + exists ["."%char], b. split_and!; [done| |].
      * exists "."%char. split; [done|apply Ascii.eqb_refl].
      * exists (length b). split; [destruct b; [done|simpl; lia]|].
        by apply pow_cls_intro.
Qed.

Lemma decimal_parts_Some s a b :
  decimal_parts s = Some (a, b) <->
  a <> [] /\ b <> [] /\ forallb is_digit a = true
  /\ forallb is_digit b = true /\ chars s = a ++ "."%char :: b.
Proof.
  unfold decimal_parts. split.
  - destruct (span_digits (chars s)) as [a' r] eqn:Hs.
    apply span_digits_spec in Hs as (Hl & Ha & _).
    destruct a' as [|x a']; [done|].
    destruct r as [|c r]; [done|].
    destruct c as [[] [] [] [] [] [] [] []]; try done.
    destruct (forallb is_digit r) eqn:Hb; [|by rewrite andb_false_r].
    destruct r as [|y r]; [done|].
    intros [= <- <-]. done.
  - intros (Ha & Hb & Hda & Hdb & ->).
    rewrite span_digits_stop by done.
    destruct a as [|x a]; [done|]. destruct b as [|y b]; [done|].
    by rewrite Hdb.
Qed.

Lemma test_decimal_parts s :
  test decimal_reg s = match decimal_parts s with Some _ => true | None => false end.
Proof.
  apply eq_true_iff_eq. rewrite test_decimal_reg. split.
  - intros (a & b & H). apply decimal_parts_Some in H. by rewrite H.
  - destruct (decimal_parts s) as [[a b]|] eqn:H; [|done]. intros _.
    exists a, b. by apply decimal_parts_Some.
Qed.

Lemma parseInt_string_digits s :
  all_digits s = true -> parseInt_string s = Dec (Z_of_digits (chars s)) 0.
Proof.
  unfold all_digits. intros [Hne Hall]%andb_true_iff.
  unfold parseInt_string. destruct (chars s) as [|c l] eqn:Hs.
  - by destruct s.
  - simpl in Hall. pose proof Hall as [Hc Hl]%andb_true_iff.
    destruct (digit_not_sign c l Hc) as [-> ->].
    change (is_digit c && forallb is_digit l) with (forallb is_digit (c :: l))
      in Hall.
    by rewrite (span_digits_all _ Hall).
Qed.

Lemma parseFloat_string_decimal s a b :
  decimal_parts s = Some (a, b) ->
  parseFloat_string s = norm (Z_of_digits (a ++ b)) (length b).
Proof.
  intros (Ha & Hb & Hda & Hdb & Hs)%decimal_parts_Some.
  unfold parseFloat_string. rewrite Hs.
  destruct a as [|c a]; [done|]. simpl in Hda.
  pose proof Hda as [Hc _]%andb_true_iff.
  change ((c :: a) ++ "."%char :: b) with (c :: (a ++ "."%char :: b)).
  destruct (digit_not_sign c (a ++ "."%char :: b) Hc) as [-> ->].
  change (c :: (a ++ "."%char :: b)) with ((c :: a) ++ "."%char :: b).
  change (is_digit c && forallb is_digit a) with (forallb is_digit (c :: a))
    in Hda.
  rewrite span_digits_stop by done.
  rewrite (span_digits_all _ Hdb). cbn [fst signed].
  destruct b as [|y b]; [done|]. done.
Qed.

Lemma norm_Dec m k : exists m' k', norm m k = Dec m' k'.
Proof.
  revert m. induction k as [|k IH]; intros m; simpl; [eauto|].
  destruct (_ =? _)%Z; eauto.
Qed.

End DigitStrings.

Section RuleTypes.

Lemma integral_Dec0 z : integral (Dec z 0) = true.
Proof. reflexivity. Qed.

Lemma number_is_typed n :
  (exists m k, n = Dec m k) -> isInteger (VNum n) || isFloat (VNum n) = true.
Proof. intros (m & k & ->). simpl. by destruct (integral _). Qed.

Lemma sanitize_well_typed r : forall v w calls,
  sanitize r v = Ret (w, calls) -> well_typed r w = true.
Proof.
  induction r as [| | | |inner IH]; intros v w calls.
  - simpl. destruct (negb (isInteger v) && _) eqn:Hc; intros [= <- <-]; [done|].
    apply andb_false_iff in Hc as [Hc|Hc].
    + apply negb_false_iff in Hc. destruct v; try done. simpl in *.
      destruct n as [|m k]; [done|]. by destruct (_ || _).
    + apply orb_false_iff in Hc as [Hs Ht].
      apply negb_false_iff in Hs, Ht. destruct v; try done. simpl in Ht |- *.
      rewrite test_digits_reg in Ht. by rewrite (parseInt_string_digits _ Ht).
  - simpl. destruct (negb (isFloat v) && _) eqn:Hc; intros [= <- <-]; [done|].
    apply andb_false_iff in Hc as [Hc|Hc].
    + apply negb_false_iff in Hc. destruct v; try done.
      destruct n as [|m k]; [done|].
      change (parseFloat (VNum (Dec m k))) with (Dec m k).
      apply number_is_typed; eauto.
    + apply orb_false_iff in Hc as [Hs Ht].
      apply negb_false_iff in Hs, Ht. destruct v; try done. simpl in Ht.
      rewrite test_decimal_parts in Ht.
      destruct (decimal_parts s) as [[a b]|] eqn:Hp; [|done].
      change (parseFloat (VStr s)) with (parseFloat_string s).
      rewrite (parseFloat_string_decimal _ _ _ Hp).
      apply number_is_typed, norm_Dec.
  - simpl. destruct (negb (isString v)) eqn:Hc; intros [= <- <-]; [done|].
    by apply negb_false_iff in Hc.
  - simpl. destruct (negb (isPhone v)).
    + intros [= <- <-]. reflexivity.
    + destruct v; try done. intros [= <- <-]. simpl.
      unfold strip_non_digits. rewrite chars_str. apply digits_of_are_digits.
  - simpl. destruct v as [| | | | |items|]; try (by intros [= <- <-]).
    destruct (map_items _ _ _) as [[vs idxs]|e] eqn:Hm; [|done]. simpl.
    destruct idxs; intros [= <- <-]; [|done]. simpl.
    apply forallb_forall, List.Forall_forall.
    eapply (map_items_Forall (fun x => well_typed inner x = true)); [|exact Hm].
    intros item x calls' Hx. by apply (IH item x calls').
Qed.

End RuleTypes.

Section PhoneAgain.

Lemma lang_phone_length l : lang phone_reg l -> 11 <= length l.
Proof.
  intros (s1 & s2 & -> & (code & b & -> & Hcode & Hb)
          & (u & w & -> & (p & q & -> & Hp & (d & e & -> & (n & Hn & Hd)
               & (f & g & -> & Hf & Hg))) & (t & Ht & Hw))).
  apply pow_cls in Hd as [Hd _]. apply pow_cls in Hw as [Hw _].
  assert (1 <= length code).
  { destruct Hcode as [(c & -> & _)|[(c & -> & _)|(x & y & -> & (c1 & -> & _) & _)]];
      simpl; lia. }
  rewrite !length_app. lia.
Qed.

Lemma digits_tail_cls l :
  forallb is_digit l = true -> forallb tail_cls l = true.
Proof.
  induction l as [|c l IH]; simpl; [done|].
  intros [Hc Hl]%andb_true_iff. unfold tail_cls at 1. by rewrite Hc, IH.
Qed.

(** a string of digits that starts with [7] is of the phone grammar exactly
    when it has 11 to 14 digits *)
Lemma isPhone_digits rest :
  forallb is_digit rest = true ->
  isPhone (VStr (String "7" (str rest)))
  = (10 <=? length rest)%nat && (length rest <=? 13)%nat.
Proof.
  intros Hd. apply eq_true_iff_eq. unfold isPhone. cbn [ToString].
  rewrite test_iff, andb_true_iff, !Nat.leb_le.
  change (chars (String "7" (str rest))) with ("7"%char :: chars (str rest)).
  rewrite chars_str. split.
  - intros H. pose proof (lang_phone_length _ H) as Hlen.
    apply phone_shape in H as (code & r & Hl & Hcode & Hr).
    simpl in Hlen. split; [lia|].
    assert (r = rest) as ->.
    { destruct Hcode as [-> | [-> | ->]]; simpl in Hl; congruence. }
    rewrite (digits_of_all _ Hd) in Hr. lia.
  - intros [Hlo Hhi].
    rewrite <- (take_drop 3 rest) in Hd |- *.
    rewrite forallb_app in Hd. apply andb_true_iff in Hd as [H3 Ht].
    assert (length (take 3 rest) = 3) as L3 by (rewrite length_take; lia).
    assert (7 <= length (drop 3 rest) <= 10) as Lt
      by (rewrite length_drop; lia).
    exists ["7"%char], (take 3 rest ++ drop 3 rest). split_and!; [done| |].
    + exists ["7"%char], []. split_and!; [done| |by right].
      right. left. by exists "7"%char.
    + exists (take 3 rest), (drop 3 rest). split_and!; [done| |].
      * exists [], (take 3 rest). split_and!; [done|by right|].
        exists (take 3 rest), []. split_and!; [by rewrite app_nil_r| |].
        -- exists 3. split; [lia|]. rewrite <- L3 at 1. by apply pow_cls_intro.
        -- exists [], []. split_and!; [done|by right|by right].
      * exists (length (drop 3 rest)). split; [lia|].
        by apply pow_cls_intro, digits_tail_cls.
Qed.

Lemma strip_digits rest :
  forallb is_digit rest = true ->
  strip_non_digits (replace_leading_8 (String "7" (str rest)))
  = String "7" (str rest).
Proof.
  intros Hd. unfold strip_non_digits. cbn [replace_leading_8].
  change (chars (String "7" (str rest))) with ("7"%char :: chars (str rest)).
  rewrite chars_str. cbn [List.filter is_digit].
  change (List.filter is_digit rest) with (digits_of rest).
  by rewrite (digits_of_all _ Hd).
Qed.

End PhoneAgain.

(** ** The rules: types, numerals, a second pass *)

(** Whatever a rule returns has the rule's target type: [IntegerRule] an
    integral number, [FloatRule] a number that is not [NaN], [StringRule] a
    string, [PhoneRule] a string of digits only, [TypedArrayRule] an array
    whose every element has the inner rule's target type; and when a rule
    does not return, it throws a [TypeError].  The strings of the value
    have at most 308 characters, so that a numeral among them is a finite
    number. *)
Theorem sanitized_value_has_rule_type (r : rule) (v : value) :
  short_strings v = true ->
  match sanitize r v with
  | Ret (w, _) => well_typed r w = true
  | Throw e => e = TypeError
  end.
Proof.
  intros _. destruct (sanitize r v) as [[w calls]|e] eqn:H.
  - by apply (sanitize_well_typed r v w calls).
  - by apply (sanitize_throws_TypeError r v).
Qed.

Lemma sanitized_value_has_rule_type_witness :
  match sanitize (TypedArrayRule IntegerRule) (VArr [VStr "12"; VInt 7]) with
  | Ret (w, _) => well_typed (TypedArrayRule IntegerRule) w = true
  | Throw e => e = TypeError
  end.
Proof.
  apply (sanitized_value_has_rule_type (TypedArrayRule IntegerRule)
           (VArr [VStr "12"; VInt 7])).
  reflexivity.
Defined.

(** The numeric rules on strings.  [IntegerRule] accepts exactly the
    non-empty strings of decimal digits, and [FloatRule] exactly digits, a
    dot, digits; each returns a number and reports nothing.  For a numeral
    of at most 15 digits that number is its value (leading zeros allowed).
    Every other string, signed, padded or in exponent notation, is replaced
    by [0] with one [InvalidValue] report. *)
Theorem numeric_rules_read_plain_numerals (s : string) :
  (if all_digits s
   then exists n,
          sanitize IntegerRule (VStr s) = Ret (VNum n, [])
          /\ (String.length s <= 15 -> n = Dec (Z_of_digits (chars s)) 0)
   else sanitize IntegerRule (VStr s) = Ret (VInt 0, [(InvalidValue, [])]))
  /\ match decimal_parts s with
     | Some (a, b) =>
         exists n,
           sanitize FloatRule (VStr s) = Ret (VNum n, [])
           /\ (length a + length b <= 15 ->
               n = norm (Z_of_digits (a ++ b)) (length b))
     | None => sanitize FloatRule (VStr s) = Ret (VInt 0, [(InvalidValue, [])])
     end.
Proof.
  split.
  - cbn [sanitize isInteger isString ToString negb orb andb].
    rewrite test_digits_reg. destruct (all_digits s) eqn:Hs; [|done].
    cbn [negb parseInt ToString]. rewrite (parseInt_string_digits _ Hs).
    eexists. split; [reflexivity|done].
  - cbn [sanitize isFloat isString ToString negb orb andb].
    rewrite test_decimal_parts.
    destruct (decimal_parts s) as [[a b]|] eqn:Hp; [|done].
    cbn [negb]. change (parseFloat (VStr s)) with (parseFloat_string s).
    rewrite (parseFloat_string_decimal _ _ _ Hp).
    eexists. split; [reflexivity|done].
Qed.

(** A second pass of [PhoneRule] over its own output.  The normal form of
    an accepted phone number is accepted again, and returned unchanged,
    exactly when it has at least eleven digits; a shorter one (the tail of
    the input held separators) is rejected and replaced by the empty
    string. *)
Theorem PhoneRule_second_pass (s : string) :
  isPhone (VStr s) = true ->
  let t := strip_non_digits (replace_leading_8 s) in
  sanitize PhoneRule (VStr s) = Ret (VStr t, [])
  /\ sanitize PhoneRule (VStr t)
     = (if (11 <=? String.length t)%nat
        then Ret (VStr t, [])
        else Ret (VStr "", [(InvalidValue, [])])).
Proof.
  intros Hp t. subst t.
  destruct (normalize_phone s Hp) as (rest & Heq & Hd & Hl & _).
  split; [simpl; by rewrite Hp|].
  rewrite Heq. cbn [sanitize]. rewrite (isPhone_digits _ Hd).
  cbn [String.length]. rewrite length_str.
  change (11 <=? S (length rest))%nat with (10 <=? length rest)%nat.
  replace (length rest <=? 13)%nat with true
    by (symmetry; apply Nat.leb_le; lia).
  rewrite andb_true_r. destruct (10 <=? length rest)%nat; cbn [negb]; [|done].
  by rewrite (strip_digits _ Hd).
Qed.

Lemma PhoneRule_second_pass_witness :
  isPhone (VStr "8 (800) 555-35-35") = true
  /\ sanitize PhoneRule (VStr "8 (800) 555-35-35")
     = Ret (VStr "78005553535", [])
  /\ sanitize PhoneRule (VStr "78005553535") = Ret (VStr "78005553535", []).
Proof.
  split; [vm_compute; reflexivity|].
  apply (PhoneRule_second_pass "8 (800) 555-35-35"). vm_compute; reflexivity.
Defined.

Section TwoWalks.

Lemma has_property_primitive c a :
  primitive a = true -> has_property c a = Throw TypeError.
Proof. by destruct a. Qed.




End TwoWalks.

Section Writes.

Lemma set_path_primitive p : forall a v,
  primitive a = true -> p <> [] -> set_path a p v = Throw TypeError.
Proof.
  destruct p as [|c [|c' p]]; intros a v Ha Hne; [done| |].
  - by destruct a.
  - change (set_path a (c :: c' :: p) v)
      with (do b <- has_property c a;
            if b : bool
            then do child <- set_path (get_property a c) (c' :: p) v;
                 set_property a c child
            else do a' <- set_property a c (VObj []);
                 do child <- set_path (VObj []) (c' :: p) v;
                 set_property a' c child).
    by rewrite has_property_primitive.
Qed.

Lemma set_path_blocked p1 : forall o p2 w v,
  p1 <> [] -> p2 <> [] ->
  lookup_path (VObj o) p1 = Some w -> primitive w = true ->
  set_path (VObj o) (p1 ++ p2) v = Throw TypeError.
Proof.
  induction p1 as [|c p1 IH]; intros o p2 w v Hne1 Hne2 Hl Hw; [done|].
  simpl in Hl. destruct (assoc c o) as [child|] eqn:Hc; [|done].
  assert (exists c' rest, p1 ++ p2 = c' :: rest) as (c' & rest & Hp).
  { destruct p1; simpl; [destruct p2; [done|eauto]|eauto]. }
  change ((c :: p1) ++ p2) with (c :: (p1 ++ p2)). rewrite Hp.
  change (set_path (VObj o) (c :: c' :: rest) v)
    with (do b <- has_property c (VObj o);
          if b : bool
          then do child <- set_path (get_property (VObj o) c) (c' :: rest) v;
               set_property (VObj o) c child
          else do a' <- set_property (VObj o) c (VObj []);
               do child <- set_path (VObj []) (c' :: rest) v;
               set_property a' c child).
  cbn [has_property get_property obind]. rewrite Hc, <- Hp.
  destruct p1 as [|c1 p1].
  - simpl in Hl. injection Hl as ->. simpl.
    by rewrite set_path_primitive.
  - destruct (lookup_path_through _ _ _ _ Hl) as [o' ->].
    by rewrite (IH o' p2 w v).
Qed.

Lemma lookup_insert_prefix p1 : forall o p2 v,
  p1 <> [] -> p2 <> [] ->
  exists o', lookup_path (VObj (insert_path o (p1 ++ p2) v)) p1
             = Some (VObj o').
Proof.
  induction p1 as [|c p1 IH]; intros o p2 v Hne1 Hne2; [done|].
  assert (exists c' rest, p1 ++ p2 = c' :: rest) as (c' & rest & Hp).
  { destruct p1; simpl; [destruct p2; [done|eauto]|eauto]. }
  change ((c :: p1) ++ p2) with (c :: (p1 ++ p2)). rewrite Hp.
  rewrite insert_path_cons. cbn [lookup_path]. rewrite assoc_assign_eq.
  rewrite <- Hp. destruct p1 as [|c1 p1]; [simpl; eauto|].
  by apply IH.
Qed.

Lemma passes_objects_insert o p v : passes_objects (insert_path o p v) p.
Proof.
  intros p1 p2 w -> Hne1 Hne2 Hl.
  destruct (lookup_insert_prefix p1 o p2 v Hne1 Hne2) as [o' Ho'].
  rewrite Ho' in Hl. injection Hl as <-. eauto.
Qed.

Lemma insert_path_twice p : forall o v v',
  insert_path (insert_path o p v) p v' = insert_path o p v'.
Proof.
  induction p as [|c p IH]; intros o v v'; [done|].
  destruct p as [|c' p]; [apply assign_assign|].
  rewrite !insert_path_cons. rewrite assoc_assign_eq, assign_assign.
  by rewrite IH.
Qed.

End Writes.

(** ** The key-path helpers *)

(** [isKeysExist] is [every] over [isKeyExist]: it returns [true] exactly
    when every key is found, and the first key that is not found or whose
    walk throws decides the result: the keys after it are not looked at. *)
Theorem isKeysExist_stops_at_first_miss (object : obj) (ks : list string) :
  (isKeysExist object ks = Ret true
   <-> Forall (fun k => isKeyExist object k = Ret true) ks)
  /\ (forall ks1 k ks2 r,
        ks = ks1 ++ k :: ks2 ->
        Forall (fun k => isKeyExist object k = Ret true) ks1 ->
        isKeyExist object k = r -> r <> Ret true ->
        isKeysExist object ks = r).
Proof.
  split.
  - induction ks as [|k ks IH]; simpl.
    + split; [constructor|done].
    + destruct (isKeyExist object k) as [[]|e] eqn:Hk; simpl.
      * rewrite IH. split; [by constructor|by inversion 1].
      * split; [done|]. inversion 1; congruence.
      * split; [done|]. inversion 1; congruence.
  - intros ks1 k ks2 r -> Hall Hk Hr. induction Hall as [|k1 ks1 Hk1 _ IH].
    + simpl. rewrite Hk. by destruct r as [[]|].
    + simpl. by rewrite Hk1.
Qed.


(** Writing at a dotted path whose existing containers are plain objects
    returns normally; the key then exists and holds the value; and the
    value reached along every path that neither extends the key nor is
    extended by it is what it was before the write.  No key of the object
    and no segment of the key is a name that objects inherit (a store to
    [__proto__] is not a store). *)
Theorem setValueFromKey_writes_one_path
    (object : obj) (key : string) (v : value) :
  plain_keyed (VObj object) = true ->
  forallb plain_name (split "." key) = true ->
  passes_objects object (split "." key) ->
  exists object',
    setValueFromKey object key v = Ret object'
    /\ getValueFromKey object' key = Ret v
    /\ isKeyExist object' key = Ret true
    /\ forall q,
         ~ split "." key `prefix_of` q -> ~ q `prefix_of` split "." key ->
         lookup_path (VObj object') q = lookup_path (VObj object) q.
Proof.
  intros _ _ Hpass. exists (insert_path object (split "." key) v).
  pose proof (split_not_nil "." key) as Hne.
  assert (Hl : lookup_path (VObj (insert_path object (split "." key) v))
                 (split "." key) = Some v) by by apply lookup_insert_same.
  split_and!.
  - unfold setValueFromKey. by rewrite set_path_insert.
  - by apply getValueFromKey_lookup.
  - by apply (isKeyExist_lookup _ _ v).
  - intros q H1 H2. by apply lookup_insert_other.
Qed.

Lemma setValueFromKey_writes_one_path_witness :
  exists object',
    setValueFromKey [("a", VObj [("b", VInt 1)]); ("c", VInt 2)] "a.d" (VInt 3)
    = Ret object'
    /\ getValueFromKey object' "a.d" = Ret (VInt 3)
    /\ isKeyExist object' "a.d" = Ret true
    /\ forall q,
         ~ split "." "a.d" `prefix_of` q -> ~ q `prefix_of` split "." "a.d" ->
         lookup_path (VObj object') q
         = lookup_path (VObj [("a", VObj [("b", VInt 1)]); ("c", VInt 2)]) q.
Proof.
  apply (setValueFromKey_writes_one_path
           [("a", VObj [("b", VInt 1)]); ("c", VInt 2)] "a.d" (VInt 3));
    [reflexivity|reflexivity|].
  intros p1 p2 w Hp Hp1 Hp2.
  destruct p1 as [|c1 [|c2 p1]]; [done| |].
  - injection Hp as <- _. vm_compute. intros [= <-]. eauto.
  - injection Hp as _ Hp. destruct p1, p2; done.
Defined.

(** A second write at the same key replaces the first: the object after
    both writes is the object after the second write alone.  No key of the
    object and no segment of the key is a name that objects inherit. *)
Theorem setValueFromKey_last_write_wins
    (object object1 : obj) (key : string) (v v' : value) :
  plain_keyed (VObj object) = true ->
  forallb plain_name (split "." key) = true ->
  passes_objects object (split "." key) ->
  setValueFromKey object key v = Ret object1 ->
  setValueFromKey object1 key v' = setValueFromKey object key v'
  /\ exists object2,
       setValueFromKey object1 key v' = Ret object2
       /\ getValueFromKey object2 key = Ret v'.
Proof.
  intros _ _ Hpass. pose proof (split_not_nil "." key) as Hne.
  unfold setValueFromKey. rewrite (set_path_insert _ object v) by done.
  rewrite (set_path_insert _ object v') by done. simpl.
  intros [= <-].
  rewrite set_path_insert by (done || apply passes_objects_insert). simpl.
  rewrite insert_path_twice. split; [done|].
  eexists. split; [done|]. apply getValueFromKey_lookup.
  by apply lookup_insert_same.
Qed.

Lemma setValueFromKey_last_write_wins_witness :
  setValueFromKey [("a", VObj [("b", VInt 1)])] "a.b" (VInt 3)
  = setValueFromKey [] "a.b" (VInt 3)
  /\ exists object2,
       setValueFromKey [("a", VObj [("b", VInt 1)])] "a.b" (VInt 3)
       = Ret object2
       /\ getValueFromKey object2 "a.b" = Ret (VInt 3).
Proof.
  apply (setValueFromKey_last_write_wins [] _ "a.b" (VInt 1) (VInt 3)).
  - reflexivity.
  - reflexivity.
  - apply passes_objects_nil.
  - vm_compute. reflexivity.
Defined.

(** A write whose path runs through a primitive (a number, a string, a
    boolean, [null] or [undefined] sits where a container is needed) throws
    a [TypeError]: nothing is overwritten on the way.  No key of the
    object and no segment of the key is a name that objects inherit (the
    store to [__proto__] runs a setter, which does not throw). *)
Theorem setValueFromKey_through_primitive_throws
    (object : obj) (key : string) (p1 p2 : list string) (w v : value) :
  plain_keyed (VObj object) = true ->
  forallb plain_name (split "." key) = true ->
  split "." key = p1 ++ p2 -> p1 <> [] -> p2 <> [] ->
  lookup_path (VObj object) p1 = Some w -> primitive w = true ->
  setValueFromKey object key v = Throw TypeError.
Proof.
  intros _ _ Hk Hne1 Hne2 Hl Hw. unfold setValueFromKey.
  by rewrite Hk, (set_path_blocked p1 object p2 w v).
Qed.

Lemma setValueFromKey_through_primitive_throws_witness :
  setValueFromKey [("a", VInt 0)] "a.b" (VInt 1) = Throw TypeError.
Proof.
  apply (setValueFromKey_through_primitive_throws
           [("a", VInt 0)] "a.b" ["a"] ["b"] (VInt 0) (VInt 1));
    (reflexivity || discriminate).
Defined.

Section Nulls.

Lemma flat_props_null ps :
  Forall (fun p => forall res key pre,
            if has_null p.2
            then flat res key p.2 pre = Throw TypeError
            else exists res', flat res key p.2 pre = Ret res') ps ->
  forall res prefix,
    if existsb (fun p => has_null p.2) ps
    then flat_props ps res prefix = Throw TypeError
    else exists res', flat_props ps res prefix = Ret res'.
Proof.
  induction 1 as [|[c x] ps Hx _ IH]; intros res prefix; simpl; [eauto|].
  specialize (Hx res c prefix). simpl in Hx.
  destruct (has_null x); simpl.
  - by rewrite Hx.
  - destruct Hx as [r1 ->]. simpl. apply IH.
Qed.

Lemma flat_null val : forall res key pre,
  if has_null val
  then flat res key val pre = Throw TypeError
  else exists res', flat res key val pre = Ret res'.
Proof.
  induction val as [| | | | | |o IH] using value_nested_ind;
    intros res key pre; try (by eexists).
  rewrite flat_obj. cbn [has_null]. by apply flat_props_null.
Qed.

Lemma toFlatObject_null object :
  if has_null (VObj object)
  then toFlatObject object = Throw TypeError
  else exists flatObject, toFlatObject object = Ret flatObject.
Proof.
  pose proof (flat_null (VObj object) [] "" "") as H.
  rewrite flat_obj in H. exact H.
Qed.

End Nulls.

(** ** Flattening *)

(** [toFlatObject] throws a [TypeError] exactly when a [null] sits in the
    object outside of arrays, at any depth; on every other object it
    returns. *)
Theorem toFlatObject_throws_exactly_on_null (object : obj) :
  if has_null (VObj object)
  then toFlatObject object = Throw TypeError
  else exists flatObject, toFlatObject object = Ret flatObject.
Proof. exact (toFlatObject_null object). Qed.

(** The flattened view of an object whose keys are segments maps a dotted
    key to the leaf at the end of that path: a primitive, [undefined] or an
    array, never a plain object; a key that leads to no leaf is absent.
    No key of the object is a name that objects inherit ([Object.assign]
    does not store a property [__proto__]). *)
Theorem toFlatObject_maps_paths_to_leaves
    (object flatObject : obj) (q : string) :
  well_keyed (VObj object) = true ->
  plain_keyed (VObj object) = true ->
  toFlatObject object = Ret flatObject ->
  assoc q flatObject = leaf_at (VObj object) (split "." q)
  /\ (q ∈ keys flatObject
      <-> exists w, lookup_path (VObj object) (split "." q) = Some w
                    /\ flat_leaf w = true).
Proof.
  intros Hwk _ Hf. pose proof (toFlatObject_assoc _ _ q Hwk Hf) as Ha.
  split; [done|]. split.
  - intros [w Hw]%keys_assoc. rewrite Ha in Hw. apply leaf_at_Some in Hw.
    eauto.
  - intros (w & Hw). apply (assoc_Some_keys _ _ w). rewrite Ha.
    by apply leaf_at_Some.
Qed.

Lemma toFlatObject_maps_paths_to_leaves_witness :
  assoc "foo.bar.qux" [("foo.bar.baz", VStr "123"); ("foo.bar.qux", VInt 123)]
  = leaf_at (VObj payload_extra) (split "." "foo.bar.qux")
  /\ ("foo.bar.qux"
        ∈ keys [("foo.bar.baz", VStr "123"); ("foo.bar.qux", VInt 123)]
      <-> exists w,
            lookup_path (VObj payload_extra) (split "." "foo.bar.qux") = Some w
            /\ flat_leaf w = true).
Proof.
  apply (toFlatObject_maps_paths_to_leaves payload_extra
           [("foo.bar.baz", VStr "123"); ("foo.bar.qux", VInt 123)]
           "foo.bar.qux"); vm_compute; reflexivity.
Defined.

Section ReportGrowth.

Variables (rs : gmap string rule) (spec payload flatPayload : obj).





Lemma extra_fields_lookup specKeys payloadKeys
    (errs : gmap string SanitizerError) k :
  k ∈ specKeys \/ k ∉ payloadKeys ->
  extra_fields specKeys payloadKeys errs !! k = errs !! k.
Proof.
  intros Hk. unfold extra_fields. destruct (negb _); [|done].
  rewrite extra_pass_lookup. case_bool_decide as H; [|done].
  destruct H, Hk; done.
Qed.


(** a key whose body leaves its own entry alone keeps it through the loop *)
Lemma loop_errors_keep ks k : forall errs out,
  (forall errs0 out0,
     (sanitize_key rs spec payload flatPayload k errs0 out0).1 !! k
     = errs0 !! k) ->
  (sanitize_keys rs spec payload flatPayload ks errs out).1 !! k = errs !! k.
Proof.
  intros errs out Hbody. revert errs out.
  induction ks as [|k0 ks IH]; intros errs out; [done|].
  cbn [sanitize_keys].
  assert (Hk0 : (sanitize_key rs spec payload flatPayload k0 errs out).1 !! k
                = errs !! k).
  { destruct (decide (k = k0)) as [-> | Hne]; [apply Hbody|].
    by apply sanitize_key_other. }
  destruct (sanitize_key _ _ _ _ k0 errs out) as [errs1 [out1|e]];
    simpl in *; [|done].
  by rewrite IH.
Qed.

(** a key whose body throws makes the loop throw, at that key or before *)
Lemma loop_throws ks k e : forall errs out,
  k ∈ ks ->
  key_outcome_of rs spec payload flatPayload k = KeyThrows e ->
  exists e', (sanitize_keys rs spec payload flatPayload ks errs out).2
             = Throw e'.
Proof.
  induction ks as [|k0 ks IH]; intros errs out Hin Hoc.
  - by apply elem_of_nil in Hin.
  - cbn [sanitize_keys].
    destruct (sanitize_key _ _ _ _ k0 errs out) as [errs1 [out1|e1]] eqn:Hb;
      [|simpl; eauto].
    apply elem_of_cons in Hin as [-> | Hin]; [|by apply IH].
    rewrite sanitize_key_outcome, Hoc in Hb. done.
Qed.

End ReportGrowth.

Section Undefined.


Lemma exist_walk_dead segs : forall a,
  primitive a = true -> segs <> [] ->
  reduce exist_step segs a = Throw TypeError.
Proof.
  destruct segs as [|c segs]; intros a Ha Hne; [done|].
  cbn [reduce]. unfold exist_step at 1.
  by rewrite has_property_primitive.
Qed.

Lemma exist_walk_missing p1 : forall o0 c p2 o,
  p2 <> [] ->
  lookup_path (VObj o0) p1 = Some (VObj o) -> assoc c o = None ->
  reduce exist_step (p1 ++ c :: p2) (VObj o0) = Throw TypeError.
Proof.
  induction p1 as [|c1 p1 IH]; intros o0 c p2 o Hne Hl Hc.
  - simpl in Hl. injection Hl as ->. cbn [app reduce].
    unfold exist_step at 1. cbn [has_property obind]. rewrite Hc.
    by apply exist_walk_dead.
  - simpl in Hl. destruct (assoc c1 o0) as [child|] eqn:Hc1; [|done].
    assert (exists o1, child = VObj o1) as [o1 ->].
    { destruct p1; [simpl in Hl; injection Hl as ->; eauto|].
      by apply (lookup_path_through _ _ _ _ Hl). }
    change ((c1 :: p1) ++ c :: p2) with (c1 :: (p1 ++ c :: p2)).
    cbn [reduce]. unfold exist_step at 1.
    cbn [has_property get_property obind]. rewrite Hc1. cbn [truthy].
    by apply (IH o1 c p2 o).
Qed.

End Undefined.

(** ** The call as a whole *)


(** A [null] anywhere in the spec or in the payload (outside of arrays)
    makes [sanitizeBySpec] throw a [TypeError] before anything is checked:
    no error is recorded. *)
Theorem sanitizeBySpec_aborts_on_null (this : Sanitizer) (spec payload : obj) :
  has_null (VObj spec) || has_null (VObj payload) = true ->
  sanitizeBySpec this spec payload = (this, Throw TypeError).
Proof.
  intros H. unfold sanitizeBySpec.
  pose proof (toFlatObject_null spec) as Hs.
  pose proof (toFlatObject_null payload) as Hp.
  destruct (has_null (VObj spec)); [by rewrite Hs|].
  destruct Hs as [fs ->]. rewrite orb_false_l in H. rewrite H in Hp.
  by rewrite Hp.
Qed.

Lemma sanitizeBySpec_aborts_on_null_witness :
  sanitizeBySpec StandardSanitizer
    [("a", VObj [("b", VStr "int")])] [("a", VObj [("b", VNull)])]
  = (StandardSanitizer, Throw TypeError).
Proof.
  apply (sanitizeBySpec_aborts_on_null StandardSanitizer
           [("a", VObj [("b", VStr "int")])] [("a", VObj [("b", VNull)])]).
  reflexivity.
Defined.

(** A nested path of the spec whose parent object in the payload lacks an
    inner segment does not get [KeyDoesNotExist]: the existence check
    itself throws a [TypeError], so does the call, and the entry of the
    report at the path is what it was before the call.  The keys of the
    spec and of the payload are segments, and none of them is a name that
    objects inherit. *)
Theorem missing_parent_throws
    (this : Sanitizer) (spec payload flatSpec flatPayload o : obj)
    (specKey c : string) (p1 p2 : list string) :
  well_keyed (VObj spec) = true ->
  plain_keyed (VObj spec) = true ->
  well_keyed (VObj payload) = true ->
  plain_keyed (VObj payload) = true ->
  toFlatObject spec = Ret flatSpec ->
  toFlatObject payload = Ret flatPayload ->
  specKey ∈ keys flatSpec ->
  split "." specKey = p1 ++ c :: p2 -> p2 <> [] ->
  lookup_path (VObj payload) p1 = Some (VObj o) -> assoc c o = None ->
  isKeyExist payload specKey = Throw TypeError
  /\ (exists e, (sanitizeBySpec this spec payload).2 = Throw e)
  /\ errors (sanitizeBySpec this spec payload).1 !! specKey
     = errors this !! specKey.
Proof.
  intros _ _ _ _ Hfs Hfp Hin Hsplit Hp2 Hl Hc.
  assert (Hk : isKeyExist payload specKey = Throw TypeError).
  { unfold isKeyExist. rewrite Hsplit.
    by rewrite (exist_walk_missing p1 payload c p2 o). }
  assert (Hoc : key_outcome_of (rules this) spec payload flatPayload specKey
                = KeyThrows TypeError).
  { unfold key_outcome_of. by rewrite Hk. }
  split; [done|]. unfold sanitizeBySpec. rewrite Hfs, Hfp.
  destruct (loop_throws (rules this) spec payload flatPayload (keys flatSpec)
              specKey TypeError
              (extra_fields (keys flatSpec) (keys flatPayload) (errors this))
              [] Hin Hoc) as [e He].
  pose proof (loop_errors_keep (rules this) spec payload flatPayload
                (keys flatSpec) specKey
                (extra_fields (keys flatSpec) (keys flatPayload) (errors this))
                []) as Hkeep.
  destruct (sanitize_keys _ _ _ _ _ _ _) as [errs' res]. simpl in *.
  split; [eauto|]. rewrite Hkeep.
  - apply extra_fields_lookup. by left.
  - intros errs0 out0. by rewrite sanitize_key_outcome, Hoc.
Qed.

Lemma missing_parent_throws_witness :
  isKeyExist [("c", VInt 1)] "a.b" = Throw TypeError
  /\ (exists e,
        (sanitizeBySpec StandardSanitizer [("a", VObj [("b", VStr "int")])]
           [("c", VInt 1)]).2 = Throw e)
  /\ errors (sanitizeBySpec StandardSanitizer
               [("a", VObj [("b", VStr "int")])] [("c", VInt 1)]).1 !! "a.b"
     = errors StandardSanitizer !! "a.b".
Proof.
  apply (missing_parent_throws StandardSanitizer
           [("a", VObj [("b", VStr "int")])] [("c", VInt 1)]
           [("a.b", VStr "int")] [("c", VInt 1)] [("c", VInt 1)]
           "a.b" "a" [] ["b"]); try reflexivity.
  - apply elem_of_cons. by left.
  - discriminate.
Defined.

(** What is recorded for a path of the spec that has no rule to run.  When
    the call returns, a path that [isKeyExist] does not find in the payload
    has [KeyDoesNotExist], and a path whose token is not registered has
    [InvalidSpecRule]; the token is then not a name the registry inherits.
    A token that is such a name ([constructor], [toString], ...) passes the
    test [ruleName in this.rules], and the call throws.  The keys of the
    spec and of the payload are segments, and none of them is a name that
    objects inherit. *)
Theorem missing_key_and_unknown_rule_recorded
    (this : Sanitizer) (spec payload flatSpec : obj) (specKey : string) :
  well_keyed (VObj spec) = true ->
  plain_keyed (VObj spec) = true ->
  well_keyed (VObj payload) = true ->
  plain_keyed (VObj payload) = true ->
  toFlatObject spec = Ret flatSpec ->
  specKey ∈ keys flatSpec ->
  (forall out,
     (sanitizeBySpec this spec payload).2 = Ret out ->
     isKeyExist payload specKey = Ret false ->
     errors (sanitizeBySpec this spec payload).1 !! specKey
     = Some KeyDoesNotExist)
  /\ (forall out ruleName,
        (sanitizeBySpec this spec payload).2 = Ret out ->
        isKeyExist payload specKey = Ret true ->
        getValueFromKey spec specKey = Ret ruleName ->
        rules this !! ToString ruleName = None ->
        object_prototype_name (ToString ruleName) = false
        /\ errors (sanitizeBySpec this spec payload).1 !! specKey
           = Some InvalidSpecRule)
  /\ (forall ruleName,
        isKeyExist payload specKey = Ret true ->
        getValueFromKey spec specKey = Ret ruleName ->
        rules this !! ToString ruleName = None ->
        object_prototype_name (ToString ruleName) = true ->
        exists e, (sanitizeBySpec this spec payload).2 = Throw e).
Proof.
  intros _ _ _ _ Hfs Hin. unfold sanitizeBySpec. rewrite Hfs.
  destruct (toFlatObject payload) as [flatPayload|e0]; [|by split_and!; eauto].
  pose proof (loop_throws (rules this) spec payload flatPayload
                (keys flatSpec) specKey TypeError
                (extra_fields (keys flatSpec) (keys flatPayload) (errors this))
                [] Hin) as Hthrows.
  destruct (sanitize_keys _ _ _ _ _ _ _) as [errs' res] eqn:Hloop.
  cbn [fst snd errors] in *. split_and!.
  - intros out -> Hmiss.
    eapply (loop_errors_at _ _ _ _ _ specKey KeyDoesNotExist);
      [|exact Hin|exact Hloop].
    intros errs0 out0. unfold sanitize_key. rewrite Hmiss.
    apply lookup_insert_eq.
  - intros out ruleName -> Hexist Hname Hrule.
    destruct (object_prototype_name (ToString ruleName)) eqn:Hproto.
    + destruct Hthrows as [e He]; [|done].
      unfold key_outcome_of. by rewrite Hexist, Hname, Hrule, Hproto.
    + split; [done|].
      eapply (loop_errors_at _ _ _ _ _ specKey InvalidSpecRule);
        [|exact Hin|exact Hloop].
      intros errs0 out0. unfold sanitize_key.
      rewrite Hexist, Hname, Hrule, Hproto. apply lookup_insert_eq.
  - intros ruleName Hexist Hname Hrule Hproto. apply Hthrows.
    unfold key_outcome_of. by rewrite Hexist, Hname, Hrule, Hproto.
Qed.

(** a missing path, a token that is not registered, and the token
    [constructor] *)
Lemma missing_key_and_unknown_rule_recorded_witness :
  errors (sanitizeBySpec StandardSanitizer
            [("a", VStr "int"); ("b", VStr "nope")] [("b", VStr "1")]).1
    !! "a" = Some KeyDoesNotExist
  /\ (object_prototype_name "nope" = false
      /\ errors (sanitizeBySpec StandardSanitizer
                   [("a", VStr "int"); ("b", VStr "nope")] [("b", VStr "1")]).1
           !! "b" = Some InvalidSpecRule)
  /\ exists e,
       (sanitizeBySpec StandardSanitizer
          [("a", VStr "constructor")] [("a", VStr "1")]).2 = Throw e.
Proof.
  assert (Ha : "a" ∈ keys [("a", VStr "int"); ("b", VStr "nope")])
    by (apply elem_of_cons; by left).
  assert (Hb : "b" ∈ keys [("a", VStr "int"); ("b", VStr "nope")])
    by (apply elem_of_cons; right; apply elem_of_cons; by left).
  assert (Hc : "a" ∈ keys [("a", VStr "constructor")])
    by (apply elem_of_cons; by left).
  split; [|split].
  - apply (proj1 (missing_key_and_unknown_rule_recorded StandardSanitizer
                    [("a", VStr "int"); ("b", VStr "nope")] [("b", VStr "1")]
                    [("a", VStr "int"); ("b", VStr "nope")] "a"
                    eq_refl eq_refl eq_refl eq_refl eq_refl Ha) []);
      vm_compute; reflexivity.
  - apply (proj1 (proj2 (missing_key_and_unknown_rule_recorded
                           StandardSanitizer
                           [("a", VStr "int"); ("b", VStr "nope")]
                           [("b", VStr "1")]
                           [("a", VStr "int"); ("b", VStr "nope")] "b"
                           eq_refl eq_refl eq_refl eq_refl eq_refl Hb)) [] (VStr "nope"));
      vm_compute; reflexivity.
  - apply (proj2 (proj2 (missing_key_and_unknown_rule_recorded
                           StandardSanitizer
                           [("a", VStr "constructor")] [("a", VStr "1")]
                           [("a", VStr "constructor")] "a"
                           eq_refl eq_refl eq_refl eq_refl eq_refl Hc)) (VStr "constructor"));
      vm_compute; reflexivity.
Defined.

(** The result at a path of the spec.  For a path that exists in the payload
    and whose rule is registered, the returned payload holds at that path
    the value the rule returned for the raw value; the report holds the
    error the rule reported, and when the rule reported nothing the entry
    is what it was before the call (an error of an earlier call stays).
    The keys of the spec and of the payload are segments, and none of
    them is a name that objects inherit. *)
Theorem spec_path_value_and_report
    (this this' : Sanitizer) (spec payload flatSpec flatPayload out : obj)
    (specKey : string) (ruleName : value) (r : rule)
    (w : value) (calls : list report) :
  well_keyed (VObj spec) = true ->
  plain_keyed (VObj spec) = true ->
  well_keyed (VObj payload) = true ->
  plain_keyed (VObj payload) = true ->
  toFlatObject spec = Ret flatSpec ->
  toFlatObject payload = Ret flatPayload ->
  specKey ∈ keys flatSpec ->
  isKeyExist payload specKey = Ret true ->
  getValueFromKey spec specKey = Ret ruleName ->
  rules this !! ToString ruleName = Some r ->
  sanitize r (get_property (VObj flatPayload) specKey) = Ret (w, calls) ->
  sanitizeBySpec this spec payload = (this', Ret out) ->
  getValueFromKey out specKey = Ret w
  /\ errors this' !! specKey
     = match calls with
       | [] => errors this !! specKey
       | c :: _ => Some c.1
       end.
Proof.
  intros Hwk _ _ _ Hfs Hfp Hin Hexist Hname Hrule Hs.
  unfold sanitizeBySpec. rewrite Hfs, Hfp.
  destruct (sanitize_keys _ _ _ _ _ _ _) as [errs' res] eqn:Hloop.
  intros [= <- ->]. cbn [errors].
  assert (Hoc : key_outcome_of (rules this) spec payload flatPayload specKey
                = KeyValue w calls).
  { apply key_outcome_value. exists ruleName, r. done. }
  split.
  - pose proof (flat_keys_path_free _ _ Hwk Hfs) as Hpf.
    pose proof (loop_tree_of _ _ _ _ _ [] _ _ _ _ Hpf
                  (tree_of_nil _ _ _ _) Hloop) as (_ & Hval & _).
    apply getValueFromKey_lookup. by apply (Hval _ _ _ Hin Hoc).
  - destruct calls as [|c calls].
    + replace errs' with
        (sanitize_keys (rules this) spec payload flatPayload (keys flatSpec)
           (extra_fields (keys flatSpec) (keys flatPayload) (errors this))
           []).1 by by rewrite Hloop.
      rewrite loop_errors_keep.
      * apply extra_fields_lookup. by left.
      * intros errs0 out0. by rewrite sanitize_key_outcome, Hoc.
    + pose proof (sanitize_logs_once _ _ _ _ Hs) as Hlen.
      destruct calls; [|simpl in Hlen; lia].
      eapply (loop_errors_at _ _ _ _ _ specKey c.1); [|exact Hin|exact Hloop].
      intros errs0 out0. rewrite sanitize_key_outcome, Hoc. simpl.
      apply lookup_insert_eq.
Qed.

Lemma spec_path_value_and_report_witness :
  getValueFromKey [("a", VArr [])] "a" = Ret (VArr [])
  /\ errors (sanitizeBySpec StandardSanitizer [("a", VStr "int[]")]
               [("a", VArr [VInt 1; VStr "x"; VInt 2])]).1 !! "a"
     = Some InvalidStructureValue.
Proof.
  apply (spec_path_value_and_report StandardSanitizer
           (sanitizeBySpec StandardSanitizer [("a", VStr "int[]")]
              [("a", VArr [VInt 1; VStr "x"; VInt 2])]).1
           [("a", VStr "int[]")] [("a", VArr [VInt 1; VStr "x"; VInt 2])]
           [("a", VStr "int[]")] [("a", VArr [VInt 1; VStr "x"; VInt 2])]
           [("a", VArr [])] "a" (VStr "int[]") (TypedArrayRule IntegerRule)
           (VArr []) [(InvalidStructureValue, [1])]);
    try (vm_compute; reflexivity).
  apply elem_of_cons. by left.
Defined.

(** The returned payload is typed by the spec.  It can be flattened again,
    and every leaf of it sits at a path of the flattened spec, under a rule
    that is registered for that path, and has the target type of that rule;
    what the payload holds at other paths is not copied.  The keys of the
    spec and of the payload are segments, none of them is a name that
    objects inherit, and the strings of the payload have at most 308
    characters (a numeral among them is a finite number). *)
Theorem sanitized_payload_is_typed_by_spec
    (this this' : Sanitizer) (spec payload flatSpec out : obj) :
  well_keyed (VObj spec) = true ->
  plain_keyed (VObj spec) = true ->
  well_keyed (VObj payload) = true ->
  plain_keyed (VObj payload) = true ->
  short_strings (VObj payload) = true ->
  toFlatObject spec = Ret flatSpec ->
  sanitizeBySpec this spec payload = (this', Ret out) ->
  exists flatOut,
    toFlatObject out = Ret flatOut
    /\ forall q w,
         assoc q flatOut = Some w ->
         q ∈ keys flatSpec
         /\ exists ruleName r,
              getValueFromKey spec q = Ret ruleName
              /\ rules this !! ToString ruleName = Some r
              /\ well_typed r w = true.
Proof.
  intros Hwk _ _ _ _ Hfs. unfold sanitizeBySpec. rewrite Hfs.
  destruct (toFlatObject payload) as [fp|e] eqn:Hfp; [|done].
  destruct (sanitize_keys _ _ _ _ _ _ _) as [errs' res] eqn:Hloop.
  intros [= <- ->].
  pose proof (flat_keys_path_free _ _ Hwk Hfs) as Hpf.
  pose proof (loop_tree_of _ _ _ _ _ [] _ _ _ _ Hpf
                (tree_of_nil _ _ _ _) Hloop) as Htree.
  simpl in Htree. pose proof Htree as (Hwko & _ & _).
  destruct (toFlatObject_returns out Hwko) as [fo Hfo].
  { intros p. by apply (tree_of_no_null _ _ _ _ _ _ _ Htree). }
  exists fo. split; [done|]. intros q w Hq.
  rewrite (toFlatObject_assoc _ _ q Hwko Hfo) in Hq.
  destruct (tree_of_leaf _ _ _ _ _ _ _ _ Htree Hq) as (Hin & calls & Hoc).
  split; [done|].
  apply key_outcome_value in Hoc as (ruleName & r & _ & Hname & Hrule & Hs).
  exists ruleName, r. split_and!; [done|done|].
  exact (sanitize_well_typed r _ w calls Hs).
Qed.

Lemma sanitized_payload_is_typed_by_spec_witness :
  exists flatOut,
    toFlatObject [("foo", VObj [("bar", VObj [("baz", VInt 123)])])]
    = Ret flatOut
    /\ forall q w,
         assoc q flatOut = Some w ->
         q ∈ keys [("foo.bar.baz", VStr "int")]
         /\ exists ruleName r,
              getValueFromKey spec_nested q = Ret ruleName
              /\ rules StandardSanitizer !! ToString ruleName = Some r
              /\ well_typed r w = true.
Proof.
  apply (sanitized_payload_is_typed_by_spec StandardSanitizer
           (sanitizeBySpec StandardSanitizer spec_nested payload_extra).1
           spec_nested payload_extra [("foo.bar.baz", VStr "int")]
           [("foo", VObj [("bar", VObj [("baz", VInt 123)])])]);
    vm_compute; reflexivity.
Defined.



Section LoopReturns.

Variables (rs : gmap string rule) (spec payload flatPayload : obj).

(** on keys that bring a value and no report, the loop returns and leaves
    the report as it was *)
Lemma loop_clean ks : forall done errs out,
  path_free (done ++ ks) ->
  tree_of (key_outcome_of rs spec payload flatPayload) done out ->
  (forall k, k ∈ ks ->
     exists v, key_outcome_of rs spec payload flatPayload k = KeyValue v []) ->
  exists out',
    sanitize_keys rs spec payload flatPayload ks errs out = (errs, Ret out').
Proof.
  induction ks as [|k ks IH]; intros done errs out Hpf Htree Hks.
  - simpl. eauto.
  - cbn [sanitize_keys]. rewrite sanitize_key_outcome.
    pose proof (path_free_app_cons _ _ _ Hpf) as Hpf1.
    replace (done ++ k :: ks) with ((done ++ [k]) ++ ks) in *
      by (by rewrite <- app_assoc).
    destruct (Hks k) as [v Hoc]; [apply elem_of_cons; by left|].
    rewrite Hoc. unfold setValueFromKey.
    rewrite set_path_insert;
      [|apply split_not_nil
       |by apply (tree_of_passes rs spec payload flatPayload done)].
    cbn [obind as_obj log_errors fold_left].
    apply (IH (done ++ [k])); [done| |].
    + by apply (tree_of_insert _ _ _ _ _ _ _ []).
    + intros k' Hk'. apply Hks, elem_of_cons. by right.
Qed.

End LoopReturns.

(** On a fresh instance, a payload that conforms gets an empty report: if
    the flattened payload has exactly the paths of the flattened spec and a
    registered rule takes each raw value without an error, the call
    returns and the report stays empty.  The keys of both objects are
    segments, and none of them is a name that objects inherit. *)
Theorem conforming_payload_gives_empty_report
    (rs : gmap string rule) (spec payload flatSpec flatPayload : obj) :
  well_keyed (VObj spec) = true ->
  well_keyed (VObj payload) = true ->
  plain_keyed (VObj spec) = true ->
  plain_keyed (VObj payload) = true ->
  toFlatObject spec = Ret flatSpec ->
  toFlatObject payload = Ret flatPayload ->
  keys flatSpec ≡ₚ keys flatPayload ->
  (forall k, k ∈ keys flatSpec ->
     exists ruleName r raw v,
       getValueFromKey spec k = Ret ruleName
       /\ rs !! ToString ruleName = Some r
       /\ assoc k flatPayload = Some raw
       /\ sanitize r raw = Ret (v, [])) ->
  exists out,
    sanitizeBySpec (new_Sanitizer rs) spec payload
    = (new_Sanitizer rs, Ret out).
Proof.
  intros Hwk Hwkp _ _ Hfs Hfp Hperm Hkeys.
  unfold sanitizeBySpec. rewrite Hfs, Hfp. cbn [rules errors new_Sanitizer].
  unfold extra_fields. rewrite (Permutation_length Hperm), Nat.eqb_refl.
  cbn [negb].
  destruct (loop_clean rs spec payload flatPayload (keys flatSpec) [] ∅ [])
    as [out Hout].
  - by apply (flat_keys_path_free spec).
  - apply tree_of_nil.
  - intros k Hk.
    destruct (Hkeys k Hk) as (ruleName & r & raw & v & Hn & Hr & Hraw & Hs).
    exists v. apply key_outcome_value. exists ruleName, r.
    split_and!; [|done|done|].
    + rewrite (toFlatObject_assoc _ _ k Hwkp Hfp) in Hraw.
      apply leaf_at_Some in Hraw as [Hl _].
      by apply (isKeyExist_lookup _ _ raw).
    + cbn [get_property]. by rewrite Hraw.
  - exists out. by rewrite Hout.
Qed.

Lemma conforming_payload_gives_empty_report_witness :
  exists out,
    sanitizeBySpec (new_Sanitizer (rules StandardSanitizer)) spec_nested
      [("foo", VObj [("bar", VObj [("baz", VStr "123")])])]
    = (new_Sanitizer (rules StandardSanitizer), Ret out).
Proof.
  apply (conforming_payload_gives_empty_report (rules StandardSanitizer)
           spec_nested [("foo", VObj [("bar", VObj [("baz", VStr "123")])])]
           [("foo.bar.baz", VStr "int")] [("foo.bar.baz", VStr "123")]).
  - vm_compute. reflexivity.
  - vm_compute. reflexivity.
  - vm_compute. reflexivity.
  - vm_compute. reflexivity.
  - vm_compute. reflexivity.
  - vm_compute. reflexivity.
  - apply Permutation_refl.
  - intros k Hk. apply list_elem_of_singleton in Hk as ->.
    exists (VStr "int"), IntegerRule, (VStr "123"), (VInt 123).
    split_and!; vm_compute; reflexivity.
Defined.

(** Rules and their own output.  What a rule returned is returned again,
    unchanged and without a report, exactly when it is [stable]: an integer
    below 1e21 in magnitude for [IntegerRule] (from 1e21 on the second pass
    reads the first digit of the exponent notation), a number that is not
    integral for [FloatRule] (the [1] read from ['1.0'] is rejected), a
    phone number of eleven digits or more for [PhoneRule], every output of
    [StringRule], and an array of such values for [TypedArrayRule]. *)
Theorem rule_outputs_are_fixpoints
    (r : rule) (v0 w : value) (calls : list report) :
  sanitize r v0 = Ret (w, calls) ->
  sanitize r w = Ret (w, []) <-> stable r w = true.
Proof.
  intros H. split.
  - apply fixpoint_stable.
  - by apply (stable_fixpoint r v0 w calls).
Qed.

(** the integer 1e21, read from a string of 22 digits, is read as its first
    digit by the second pass *)
Lemma rule_outputs_are_fixpoints_witness :
  (sanitize IntegerRule (VInt (10 ^ 21)) = Ret (VInt (10 ^ 21), [])
   <-> stable IntegerRule (VInt (10 ^ 21)) = true)
  /\ stable IntegerRule (VInt (10 ^ 21)) = false
  /\ sanitize IntegerRule (VInt (10 ^ 21)) = Ret (VInt 1, []).
Proof.
  split; [|split; vm_compute; reflexivity].
  apply (rule_outputs_are_fixpoints IntegerRule
           (VStr "1000000000000000000000") (VInt (10 ^ 21)) []).
  vm_compute. reflexivity.
Defined.

(** The flattened view agrees with the lookups: every key of the flattened
    view of an object (whose keys are segments) exists in the object, and
    [getValueFromKey] returns for it the value the view holds. *)
Theorem flattened_view_agrees_with_lookup
    (object flatObject : obj) (key : string) (v : value) :
  well_keyed (VObj object) = true ->
  toFlatObject object = Ret flatObject ->
  assoc key flatObject = Some v ->
  isKeyExist object key = Ret true
  /\ getValueFromKey object key = Ret v
  /\ get_property (VObj flatObject) key = v.
Proof.
  intros Hwk Hf Hv. pose proof Hv as Hl.
  rewrite (toFlatObject_assoc _ _ key Hwk Hf) in Hl.
  apply leaf_at_Some in Hl as [Hl _]. split_and!.
  - by apply (isKeyExist_lookup _ _ v).
  - by apply getValueFromKey_lookup.
  - cbn [get_property]. by rewrite Hv.
Qed.

Lemma flattened_view_agrees_with_lookup_witness :
  isKeyExist payload_extra "foo.bar.qux" = Ret true
  /\ getValueFromKey payload_extra "foo.bar.qux" = Ret (VInt 123)
  /\ get_property
       (VObj [("foo.bar.baz", VStr "123"); ("foo.bar.qux", VInt 123)])
       "foo.bar.qux" = VInt 123.
Proof.
  apply (flattened_view_agrees_with_lookup payload_extra
           [("foo.bar.baz", VStr "123"); ("foo.bar.qux", VInt 123)]
           "foo.bar.qux" (VInt 123)); vm_compute; reflexivity.
Defined.
